(** * Block-sparse descriptors: spherical expansion builders and the
      SOAP power spectrum

    Shallow embedding of [utils/librascal.py] and [utils/models/soap.py].

    Python exceptions are results of an error monad, numpy arrays are a
    shape together with the row-major list of their entries, label sets
    are a list of names and a list of integer rows.  The arithmetic on
    the entries of the arrays is a parameter of the development: the
    theorems hold for any interpretation of it, and the examples run on
    binary64 floating point numbers. *)

From Stdlib Require Import String ZArith Lia Bool Arith PeanoNat List.
From Stdlib Require Import Floats SpecFloat Uint63 Sorted.
Import ListNotations.

(** ** Exceptions *)

Inductive exn : Type :=
| AssertionError
| ValueError (msg : string)
| IndexError
| PlainException (msg : string)
| KeyError
| RuntimeError
| TypeError
| LibraryError.

Inductive result (A : Type) : Type :=
| Ok (a : A)
| Raise (e : exn).

Arguments Ok {A} a.
Arguments Raise {A} e.

Definition bind {A B : Type} (c : result A) (k : A -> result B) : result B :=
  match c with
  | Ok a => k a
  | Raise e => Raise e
  end.

Declare Scope py_scope.
Delimit Scope py_scope with py.
Notation "x <- c ;; k" := (bind c (fun x => k))
  (at level 61, c at next level, right associativity) : py_scope.
Notation "' p <- c ;; k" := (bind c (fun x => match x with p => k end))
  (at level 61, p pattern, c at next level, right associativity) : py_scope.
Local Open Scope py_scope.

Definition assert (b : bool) : result unit :=
  if b then Ok tt else Raise AssertionError.

Fixpoint mapM {A B : Type} (f : A -> result B) (l : list A) : result (list B) :=
  match l with
  | [] => Ok []
  | a :: l' => b <- f a ;; bs <- mapM f l' ;; Ok (b :: bs)
  end.

Lemma bind_Ok (A B : Type) (c : result A) (k : A -> result B) (b : B) :
  bind c k = Ok b -> exists a, c = Ok a /\ k a = Ok b.
Proof.
  destruct c as [a | e]; simpl; intros H; [exists a; auto | discriminate].
Qed.

(** Inversion of a successful run, one [bind] at a time. *)
Ltac inv_bind H :=
  let a := fresh "a" in
  let Ha := fresh "Ha" in
  apply bind_Ok in H; destruct H as [a [Ha H]].

Tactic Notation "bind_inv" hyp(H) "as" ident(a) ident(Ha) :=
  apply bind_Ok in H; destruct H as [a [Ha H]].

(** Closed comparisons of integers. *)
Ltac by_computation :=
  vm_compute; repeat split; first [reflexivity | discriminate].

Ltac inv_Ok H := injection H as H; subst.

Lemma mapM_length (A B : Type) (f : A -> result B) (l : list A) (bs : list B) :
  mapM f l = Ok bs -> length bs = length l.
Proof.
  revert bs; induction l as [| a l IH]; simpl; intros bs H.
  - inv_Ok H. reflexivity.
  - inv_bind H. inv_bind H. inv_Ok H. simpl. f_equal. auto.
Qed.

Lemma mapM_total (A B : Type) (f : A -> result B) (l : list A) :
  (forall a, In a l -> exists b, f a = Ok b) ->
  exists bs, mapM f l = Ok bs.
Proof.
  induction l as [| a l IH]; simpl; intros H.
  - eexists; reflexivity.
  - destruct (H a (or_introl eq_refl)) as [b Hb].
    destruct IH as [bs Hbs]; [intros; apply H; auto |].
    exists (b :: bs). rewrite Hb; simpl. rewrite Hbs; reflexivity.
Qed.

Lemma mapM_In (A B : Type) (f : A -> result B) (l : list A) (bs : list B) (b : B) :
  mapM f l = Ok bs -> In b bs -> exists a, In a l /\ f a = Ok b.
Proof.
  revert bs; induction l as [| a l IH]; simpl; intros bs H Hin.
  - inv_Ok H. destruct Hin.
  - inv_bind H. inv_bind H. inv_Ok H. destruct Hin as [-> | Hin].
    + exists a; auto.
    + destruct (IH _ Ha0 Hin) as [a' [? ?]]. exists a'; auto.
Qed.

Lemma mapM_Forall2 (A B : Type) (f : A -> result B) (l : list A) (bs : list B) :
  mapM f l = Ok bs -> Forall2 (fun a b => f a = Ok b) l bs.
Proof.
  revert bs; induction l as [| a l IH]; simpl; intros bs H.
  - inv_Ok H. constructor.
  - inv_bind H. inv_bind H. inv_Ok H. constructor; auto.
Qed.

Lemma Forall2_combine_In (A B : Type) (R : A -> B -> Prop) (l : list A) (bs : list B)
    (a : A) (b : B) :
  Forall2 R l bs -> In (a, b) (combine l bs) -> R a b.
Proof.
  induction 1 as [| x y l bs Hxy _ IH]; simpl; intros Hin.
  - destruct Hin.
  - destruct Hin as [Hin | Hin]; [inv_Ok Hin; assumption | auto].
Qed.

Lemma Forall2_In_r (A B : Type) (R : A -> B -> Prop) (l : list A) (bs : list B) (b : B) :
  Forall2 R l bs -> In b bs -> exists a, In (a, b) (combine l bs) /\ R a b.
Proof.
  induction 1 as [| x y l bs Hxy _ IH]; simpl; intros Hin.
  - destruct Hin.
  - destruct Hin as [<- | Hin].
    + exists x. auto.
    + destruct (IH Hin) as [a [? ?]]. exists a. auto.
Qed.

Lemma map_flat_map (A B C : Type) (g : B -> C) (f : A -> list B) (l : list A) :
  map g (flat_map f l) = flat_map (fun x => map g (f x)) l.
Proof.
  induction l as [| a l IH]; simpl; [reflexivity |].
  rewrite map_app, IH. reflexivity.
Qed.

Lemma flat_map_ext_In (A B : Type) (f g : A -> list B) (l : list A) :
  (forall x, In x l -> f x = g x) -> flat_map f l = flat_map g l.
Proof.
  induction l as [| a l IH]; simpl; intros H; [reflexivity |].
  rewrite (H a) by (left; reflexivity). rewrite IH by (intros; apply H; right; assumption).
  reflexivity.
Qed.

Lemma combine_map_fst (A B C : Type) (f : A -> C) (l : list A) (l' : list B) :
  combine (map f l) l' = map (fun ab => (f (fst ab), snd ab)) (combine l l').
Proof.
  revert l'. induction l as [| a l IH]; intros [| b l']; simpl; try reflexivity.
  rewrite IH. reflexivity.
Qed.

Lemma length_flat_map_uniform (A B : Type) (f : A -> list B) (k : nat) (l : list A) :
  (forall x, length (f x) = k) -> length (flat_map f l) = length l * k.
Proof.
  intros Hk. induction l as [| a l IH]; simpl; [reflexivity |].
  rewrite length_app, Hk, IH. reflexivity.
Qed.

(** ** Lists laid out in rows of equal length *)

Lemma length_flat_map_seq (A : Type) (f : nat -> list A) (k n s : nat) :
  (forall x, length (f x) = k) ->
  length (flat_map f (seq s n)) = n * k.
Proof.
  intros Hk. revert s. induction n as [| n IH]; intros s; simpl.
  - reflexivity.
  - rewrite length_app, Hk, IH. reflexivity.
Qed.

Lemma nth_flat_map_seq (A : Type) (f : nat -> list A) (k n s i j : nat) (d : A) :
  (forall x, length (f x) = k) ->
  i < n -> j < k ->
  nth (i * k + j) (flat_map f (seq s n)) d = nth j (f (s + i)) d.
Proof.
  intros Hk. revert s i. induction n as [| n IH]; intros s i Hi Hj.
  - lia.
  - simpl. destruct i as [| i].
    + simpl. rewrite app_nth1 by (rewrite Hk; lia). rewrite Nat.add_0_r. reflexivity.
    + rewrite app_nth2 by (rewrite Hk; simpl; lia).
      rewrite Hk. replace (S i * k + j - k) with (i * k + j) by (simpl; lia).
      rewrite IH by lia. f_equal. f_equal. lia.
Qed.

Lemma nth_flat_map_uniform (A B : Type) (f : A -> list B) (k : nat) (l : list A)
    (i j : nat) (a0 : A) (d : B) :
  (forall x, length (f x) = k) ->
  i < length l -> j < k ->
  nth (i * k + j) (flat_map f l) d = nth j (f (nth i l a0)) d.
Proof.
  intros Hk. revert i. induction l as [| a l IH]; intros i Hi Hj; simpl in Hi; [lia |].
  simpl. destruct i as [| i].
  - simpl. rewrite app_nth1 by (rewrite Hk; lia). reflexivity.
  - rewrite app_nth2 by (rewrite Hk; simpl; lia).
    rewrite Hk. replace (S i * k + j - k) with (i * k + j) by (simpl; lia).
    apply IH; lia.
Qed.

Lemma row_major_lt (i p q I A B : nat) :
  i < I -> p < A -> q < B -> i * (A * B) + (p * B + q) < I * (A * B).
Proof.
  intros Hi Hp Hq.
  assert (H1 : (p + 1) * B <= A * B) by (apply Nat.mul_le_mono_r; lia).
  assert (H2 : (i + 1) * (A * B) <= I * (A * B)) by (apply Nat.mul_le_mono_r; lia).
  lia.
Qed.

Lemma nth_map_seq (A : Type) (g : nat -> A) (n j : nat) (d : A) :
  j < n -> nth j (map g (seq 0 n)) d = g j.
Proof.
  intros Hj. rewrite (nth_indep _ d (g 0)) by (rewrite length_map, length_seq; lia).
  rewrite map_nth. rewrite seq_nth by lia. reflexivity.
Qed.

(** ** Scalars

    The entries of the value arrays are IEEE doubles in the program.  The
    operations the code applies to them are the fields of this class. *)

Class Scalar (V : Type) : Type := {
  vzero : V;
  vone : V;
  vadd : V -> V -> V;
  vmul : V -> V -> V;
  vdiv : V -> V -> V;
  (** [math.sqrt] on a non-negative Python integer *)
  vsqrt : Z -> V;
  (** the literal [1e-20] *)
  v1e_20 : V;
  (** [x > y] *)
  vgtb : V -> V -> bool;
  (** [np.linalg.norm(a) == 0] on the entries of [a] *)
  vnorm_is_zero : list V -> bool;
  (** [a.sum()] over a run of entries that lie next to each other in
      memory, added in the order numpy adds them *)
  vsum : list V -> V;
  (** the double stored in a [float32] tensor and read back: its
      rounding to single precision *)
  vfloat32 : V -> V
}.

(** The doubles themselves, for running the model. *)
Definition float_of_Z (z : Z) : float :=
  if (z <? 0)%Z then PrimFloat.opp (PrimFloat.of_uint63 (Uint63.of_Z (- z)))
  else PrimFloat.of_uint63 (Uint63.of_Z z).

(** The sum of a run of doubles as numpy computes it, by pairwise
    summation: fewer than eight entries are added in their order; up to
    128 entries are added eight by eight into eight running sums, which
    are then added two by two, and the entries left over are added to
    the result in their order; a longer run is cut in two, the first
    part being the multiple of eight at or below the middle.  The sum
    starts from zero. *)
Definition sum_by_eights (l : list float) : float :=
  let n := length l in
  let full := n - n mod 8 in
  let fix eights (r rest : list float) (k : nat) : list float :=
    match k with
    | O => r
    | S k' =>
        eights (map (fun xy => PrimFloat.add (fst xy) (snd xy)) (combine r (firstn 8 rest)))
               (skipn 8 rest) k'
    end in
  let r := eights (firstn 8 l) (skipn 8 l) (full / 8 - 1) in
  let at_ (i : nat) : float := nth i r 0%float in
  let res :=
    PrimFloat.add
      (PrimFloat.add (PrimFloat.add (at_ 0) (at_ 1)) (PrimFloat.add (at_ 2) (at_ 3)))
      (PrimFloat.add (PrimFloat.add (at_ 4) (at_ 5)) (PrimFloat.add (at_ 6) (at_ 7))) in
  fold_left PrimFloat.add (skipn full l) res.

Fixpoint pairwise_sum (depth : nat) (l : list float) : float :=
  let n := length l in
  if n <? 8 then fold_left PrimFloat.add l 0%float
  else if n <=? 128 then sum_by_eights l
  else
    match depth with
    | O => sum_by_eights l
    | S depth' =>
        let n2 := n / 2 - (n / 2) mod 8 in
        PrimFloat.add (pairwise_sum depth' (firstn n2 l)) (pairwise_sum depth' (skipn n2 l))
    end.

(** The rounding of a double to single precision, to the nearest value
    and to an even mantissa when there are two. *)
Definition to_float32 (x : float) : float :=
  match Prim2SF x with
  | S754_finite s m e => SF2Prim (binary_normalize 24 128 (cond_Zopp s (Zpos m)) e s)
  | _ => x
  end.

#[export] Instance Scalar_float : Scalar float := {|
  vzero := 0%float;
  vone := 1%float;
  vadd := PrimFloat.add;
  vmul := PrimFloat.mul;
  vdiv := PrimFloat.div;
  vsqrt := fun z => PrimFloat.sqrt (float_of_Z z);
  v1e_20 := 0x1.79ca10c924223p-67%float;
  vgtb := fun x y => PrimFloat.ltb y x;
  vnorm_is_zero := fun l =>
    PrimFloat.eqb
      (PrimFloat.sqrt
         (fold_left (fun acc x => PrimFloat.add acc (PrimFloat.mul x x)) l 0%float))
      0%float;
  vsum := fun l => pairwise_sum (length l) l;
  vfloat32 := to_float32
|}.

(** ** Integers of the label arrays

    The values of the labels are converted to [np.int32]; a value out
    of range wraps around. *)

Definition int32 (z : Z) : Z := (z + 2 ^ 31) mod 2 ^ 32 - 2 ^ 31.

Lemma int32_small (z : Z) : (- 2 ^ 31 <= z < 2 ^ 31)%Z -> int32 z = z.
Proof. intros H. unfold int32. rewrite Z.mod_small; lia. Qed.

Lemma int32_range (z : Z) : (- 2 ^ 31 <= int32 z < 2 ^ 31)%Z.
Proof.
  unfold int32. pose proof (Z.mod_pos_bound (z + 2 ^ 31) (2 ^ 32) ltac:(lia)). lia.
Qed.

Lemma int32_idem (z : Z) : int32 (int32 z) = int32 z.
Proof. apply int32_small. apply int32_range. Qed.

Definition list_eqb {A : Type} (eqb : A -> A -> bool) : list A -> list A -> bool :=
  fix go (l1 l2 : list A) : bool :=
    match l1, l2 with
    | [], [] => true
    | a :: l1', b :: l2' => eqb a b && go l1' l2'
    | _, _ => false
    end.

Definition row_eqb : list Z -> list Z -> bool := list_eqb Z.eqb.
Definition names_eqb : list string -> list string -> bool := list_eqb String.eqb.

Lemma list_eqb_eq (A : Type) (eqb : A -> A -> bool) :
  (forall x y, eqb x y = true <-> x = y) ->
  forall l1 l2, list_eqb eqb l1 l2 = true <-> l1 = l2.
Proof.
  intros Heq. induction l1 as [| a l1 IH]; intros [| b l2]; simpl;
    split; intros H; try reflexivity; try discriminate.
  - apply andb_true_iff in H. destruct H as [H1 H2].
    apply Heq in H1. apply IH in H2. congruence.
  - injection H as -> ->. apply andb_true_iff.
    split; [apply Heq | apply IH]; reflexivity.
Qed.

Lemma row_eqb_eq (r s : list Z) : row_eqb r s = true <-> r = s.
Proof. apply list_eqb_eq. apply Z.eqb_eq. Qed.

Lemma names_eqb_eq (a b : list string) : names_eqb a b = true <-> a = b.
Proof. apply list_eqb_eq. apply String.eqb_eq. Qed.

Lemma names_eqb_neq (a b : list string) : a <> b -> names_eqb a b = false.
Proof.
  intros H. destruct (names_eqb a b) eqn:E; [| reflexivity].
  apply names_eqb_eq in E. contradiction.
Qed.

(** Python list indexing [l[i]]: negative indices count from the end. *)
Definition py_getitem {A : Type} (l : list A) (i : Z) : result A :=
  let n := Z.of_nat (length l) in
  let j := if (i <? 0)%Z then (i + n)%Z else i in
  if ((0 <=? j) && (j <? n))%Z then
    match nth_error l (Z.to_nat j) with
    | Some a => Ok a
    | None => Raise IndexError
    end
  else Raise IndexError.

Lemma py_getitem_nat (A : Type) (l : list A) (i : nat) (a : A) :
  nth_error l i = Some a -> py_getitem l (Z.of_nat i) = Ok a.
Proof.
  intros H. unfold py_getitem.
  assert (Hi : i < length l) by (apply nth_error_Some; congruence).
  destruct (Z.ltb_spec (Z.of_nat i) 0); [lia |].
  destruct (Z.leb_spec 0 (Z.of_nat i)); [| lia].
  destruct (Z.ltb_spec (Z.of_nat i) (Z.of_nat (length l))); [| lia].
  simpl. rewrite Nat2Z.id, H. reflexivity.
Qed.

Lemma py_getitem_total (A : Type) (l : list A) (i : Z) :
  (0 <= i < Z.of_nat (length l))%Z ->
  exists a, py_getitem l i = Ok a /\ nth_error l (Z.to_nat i) = Some a.
Proof.
  intros Hi.
  destruct (nth_error l (Z.to_nat i)) as [a |] eqn:H.
  - exists a. split; [| reflexivity].
    rewrite <- (Z2Nat.id i) by lia. apply py_getitem_nat. assumption.
  - apply nth_error_None in H. lia.
Qed.

Lemma py_getitem_nonneg (A : Type) (l : list A) (i : Z) (a : A) :
  (0 <= i)%Z -> py_getitem l i = Ok a -> nth_error l (Z.to_nat i) = Some a.
Proof.
  intros Hi. unfold py_getitem.
  destruct (Z.ltb_spec i 0); [lia |].
  destruct ((0 <=? i) && _)%Z; [| discriminate].
  destruct (nth_error l (Z.to_nat i)); [| discriminate].
  intros E. inv_Ok E. reflexivity.
Qed.

(** [range(n)] *)
Definition range (n : Z) : list Z := map Z.of_nat (seq 0 (Z.to_nat n)).

(** [range(a, b)] *)
Definition range2 (a b : Z) : list Z := map (fun k => (a + Z.of_nat k)%Z) (seq 0 (Z.to_nat (b - a))).

(** ** Arrays *)

Record ndarray (V : Type) : Type := mk_ndarray {
  shape : list nat;
  flat : list V
}.

Arguments mk_ndarray {V} shape flat.
Arguments shape {V} n.
Arguments flat {V} n.

Definition size (s : list nat) : nat := fold_right Nat.mul 1 s.

(** The dimension a [-1] stands for in [reshape], given the product of
    the other dimensions and the number of entries. *)
Definition infer_dim (known total : nat) : result nat :=
  if known =? 0 then Raise (ValueError "cannot reshape array")
  else if total mod known =? 0 then Ok (total / known)
  else Raise (ValueError "cannot reshape array").

Lemma infer_dim_Ok (known total d : nat) :
  infer_dim known total = Ok d -> known <> 0 /\ total = known * d.
Proof.
  unfold infer_dim.
  destruct (Nat.eqb_spec known 0) as [| Hk]; [discriminate |].
  destruct (Nat.eqb_spec (total mod known) 0) as [Hm |]; [| discriminate].
  intros H. inv_Ok H. split; [assumption |].
  apply Nat.Div0.div_exact. assumption.
Qed.

Fixpoint chunks {A : Type} (k n : nat) (l : list A) : list (list A) :=
  match n with
  | O => []
  | S n' => firstn k l :: chunks k n' (skipn k l)
  end.

Lemma length_chunks (A : Type) (k n : nat) (l : list A) : length (chunks k n l) = n.
Proof.
  revert l. induction n as [| n IH]; intros l; simpl; [reflexivity |].
  rewrite IH. reflexivity.
Qed.

Lemma length_concat_uniform (A : Type) (k : nat) (rows : list (list A)) :
  Forall (fun r => length r = k) rows -> length (concat rows) = length rows * k.
Proof.
  induction 1 as [| r rows Hr _ IH]; simpl; [reflexivity |].
  rewrite length_app, Hr, IH. reflexivity.
Qed.

(** Rows of equal length are recovered from their concatenation. *)
Lemma chunks_concat (A : Type) (k : nat) (rows : list (list A)) :
  Forall (fun r => length r = k) rows ->
  chunks k (length rows) (concat rows) = rows.
Proof.
  induction 1 as [| r rows Hr _ IH]; simpl; [reflexivity |].
  rewrite firstn_app, <- Hr, Nat.sub_diag, firstn_all, firstn_O, app_nil_r.
  rewrite skipn_app, skipn_all, Nat.sub_diag, skipn_O. simpl.
  rewrite Hr, IH. reflexivity.
Qed.

Section Arrays.

Context {V : Type} {SV : Scalar V}.

(** Entry [(i, j, k)] of a rank 3 array with inner dimensions [d1], [d2]. *)
Definition at3 (d1 d2 : nat) (fl : list V) (i j k : nat) : V :=
  nth ((i * d1 + j) * d2 + k) fl vzero.

(** Entry [(i, x, j, k)] of a rank 4 array. *)
Definition at4 (d1 d2 d3 : nat) (fl : list V) (i x j k : nat) : V :=
  nth (((i * d1 + x) * d2 + j) * d3 + k) fl vzero.

(** The sum of [f 0 .. f (n-1)]. *)
Definition sum_over (n : nat) (f : nat -> V) : V :=
  fold_left (fun acc m => vadd acc (f m)) (seq 0 n) vzero.

(** [a.swapaxes(1, 2)] on a rank 3 array. *)
Definition swapaxes_1_2 (a : ndarray V) : result (ndarray V) :=
  match shape a with
  | [d0; d1; d2] =>
      Ok {| shape := [d0; d2; d1];
            flat :=
              flat_map (fun i =>
                flat_map (fun k =>
                  map (fun n => at3 d1 d2 (flat a) i n k) (seq 0 d1))
                  (seq 0 d2))
                (seq 0 d0) |}
  | _ => Raise (ValueError "bad axis")
  end.

(** [a.reshape(d_1, ..., d_k, -1)] *)
Definition reshape_last (dims : list Z) (a : ndarray V) : result (ndarray V) :=
  if forallb (fun d => (0 <=? d)%Z) dims then
    let dims := map Z.to_nat dims in
    d <- infer_dim (size dims) (length (flat a)) ;;
    Ok {| shape := dims ++ [d]; flat := flat a |}
  else Raise (ValueError "negative dimensions not allowed").

(** The part of [slice(start, stop)] that lies in an axis of length [d],
    for non-negative bounds: first index and number of indices. *)
Definition clip (d : nat) (s : Z * Z) : nat * nat :=
  let start := Nat.min (Z.to_nat (fst s)) d in
  let stop := Nat.min (Z.to_nat (snd s)) d in
  (start, stop - start).

(** [np.concatenate(arrays)] along the first axis. *)
Definition np_concatenate (arrays : list (ndarray V)) : result (ndarray V) :=
  match arrays with
  | [] => Raise (ValueError "need at least one array to concatenate")
  | a :: rest =>
      if forallb (fun b => list_eqb Nat.eqb (tl (shape b)) (tl (shape a))) rest then
        Ok {| shape := fold_right (fun b n => hd 0 (shape b) + n) 0 arrays :: tl (shape a);
              flat := concat (map flat arrays) |}
      else Raise (ValueError "all the input array dimensions must match")
  end.

(** [np.zeros(shape)] *)
Definition np_zeros (s : list nat) : ndarray V :=
  {| shape := s; flat := repeat vzero (size s) |}.

Lemma infer_dim_total (known total d : nat) :
  known <> 0 -> total = known * d -> infer_dim known total = Ok d.
Proof.
  intros Hk ->. unfold infer_dim.
  destruct (Nat.eqb_spec known 0); [contradiction |].
  rewrite (Nat.mul_comm known d), Nat.Div0.mod_mul. simpl.
  rewrite Nat.div_mul by assumption. reflexivity.
Qed.

Lemma reshape_last_total (dims : list Z) (a : ndarray V) (d : nat) :
  Forall (fun z => (0 <= z)%Z) dims ->
  size (map Z.to_nat dims) <> 0 ->
  length (flat a) = size (map Z.to_nat dims) * d ->
  reshape_last dims a = Ok {| shape := map Z.to_nat dims ++ [d]; flat := flat a |}.
Proof.
  intros Hpos Hsize Hlen. unfold reshape_last.
  replace (forallb (fun d0 => (0 <=? d0)%Z) dims) with true.
  - rewrite (infer_dim_total _ _ d Hsize Hlen). reflexivity.
  - symmetry. apply forallb_forall. intros z Hz.
    rewrite Forall_forall in Hpos. apply Z.leb_le. auto.
Qed.

Lemma swapaxes_1_2_total (a : ndarray V) (d0 d1 d2 : nat) :
  shape a = [d0; d1; d2] ->
  exists b, swapaxes_1_2 a = Ok b /\ shape b = [d0; d2; d1] /\
            length (flat b) = d0 * (d2 * d1).
Proof.
  intros Hs. unfold swapaxes_1_2. rewrite Hs. eexists. split; [reflexivity |].
  simpl. split; [reflexivity |].
  apply length_flat_map_seq. intros i.
  apply length_flat_map_seq. intros k. rewrite length_map, length_seq. reflexivity.
Qed.

Lemma reshape_last_Ok (dims : list Z) (a b : ndarray V) :
  reshape_last dims a = Ok b ->
  exists d,
    shape b = map Z.to_nat dims ++ [d] /\
    flat b = flat a /\
    size (map Z.to_nat dims) <> 0 /\
    length (flat a) = size (map Z.to_nat dims) * d.
Proof.
  unfold reshape_last. destruct (forallb _ dims); [| discriminate].
  intros H. bind_inv H as d Hd. inv_Ok H. apply infer_dim_Ok in Hd.
  exists d. cbn [shape flat]. tauto.
Qed.

End Arrays.

(** ** Labels, blocks and block collections *)

Record Labels : Type := mk_Labels {
  lb_names : list string;
  lb_values : list (list Z)
}.

Definition lb_len (l : Labels) : nat := length (lb_values l).

(** [labels[name]]: the column of a named axis. *)
Definition lb_column (l : Labels) (name : string) : result (list Z) :=
  let fix find (i : nat) (ns : list string) : option nat :=
    match ns with
    | [] => None
    | n :: ns' => if String.eqb n name then Some i else find (S i) ns'
    end in
  match find 0 (lb_names l) with
  | Some i => Ok (map (fun r => nth i r 0%Z) (lb_values l))
  | None => Raise (ValueError "no field of that name")
  end.

Record Gradient (V : Type) : Type := mk_Gradient {
  gr_data : ndarray V;
  gr_samples : Labels;
  gr_components : list Labels
}.

Arguments mk_Gradient {V} gr_data gr_samples gr_components.
Arguments gr_data {V} g.
Arguments gr_samples {V} g.
Arguments gr_components {V} g.

(** * The power spectrum ([utils/models/soap.py]) *)

Module Soap.

Record TensorBlock (V : Type) : Type := mk_TensorBlock {
  tb_values : ndarray V;
  tb_samples : Labels;
  tb_components : list Labels;
  tb_properties : Labels;
  tb_gradients : list (string * Gradient V)
}.

Arguments mk_TensorBlock {V} tb_values tb_samples tb_components tb_properties tb_gradients.
Arguments tb_values {V} t.
Arguments tb_samples {V} t.
Arguments tb_components {V} t.
Arguments tb_properties {V} t.
Arguments tb_gradients {V} t.

(** A collection of spherical expansion blocks: the names of the key
    axes and, in order, each key row with its block. *)
Record Expansion (V : Type) : Type := mk_Expansion {
  ex_key_names : list string;
  ex_entries : list ((Z * Z * Z) * TensorBlock V)
}.

Arguments mk_Expansion {V} ex_key_names ex_entries.
Arguments ex_key_names {V} e.
Arguments ex_entries {V} e.

Definition key4 : Type := (Z * Z * Z * Z)%type.

Definition expansion_key_names : list string :=
  ["spherical_harmonics_l"; "species_center"; "species_neighbor"]%string.

Section PowerSpectrum.

Context {V : Type} {SV : Scalar V}.

(** The array library ([equistore], [numpy]) is outside the program:
    the comparison of two sample sets, their intersection and the
    restriction of a block to a set of samples are its operations. *)
Variable np_all_eq : Labels -> Labels -> bool.
Variable np_intersect1d : Labels -> Labels -> list (list Z).
Variable slice_block : TensorBlock V -> Labels -> result (TensorBlock V).

Definition has_gradient (b : TensorBlock V) (parameter : string) : bool :=
  existsb (fun g => String.eqb (fst g) parameter) (tb_gradients b).

Definition gradient (b : TensorBlock V) (parameter : string) : result (Gradient V) :=
  match find (fun g => String.eqb (fst g) parameter) (tb_gradients b) with
  | Some g => Ok (snd g)
  | None => Raise LibraryError
  end.

Definition add_gradient (b : TensorBlock V) (parameter : string)
    (data : ndarray V) (samples : Labels) (components : list Labels) : TensorBlock V :=
  {| tb_values := tb_values b;
     tb_samples := tb_samples b;
     tb_components := tb_components b;
     tb_properties := tb_properties b;
     tb_gradients := tb_gradients b ++ [(parameter, mk_Gradient data samples components)] |}.

(** Modelled from the spec: [ops.einsum] of [utils/models/operations.py],
    which is not among the sources, on the subscripts
    ["ima, imb -> iab"]: the two blocks are contracted over the shared
    angular-momentum-component axis [m], sample by sample. *)
Definition einsum_ima_imb_iab (x y : ndarray V) : result (ndarray V) :=
  match shape x, shape y with
  | [i1; m1; a], [i2; m2; b] =>
      if (i1 =? i2) && (m1 =? m2) then
        Ok {| shape := [i1; a; b];
              flat :=
                flat_map (fun i =>
                  flat_map (fun p =>
                    map (fun q =>
                      sum_over m1 (fun m =>
                        vmul (at3 m1 a (flat x) i m p) (at3 m1 b (flat y) i m q)))
                      (seq 0 b))
                    (seq 0 a))
                  (seq 0 i1) |}
      else Raise (ValueError "einsum: operands do not match")
  | _, _ => Raise (ValueError "einsum: operands do not match")
  end.

(** Modelled from the spec: [ops.einsum] on ["ixma, imb -> ixab"], the
    first gradient term: gradient row [g] of block 1 against the values
    of block 2, for each spatial direction [x]. *)
Definition einsum_ixma_imb_ixab (g y : ndarray V) : result (ndarray V) :=
  match shape g, shape y with
  | [i1; x; m1; a], [i2; m2; b] =>
      if (i1 =? i2) && (m1 =? m2) then
        Ok {| shape := [i1; x; a; b];
              flat :=
                flat_map (fun i =>
                  flat_map (fun d =>
                    flat_map (fun p =>
                      map (fun q =>
                        sum_over m1 (fun m =>
                          vmul (at4 x m1 a (flat g) i d m p) (at3 m1 b (flat y) i m q)))
                        (seq 0 b))
                      (seq 0 a))
                    (seq 0 x))
                  (seq 0 i1) |}
      else Raise (ValueError "einsum: operands do not match")
  | _, _ => Raise (ValueError "einsum: operands do not match")
  end.

(** Modelled from the spec: [ops.einsum] on ["ima, ixmb -> ixab"], the
    symmetric gradient term. *)
Definition einsum_ima_ixmb_ixab (y g : ndarray V) : result (ndarray V) :=
  match shape y, shape g with
  | [i1; m1; a], [i2; x; m2; b] =>
      if (i1 =? i2) && (m1 =? m2) then
        Ok {| shape := [i1; x; a; b];
              flat :=
                flat_map (fun i =>
                  flat_map (fun d =>
                    flat_map (fun p =>
                      map (fun q =>
                        sum_over m1 (fun m =>
                          vmul (at3 m1 a (flat y) i m p) (at4 x m1 b (flat g) i d m q)))
                        (seq 0 b))
                      (seq 0 a))
                    (seq 0 x))
                  (seq 0 i1) |}
      else Raise (ValueError "einsum: operands do not match")
  | _, _ => Raise (ValueError "einsum: operands do not match")
  end.

(** Modelled from the spec: [ops.zeros_like] of
    [utils/models/operations.py]: an array of zeros of the given shape,
    of the kind of the reference array. *)
Definition zeros_like (ref : ndarray V) (s : list nat) : ndarray V :=
  {| shape := s; flat := repeat vzero (size s) |}.

(** [factor * a] *)
Definition scale (factor : V) (a : ndarray V) : ndarray V :=
  {| shape := shape a; flat := map (vmul factor) (flat a) |}.

(** [a.reshape(d0, -1)] *)
Definition reshape_rows (d0 : nat) (a : ndarray V) : result (ndarray V) :=
  d1 <- infer_dim d0 (length (flat a)) ;;
  Ok {| shape := [d0; d1]; flat := flat a |}.

(** [a.reshape(d0, 3, -1)] *)
Definition reshape_rows3 (d0 : nat) (a : ndarray V) : result (ndarray V) :=
  d2 <- infer_dim (d0 * 3) (length (flat a)) ;;
  Ok {| shape := [d0; 3; d2]; flat := flat a |}.

(** [a[index, :, :]] for an integer array [index]. *)
Definition take_rows (a : ndarray V) (index : list Z) : result (ndarray V) :=
  match shape a with
  | [] => Raise IndexError
  | d0 :: inner =>
      let w := size inner in
      rows <- mapM (fun i => py_getitem (chunks w d0 (flat a)) i) index ;;
      Ok {| shape := length index :: inner; flat := concat rows |}
  end.

(** Lexicographic order on label rows, as [np.unique] orders the rows
    of a structured array. *)
Fixpoint row_leb (r s : list Z) : bool :=
  match r, s with
  | [], _ => true
  | _ :: _, [] => false
  | a :: r', b :: s' => (a <? b)%Z || ((a =? b)%Z && row_leb r' s')
  end.

Fixpoint insert_row (r : list Z) (l : list (list Z)) : list (list Z) :=
  match l with
  | [] => [r]
  | s :: l' =>
      if row_eqb r s then l
      else if row_leb r s then r :: l
      else s :: insert_row r l'
  end.

(** [np.unique(rows)] *)
Definition np_unique (rows : list (list Z)) : list (list Z) :=
  fold_right insert_row [] rows.

(** The dictionary [{tuple(sample): i for i, sample in enumerate(rows)}]
    looked up at [key]: the last row equal to the key decides. *)
Fixpoint mapping_get (rows : list (list Z)) (i : nat) (key : list Z)
    (found : option nat) : result nat :=
  match rows with
  | [] => match found with Some j => Ok j | None => Raise KeyError end
  | r :: rows' =>
      mapping_get rows' (S i) key (if row_eqb r key then Some i else found)
  end.

(** [target[new_row, :, :] += row], where [target] has shape [[g; 3; p]]
    and [row] has shape [[3; p1]]; a row of width one is broadcast. *)
Definition add_into_row (p : nat) (target : list V) (new_row : nat)
    (p1 : nat) (row : list V) : result (list V) :=
  if (p1 =? p) || (p1 =? 1) then
    let start := new_row * (3 * p) in
    let src (k : nat) : V :=
      if p1 =? p then nth k row vzero else nth (k / p) row vzero in
    Ok (firstn start target
        ++ map (fun k => vadd (nth (start + k) target vzero) (src k)) (seq 0 (3 * p))
        ++ skipn (start + 3 * p) target)
  else Raise (ValueError "operands could not be broadcast together").

(** The loop [for sample, row in zip(samples, rows): ...] of the two
    accumulation passes. *)
Fixpoint accumulate (mapping : list (list Z)) (p p1 : nat)
    (pairs : list (list Z * list V)) (target : list V) : result (list V) :=
  match pairs with
  | [] => Ok target
  | (sample, row) :: pairs' =>
      new_row <- mapping_get mapping 0 sample None ;;
      target' <- add_into_row p target new_row p1 row ;;
      accumulate mapping p p1 pairs' target'
  end.

(** Lines 70-75: [None] when the pair is the symmetric duplicate of
    another one, the scale factor otherwise. *)
Definition sqrt_int (n : Z) : result V :=
  if (n <? 0)%Z then Raise (ValueError "math domain error") else Ok (vsqrt n).

Definition scale_factor (use_same_spherical_expansions : bool) (l1 ns1 ns2 : Z)
    : result (option V) :=
  if (ns1 >? ns2)%Z && use_same_spherical_expansions then Ok None
  else if (ns1 =? ns2)%Z then
    d <- sqrt_int (2 * l1 + 1) ;;
    Ok (Some (vdiv vone d))
  else
    d <- sqrt_int (2 * l1 + 1) ;;
    Ok (Some (vdiv (vsqrt 2) d)).

(** Lines 53-61: restriction of both blocks to their common samples. *)
Definition restrict (spx_1 spx_2 : TensorBlock V)
    : result (TensorBlock V * TensorBlock V) :=
  if negb (np_all_eq (tb_samples spx_1) (tb_samples spx_2)) then
    let common_samples :=
      {| lb_names := lb_names (tb_samples spx_1);
         lb_values := np_intersect1d (tb_samples spx_1) (tb_samples spx_2) |} in
    spx_1' <- slice_block spx_1 common_samples ;;
    spx_2' <- slice_block spx_2 common_samples ;;
    Ok (spx_1', spx_2')
  else Ok (spx_1, spx_2).

(** Lines 77-88: the properties of the output block. *)
Definition combined_properties (p1 p2 : Labels) : Labels :=
  {| lb_names :=
       map (fun name => (name ++ "_1")%string) (lb_names p1)
       ++ map (fun name => (name ++ "_2")%string) (lb_names p2);
     lb_values :=
       flat_map (fun properties_1 =>
                   map (fun properties_2 => properties_1 ++ properties_2)
                       (lb_values p2))
                (lb_values p1) |}.

(** Lines 77-98: the invariants of one pair of blocks. *)
Definition contract (factor : V) (spx_1 spx_2 : TensorBlock V)
    : result (TensorBlock V) :=
  let properties := combined_properties (tb_properties spx_1) (tb_properties spx_2) in
  e <- einsum_ima_imb_iab (tb_values spx_1) (tb_values spx_2) ;;
  let data := scale factor e in
  values <- reshape_rows (hd 0 (shape data)) data ;;
  Ok {| tb_values := values;
        tb_samples := tb_samples spx_1;
        tb_components := [];
        tb_properties := properties;
        tb_gradients := [] |}.

(** Lines 109-152: the gradient of the invariants with respect to the
    positions. *)
Definition propagate_gradient (factor : V) (spx_1 spx_2 : TensorBlock V)
    (gradient_1 gradient_2 : Gradient V) (block : TensorBlock V)
    : result (TensorBlock V) :=
  let n_properties := nth 1 (shape (tb_values block)) 0 in
  (* the two sample sets are structured arrays: [np.concatenate] joins
     them only when they have the same fields *)
  _ <- (if names_eqb (lb_names (gr_samples gradient_1)) (lb_names (gr_samples gradient_2))
        then Ok tt else Raise TypeError) ;;
  let unique :=
    np_unique (lb_values (gr_samples gradient_1) ++ lb_values (gr_samples gradient_2)) in
  let ints := concat unique in
  n_rows <- infer_dim 3 (length ints) ;;
  let gradients_samples :=
    {| lb_names := lb_names (gr_samples gradient_1);
       lb_values := chunks 3 n_rows ints |} in
  let mapping := lb_values gradients_samples in
  let gradient_data :=
    zeros_like (gr_data gradient_1) [lb_len gradients_samples; 3; n_properties] in
  (* first term *)
  index_1 <- lb_column (gr_samples gradient_1) "sample" ;;
  values_2 <- take_rows (tb_values spx_2) index_1 ;;
  e1 <- einsum_ixma_imb_ixab (gr_data gradient_1) values_2 ;;
  gradient_data_1 <- reshape_rows3 (lb_len (gr_samples gradient_1)) (scale factor e1) ;;
  let p1 := nth 2 (shape gradient_data_1) 0 in
  acc1 <- accumulate mapping n_properties p1
            (combine (lb_values (gr_samples gradient_1))
                     (chunks (3 * p1) (lb_len (gr_samples gradient_1)) (flat gradient_data_1)))
            (flat gradient_data) ;;
  (* second term *)
  index_2 <- lb_column (gr_samples gradient_2) "sample" ;;
  values_1 <- take_rows (tb_values spx_1) index_2 ;;
  e2 <- einsum_ima_ixmb_ixab values_1 (gr_data gradient_2) ;;
  gradient_data_2 <- reshape_rows3 (lb_len (gr_samples gradient_2)) (scale factor e2) ;;
  let p2 := nth 2 (shape gradient_data_2) 0 in
  acc2 <- accumulate mapping n_properties p2
            (combine (lb_values (gr_samples gradient_2))
                     (chunks (3 * p2) (lb_len (gr_samples gradient_2)) (flat gradient_data_2)))
            acc1 ;;
  direction <- py_getitem (gr_components gradient_1) 0 ;;
  _ <- assert (names_eqb (lb_names direction) ["direction"%string]) ;;
  Ok (add_gradient block "positions"
        {| shape := shape gradient_data; flat := acc2 |}
        gradients_samples [direction]).

(** What the body of the inner loop does with one pair of blocks. *)
Inductive outcome : Type :=
| NoMatch
| SymmetricDuplicate
| EmptyGradientSamples
| Emitted (key : key4) (block : TensorBlock V).

(** Lines 50-155: the body of the inner loop.  The block bound to
    [spx_1] is rebound by the restriction and stays so for the rest of
    the inner loop, hence it is returned together with the outcome. *)
Definition pair_step (use_same_spherical_expansions : bool)
    (k1 : Z * Z * Z) (spx_1 : TensorBlock V)
    (k2 : Z * Z * Z) (spx_2 : TensorBlock V)
    : result (TensorBlock V * outcome) :=
  let '(l1, cs1, ns1) := k1 in
  let '(l2, cs2, ns2) := k2 in
  if negb (l1 =? l2)%Z || negb (cs1 =? cs2)%Z then Ok (spx_1, NoMatch)
  else
    '(spx_1, spx_2) <- restrict spx_1 spx_2 ;;
    f <- scale_factor use_same_spherical_expansions l1 ns1 ns2 ;;
    match f with
    | None => Ok (spx_1, SymmetricDuplicate)
    | Some factor =>
        block <- contract factor spx_1 spx_2 ;;
        if has_gradient spx_1 "positions" then
          gradient_1 <- gradient spx_1 "positions" ;;
          gradient_2 <- gradient spx_2 "positions" ;;
          if (lb_len (gr_samples gradient_1) =? 0) || (lb_len (gr_samples gradient_2) =? 0)
          then Ok (spx_1, EmptyGradientSamples)
          else
            block' <- propagate_gradient factor spx_1 spx_2 gradient_1 gradient_2 block ;;
            Ok (spx_1, Emitted (l1, cs1, ns1, ns2) block')
        else Ok (spx_1, Emitted (l1, cs1, ns1, ns2) block)
    end.

Definition emitted (o : outcome) : list (key4 * TensorBlock V) :=
  match o with
  | Emitted key block => [(key, block)]
  | _ => []
  end.

(** Lines 49-155: the inner loop over the second collection. *)
Fixpoint inner_loop (use_same : bool) (k1 : Z * Z * Z) (spx_1 : TensorBlock V)
    (entries_2 : list ((Z * Z * Z) * TensorBlock V))
    : result (list (key4 * TensorBlock V)) :=
  match entries_2 with
  | [] => Ok []
  | (k2, spx_2) :: rest =>
      '(spx_1', o) <- pair_step use_same k1 spx_1 k2 spx_2 ;;
      out <- inner_loop use_same k1 spx_1' rest ;;
      Ok (emitted o ++ out)
  end.

(** Lines 48-155: the outer loop over the first collection. *)
Fixpoint outer_loop (use_same : bool)
    (entries_1 entries_2 : list ((Z * Z * Z) * TensorBlock V))
    : result (list (key4 * TensorBlock V)) :=
  match entries_1 with
  | [] => Ok []
  | (k1, spx_1) :: rest =>
      out_1 <- inner_loop use_same k1 spx_1 entries_2 ;;
      out <- outer_loop use_same rest entries_2 ;;
      Ok (out_1 ++ out)
  end.

(** The block bound to [spx_1] once the body of the inner loop has run on
    the entry [(k2, spx_2)] of the second collection: line 60 rebinds the
    variable of the outer loop, lines 50-51 leave it alone. *)
Definition spx_1_after (k1 : Z * Z * Z) (spx_1 : TensorBlock V)
    (k2 : Z * Z * Z) (spx_2 : TensorBlock V) : result (TensorBlock V) :=
  let '(l1, cs1, _) := k1 in
  let '(l2, cs2, _) := k2 in
  if negb (l1 =? l2)%Z || negb (cs1 =? cs2)%Z then Ok spx_1
  else r <- restrict spx_1 spx_2 ;; Ok (fst r).

(** The block bound to [spx_1] when the inner loop reaches an entry of
    the second collection: the block of the first collection, rebound on
    each of the entries before that one. *)
Fixpoint spx_1_at (k1 : Z * Z * Z) (spx_1 : TensorBlock V)
    (earlier : list ((Z * Z * Z) * TensorBlock V)) : result (TensorBlock V) :=
  match earlier with
  | [] => Ok spx_1
  | (k2, spx_2) :: rest =>
      spx_1' <- spx_1_after k1 spx_1 k2 spx_2 ;;
      spx_1_at k1 spx_1' rest
  end.

(** Lines 21-155: the keys and blocks handed to [TensorMap]. *)
Definition power_spectrum_blocks (spherical_expansion_1 : Expansion V)
    (spherical_expansion_2 : option (Expansion V))
    : result (list (key4 * TensorBlock V)) :=
  _ <- assert (names_eqb (ex_key_names spherical_expansion_1) expansion_key_names) ;;
  match spherical_expansion_2 with
  | None =>
      outer_loop true (ex_entries spherical_expansion_1)
                 (ex_entries spherical_expansion_1)
  | Some spherical_expansion_2 =>
      _ <- assert (names_eqb (ex_key_names spherical_expansion_2) expansion_key_names) ;;
      outer_loop false (ex_entries spherical_expansion_1)
                 (ex_entries spherical_expansion_2)
  end.

(** The collection type of the result and the folding of the
    [spherical_harmonics_l] key axis into the properties belong to
    [equistore]. *)
Variable TensorMap : Type.
Variable make_TensorMap : Labels -> list (TensorBlock V) -> result TensorMap.
Variable keys_to_properties : TensorMap -> string -> result TensorMap.

Definition power_spectrum_key_names : list string :=
  ["spherical_harmonics_l"; "species_center";
   "species_neighbor_1"; "species_neighbor_2"]%string.

Definition compute_power_spectrum (spherical_expansion_1 : Expansion V)
    (spherical_expansion_2 : option (Expansion V)) : result TensorMap :=
  out <- power_spectrum_blocks spherical_expansion_1 spherical_expansion_2 ;;
  let keys :=
    {| lb_names := power_spectrum_key_names;
       lb_values :=
         map (fun kb => let '(l, cs, ns1, ns2) := fst kb in
                        [int32 l; int32 cs; int32 ns1; int32 ns2]) out |} in
  descriptor <- make_TensorMap keys (map snd out) ;;
  keys_to_properties descriptor "spherical_harmonics_l".

(** ** What a successful run went through *)

Lemma einsum_ima_imb_iab_Ok (x y e : ndarray V) :
  einsum_ima_imb_iab x y = Ok e ->
  exists I M A B,
    shape x = [I; M; A] /\ shape y = [I; M; B] /\ shape e = [I; A; B] /\
    length (flat e) = I * (A * B) /\
    forall i p q, i < I -> p < A -> q < B ->
      nth (i * (A * B) + (p * B + q)) (flat e) vzero =
      sum_over M (fun m => vmul (at3 M A (flat x) i m p) (at3 M B (flat y) i m q)).
Proof.
  unfold einsum_ima_imb_iab.
  destruct (shape x) as [| i1 [| m1 [| a [|]]]]; try discriminate.
  destruct (shape y) as [| i2 [| m2 [| b [|]]]]; try discriminate.
  destruct (Nat.eqb_spec i1 i2) as [<- |]; [| discriminate].
  destruct (Nat.eqb_spec m1 m2) as [<- |]; [| discriminate].
  simpl. intros H. inv_Ok H. exists i1, m1, a, b. simpl.
  assert (Hin : forall i p, length (map (fun q =>
            sum_over m1 (fun m => vmul (at3 m1 a (flat x) i m p) (at3 m1 b (flat y) i m q)))
            (seq 0 b)) = b)
    by (intros; rewrite length_map, length_seq; reflexivity).
  assert (Hmid : forall i, length (flat_map (fun p => map (fun q =>
            sum_over m1 (fun m => vmul (at3 m1 a (flat x) i m p) (at3 m1 b (flat y) i m q)))
            (seq 0 b)) (seq 0 a)) = a * b)
    by (intros; apply length_flat_map_seq; intros; apply Hin).
  repeat split.
  - apply length_flat_map_seq. exact Hmid.
  - intros i p q Hi Hp Hq.
    rewrite nth_flat_map_seq by (auto; nia).
    rewrite nth_flat_map_seq by (auto; intros; apply Hin).
    simpl. apply nth_map_seq. assumption.
Qed.

Lemma nth_cross_rows (r1 r2 : list (list Z)) (p q : nat) :
  p < length r1 -> q < length r2 ->
  nth (p * length r2 + q)
      (flat_map (fun a => map (fun b => a ++ b) r2) r1) [] =
  nth p r1 [] ++ nth q r2 [].
Proof.
  revert p. induction r1 as [| a r1 IH]; simpl; intros p Hp Hq; [lia |].
  destruct p as [| p].
  - simpl. rewrite app_nth1 by (rewrite length_map; lia).
    rewrite (nth_indep _ [] (a ++ [])) by (rewrite length_map; lia).
    rewrite (map_nth (fun b => a ++ b)). reflexivity.
  - rewrite app_nth2 by (rewrite length_map; simpl; lia).
    rewrite length_map.
    replace (S p * length r2 + q - length r2) with (p * length r2 + q) by (simpl; lia).
    apply IH; lia.
Qed.

Lemma contract_Ok (factor : V) (spx_1 spx_2 block : TensorBlock V) :
  contract factor spx_1 spx_2 = Ok block ->
  tb_samples block = tb_samples spx_1 /\
  tb_components block = [] /\
  tb_gradients block = [] /\
  tb_properties block = combined_properties (tb_properties spx_1) (tb_properties spx_2) /\
  exists I M A B,
    shape (tb_values spx_1) = [I; M; A] /\
    shape (tb_values spx_2) = [I; M; B] /\
    shape (tb_values block) = [I; A * B] /\
    forall i p q, i < I -> p < A -> q < B ->
      nth (i * (A * B) + (p * B + q)) (flat (tb_values block)) vzero =
      vmul factor
        (sum_over M (fun m =>
           vmul (at3 M A (flat (tb_values spx_1)) i m p)
                (at3 M B (flat (tb_values spx_2)) i m q))).
Proof.
  unfold contract. intros H. inv_bind H. inv_bind H. inv_Ok H. simpl.
  repeat split.
  destruct (einsum_ima_imb_iab_Ok _ _ _ Ha) as (I & M & A & B & Hx & Hy & He & Hlen & Hnth).
  exists I, M, A, B. repeat split; try assumption.
  - unfold reshape_rows in Ha0. inv_bind Ha0. inv_Ok Ha0. simpl.
    simpl in Ha1. rewrite He in Ha1. simpl in Ha1.
    apply infer_dim_Ok in Ha1. destruct Ha1 as [HI Hsz].
    rewrite length_map, Hlen in Hsz.
    apply Nat.mul_cancel_l in Hsz; [| assumption]. rewrite He, Hsz. reflexivity.
  - intros i p q Hi Hp Hq.
    unfold reshape_rows in Ha0. inv_bind Ha0. inv_Ok Ha0. simpl.
    rewrite (nth_indep _ vzero (vmul factor vzero))
      by (rewrite length_map, Hlen; apply row_major_lt; assumption).
    rewrite map_nth. f_equal. apply Hnth; assumption.
Qed.

Lemma propagate_gradient_Ok (factor : V) (spx_1 spx_2 : TensorBlock V)
    (gradient_1 gradient_2 : Gradient V) (block block' : TensorBlock V) :
  propagate_gradient factor spx_1 spx_2 gradient_1 gradient_2 block = Ok block' ->
  exists data samples components,
    block' = add_gradient block "positions" data samples components.
Proof.
  unfold propagate_gradient. intros H.
  repeat (let a := fresh "a" in let Ha := fresh "Ha" in
          apply bind_Ok in H; destruct H as [a [Ha H]]).
  inv_Ok H. eauto.
Qed.

(** How a pair ends up in the output: it matches on [l] and on the
    center species, it is not a symmetric duplicate, the contraction of
    the restricted blocks succeeds, and a gradient, when block 1 has
    one, has samples on both sides. *)
Lemma pair_step_Emitted (use_same : bool) (l1 cs1 ns1 l2 cs2 ns2 : Z)
    (b1 b2 b1' block : TensorBlock V) (key : key4) :
  pair_step use_same (l1, cs1, ns1) b1 (l2, cs2, ns2) b2 = Ok (b1', Emitted key block) ->
  l1 = l2 /\ cs1 = cs2 /\ key = (l1, cs1, ns1, ns2) /\
  exists r2 factor block0,
    restrict b1 b2 = Ok (b1', r2) /\
    scale_factor use_same l1 ns1 ns2 = Ok (Some factor) /\
    contract factor b1' r2 = Ok block0 /\
    ((has_gradient b1' "positions" = false /\ block = block0) \/
     (has_gradient b1' "positions" = true /\
      exists g1 g2 data samples components,
        gradient b1' "positions" = Ok g1 /\
        gradient r2 "positions" = Ok g2 /\
        lb_len (gr_samples g1) <> 0 /\
        lb_len (gr_samples g2) <> 0 /\
        block = add_gradient block0 "positions" data samples components)).
Proof.
  unfold pair_step.
  destruct (Z.eqb_spec l1 l2) as [<- |]; simpl; [| discriminate].
  destruct (Z.eqb_spec cs1 cs2) as [<- |]; simpl; [| discriminate].
  intros H. bind_inv H as r Hr. destruct r as [r1 r2].
  bind_inv H as f Hf. destruct f as [factor |]; [| discriminate].
  bind_inv H as block0 Hc.
  destruct (has_gradient r1 "positions") eqn:Hg.
  - bind_inv H as g1 Hg1. bind_inv H as g2 Hg2.
    destruct (Nat.eqb_spec (lb_len (gr_samples g1)) 0) as [| Hn1]; simpl in H; [discriminate |].
    destruct (Nat.eqb_spec (lb_len (gr_samples g2)) 0) as [| Hn2]; simpl in H; [discriminate |].
    bind_inv H as block' Hp. inv_Ok H.
    destruct (propagate_gradient_Ok _ _ _ _ _ _ _ Hp) as (d & s & c & ->).
    repeat split. exists r2, factor, block0. repeat split; try assumption.
    right. split; [assumption |]. exists g1, g2, d, s, c. repeat split; assumption.
  - inv_Ok H. repeat split. exists r2, factor, block. repeat split; try assumption.
    left. split; [assumption | reflexivity].
Qed.

Lemma inner_loop_In (use_same : bool) (k1 : Z * Z * Z)
    (entries_2 : list ((Z * Z * Z) * TensorBlock V)) :
  forall (b1 : TensorBlock V) (out : list (key4 * TensorBlock V))
         (key : key4) (block : TensorBlock V),
  inner_loop use_same k1 b1 entries_2 = Ok out ->
  In (key, block) out ->
  exists b1a k2 b2 b1b,
    In (k2, b2) entries_2 /\
    pair_step use_same k1 b1a k2 b2 = Ok (b1b, Emitted key block).
Proof.
  induction entries_2 as [| [k2 b2] rest IH]; simpl; intros b1 out key block H Hin.
  - inv_Ok H. destruct Hin.
  - inv_bind H. destruct a as [b1' o]. inv_bind H. inv_Ok H.
    apply in_app_or in Hin. destruct Hin as [Hin | Hin].
    + destruct o; simpl in Hin; try contradiction.
      destruct Hin as [Hin | []]. inv_Ok Hin.
      exists b1, k2, b2, b1'. split; [left; reflexivity | assumption].
    + destruct (IH _ _ _ _ Ha0 Hin) as (b1a & k2' & b2' & b1b & Hk & Hs).
      exists b1a, k2', b2', b1b. split; [right; assumption | assumption].
Qed.

Lemma outer_loop_In (use_same : bool)
    (entries_1 entries_2 : list ((Z * Z * Z) * TensorBlock V)) :
  forall (out : list (key4 * TensorBlock V)) (key : key4) (block : TensorBlock V),
  outer_loop use_same entries_1 entries_2 = Ok out ->
  In (key, block) out ->
  exists k1 b1a k2 b2 b1b,
    In k1 (map fst entries_1) /\ In (k2, b2) entries_2 /\
    pair_step use_same k1 b1a k2 b2 = Ok (b1b, Emitted key block).
Proof.
  induction entries_1 as [| [k1 b1] rest IH]; simpl; intros out key block H Hin.
  - inv_Ok H. destruct Hin.
  - inv_bind H. inv_bind H. inv_Ok H.
    apply in_app_or in Hin. destruct Hin as [Hin | Hin].
    + destruct (inner_loop_In _ _ _ _ _ _ _ Ha Hin) as (b1a & k2 & b2 & b1b & Hk & Hs).
      exists k1, b1a, k2, b2, b1b. auto.
    + destruct (IH _ _ _ Ha0 Hin) as (k1' & b1a & k2 & b2 & b1b & Hk1 & Hk2 & Hs).
      exists k1', b1a, k2, b2, b1b. auto.
Qed.

Lemma inner_loop_step (use_same : bool) (k1 : Z * Z * Z)
    (entries_2 : list ((Z * Z * Z) * TensorBlock V)) :
  forall (b1 : TensorBlock V) (out : list (key4 * TensorBlock V))
         (k2 : Z * Z * Z) (b2 : TensorBlock V),
  inner_loop use_same k1 b1 entries_2 = Ok out ->
  In (k2, b2) entries_2 ->
  exists b1a b1b o,
    pair_step use_same k1 b1a k2 b2 = Ok (b1b, o) /\ incl (emitted o) out.
Proof.
  induction entries_2 as [| [k2' b2'] rest IH]; simpl; intros b1 out k2 b2 H Hin.
  - destruct Hin.
  - inv_bind H. destruct a as [b1' o]. inv_bind H. inv_Ok H.
    destruct Hin as [Hin | Hin].
    + inv_Ok Hin. exists b1, b1', o. split; [assumption | apply incl_appl, incl_refl].
    + destruct (IH _ _ _ _ Ha0 Hin) as (b1a & b1b & o' & Hs & Hi).
      exists b1a, b1b, o'. split; [assumption | apply incl_appr; assumption].
Qed.

Lemma outer_loop_step (use_same : bool)
    (entries_1 entries_2 : list ((Z * Z * Z) * TensorBlock V)) :
  forall (out : list (key4 * TensorBlock V))
         (k1 k2 : Z * Z * Z) (b2 : TensorBlock V),
  outer_loop use_same entries_1 entries_2 = Ok out ->
  In k1 (map fst entries_1) ->
  In (k2, b2) entries_2 ->
  exists b1a b1b o,
    pair_step use_same k1 b1a k2 b2 = Ok (b1b, o) /\ incl (emitted o) out.
Proof.
  induction entries_1 as [| [k1' b1'] rest IH]; simpl; intros out k1 k2 b2 H Hin1 Hin2.
  - destruct Hin1.
  - inv_bind H. inv_bind H. inv_Ok H. destruct Hin1 as [<- | Hin1].
    + destruct (inner_loop_step _ _ _ _ _ _ _ Ha Hin2) as (b1a & b1b & o & Hs & Hi).
      exists b1a, b1b, o. split; [assumption | apply incl_appl; assumption].
    + destruct (IH _ _ _ _ Ha0 Hin1 Hin2) as (b1a & b1b & o & Hs & Hi).
      exists b1a, b1b, o. split; [assumption | apply incl_appr; assumption].
Qed.

(** ** Which blocks a step of the loops works on *)

Lemma pair_step_rebinds (use_same : bool) (k1 k2 : Z * Z * Z)
    (b1 b2 b1' : TensorBlock V) (o : outcome) :
  pair_step use_same k1 b1 k2 b2 = Ok (b1', o) ->
  spx_1_after k1 b1 k2 b2 = Ok b1'.
Proof.
  destruct k1 as [[l1 cs1] ns1]. destruct k2 as [[l2 cs2] ns2].
  unfold pair_step, spx_1_after.
  destruct (negb (l1 =? l2)%Z || negb (cs1 =? cs2)%Z).
  - intros H. inv_Ok H. reflexivity.
  - intros H. bind_inv H as r Hr. rewrite Hr. destruct r as [r1 r2]. cbn [bind fst].
    bind_inv H as f Hf. destruct f as [factor |]; [| inv_Ok H; reflexivity].
    bind_inv H as block0 Hc.
    destruct (has_gradient r1 "positions"); [| inv_Ok H; reflexivity].
    bind_inv H as g1 Hg1. bind_inv H as g2 Hg2.
    destruct ((lb_len (gr_samples g1) =? 0) || (lb_len (gr_samples g2) =? 0));
      [inv_Ok H; reflexivity |].
    bind_inv H as block' Hp. inv_Ok H. reflexivity.
Qed.

(** An emitted block comes from one entry of the second collection, and
    from the block bound to [spx_1] when the loop reaches that entry. *)
Lemma inner_loop_at (use_same : bool) (k1 : Z * Z * Z)
    (entries_2 : list ((Z * Z * Z) * TensorBlock V)) :
  forall (first : TensorBlock V) (out : list (key4 * TensorBlock V))
         (key : key4) (block : TensorBlock V),
  inner_loop use_same k1 first entries_2 = Ok out ->
  In (key, block) out ->
  exists j k2 b2 b1 b1',
    nth_error entries_2 j = Some (k2, b2) /\
    spx_1_at k1 first (firstn j entries_2) = Ok b1 /\
    pair_step use_same k1 b1 k2 b2 = Ok (b1', Emitted key block).
Proof.
  induction entries_2 as [| [k2 b2] rest IH]; cbn [inner_loop];
    intros first out key block H Hin.
  - inv_Ok H. destruct Hin.
  - bind_inv H as r Hstep. destruct r as [b1' o]. bind_inv H as out' Hrest. inv_Ok H.
    apply in_app_or in Hin. destruct Hin as [Hin | Hin].
    + destruct o; cbn [emitted] in Hin; try contradiction.
      destruct Hin as [Hin | []]. inv_Ok Hin.
      exists 0, k2, b2, first, b1'. repeat split; assumption.
    + destruct (IH _ _ _ _ Hrest Hin) as (j & k2' & b2' & b1 & b1'' & Hj & Hat & Hs).
      exists (S j), k2', b2', b1, b1''. split; [exact Hj |]. split; [| exact Hs].
      cbn [firstn spx_1_at]. rewrite (pair_step_rebinds _ _ _ _ _ _ _ Hstep). exact Hat.
Qed.

Lemma outer_loop_at (use_same : bool)
    (entries_1 entries_2 : list ((Z * Z * Z) * TensorBlock V)) :
  forall (out : list (key4 * TensorBlock V)) (key : key4) (block : TensorBlock V),
  outer_loop use_same entries_1 entries_2 = Ok out ->
  In (key, block) out ->
  exists i j k1 first k2 b2 b1 b1',
    nth_error entries_1 i = Some (k1, first) /\
    nth_error entries_2 j = Some (k2, b2) /\
    spx_1_at k1 first (firstn j entries_2) = Ok b1 /\
    pair_step use_same k1 b1 k2 b2 = Ok (b1', Emitted key block).
Proof.
  induction entries_1 as [| [k1 first] rest IH]; cbn [outer_loop];
    intros out key block H Hin.
  - inv_Ok H. destruct Hin.
  - bind_inv H as out_1 Hinner. bind_inv H as out' Hrest. inv_Ok H.
    apply in_app_or in Hin. destruct Hin as [Hin | Hin].
    + destruct (inner_loop_at _ _ _ _ _ _ _ Hinner Hin)
        as (j & k2 & b2 & b1 & b1' & Hj & Hat & Hs).
      exists 0, j, k1, first, k2, b2, b1, b1'. repeat split; assumption.
    + destruct (IH _ _ _ Hrest Hin)
        as (i & j & k1' & first' & k2 & b2 & b1 & b1' & Hi & Hj & Hat & Hs).
      exists (S i), j, k1', first', k2, b2, b1, b1'. repeat split; assumption.
Qed.

(** Every entry of the second collection is reached, with the block
    bound to [spx_1] at that point. *)
Lemma inner_loop_step_at (use_same : bool) (k1 : Z * Z * Z)
    (entries_2 : list ((Z * Z * Z) * TensorBlock V)) :
  forall (first : TensorBlock V) (out : list (key4 * TensorBlock V))
         (j : nat) (k2 : Z * Z * Z) (b2 : TensorBlock V),
  inner_loop use_same k1 first entries_2 = Ok out ->
  nth_error entries_2 j = Some (k2, b2) ->
  exists b1 b1' o,
    spx_1_at k1 first (firstn j entries_2) = Ok b1 /\
    pair_step use_same k1 b1 k2 b2 = Ok (b1', o) /\
    incl (emitted o) out.
Proof.
  induction entries_2 as [| [k2' b2'] rest IH]; cbn [inner_loop];
    intros first out j k2 b2 H Hj.
  - destruct j; discriminate.
  - bind_inv H as r Hstep. destruct r as [b1' o]. bind_inv H as out' Hrest. inv_Ok H.
    destruct j as [| j]; cbn [nth_error] in Hj.
    + inv_Ok Hj. exists first, b1', o.
      split; [reflexivity |]. split; [assumption | apply incl_appl, incl_refl].
    + destruct (IH _ _ _ _ _ Hrest Hj) as (b1 & b1'' & o' & Hat & Hs & Hi).
      exists b1, b1'', o'. split; [| split; [exact Hs | apply incl_appr; exact Hi]].
      cbn [firstn spx_1_at]. rewrite (pair_step_rebinds _ _ _ _ _ _ _ Hstep). exact Hat.
Qed.

Lemma outer_loop_step_at (use_same : bool)
    (entries_1 entries_2 : list ((Z * Z * Z) * TensorBlock V)) :
  forall (out : list (key4 * TensorBlock V)) (i j : nat)
         (k1 k2 : Z * Z * Z) (first b2 : TensorBlock V),
  outer_loop use_same entries_1 entries_2 = Ok out ->
  nth_error entries_1 i = Some (k1, first) ->
  nth_error entries_2 j = Some (k2, b2) ->
  exists b1 b1' o,
    spx_1_at k1 first (firstn j entries_2) = Ok b1 /\
    pair_step use_same k1 b1 k2 b2 = Ok (b1', o) /\
    incl (emitted o) out.
Proof.
  induction entries_1 as [| [k1' first'] rest IH]; cbn [outer_loop];
    intros out i j k1 k2 first b2 H Hi Hj.
  - destruct i; discriminate.
  - bind_inv H as out_1 Hinner. bind_inv H as out' Hrest. inv_Ok H.
    destruct i as [| i]; cbn [nth_error] in Hi.
    + inv_Ok Hi.
      destruct (inner_loop_step_at _ _ _ _ _ _ _ _ Hinner Hj) as (b1 & b1' & o & Hat & Hs & Hin).
      exists b1, b1', o. split; [exact Hat |]. split; [exact Hs | apply incl_appl; exact Hin].
    + destruct (IH _ _ _ _ _ _ _ Hrest Hi Hj) as (b1 & b1' & o & Hat & Hs & Hin).
      exists b1, b1', o. split; [exact Hat |]. split; [exact Hs | apply incl_appr; exact Hin].
Qed.

(** A step that raises makes the whole call raise. *)
Lemma inner_loop_Raise_at (use_same : bool) (k1 : Z * Z * Z)
    (entries_2 : list ((Z * Z * Z) * TensorBlock V)) :
  forall (first : TensorBlock V) (j : nat) (k2 : Z * Z * Z)
         (b1 b2 : TensorBlock V) (e : exn),
  nth_error entries_2 j = Some (k2, b2) ->
  spx_1_at k1 first (firstn j entries_2) = Ok b1 ->
  pair_step use_same k1 b1 k2 b2 = Raise e ->
  exists e', inner_loop use_same k1 first entries_2 = Raise e'.
Proof.
  induction entries_2 as [| [k2' b2'] rest IH]; intros first j k2 b1 b2 e Hj Hat Hs.
  - destruct j; discriminate.
  - cbn [inner_loop]. destruct j as [| j]; cbn [nth_error firstn spx_1_at] in Hj, Hat.
    + inv_Ok Hj. inv_Ok Hat. rewrite Hs. exists e. reflexivity.
    + destruct (pair_step use_same k1 first k2' b2') as [[b1' o] | e0] eqn:Hstep;
        [| exists e0; reflexivity].
      rewrite (pair_step_rebinds _ _ _ _ _ _ _ Hstep) in Hat. cbn [bind] in Hat |- *.
      destruct (IH _ _ _ _ _ _ Hj Hat Hs) as (e' & ->). exists e'. reflexivity.
Qed.

Lemma outer_loop_Raise_at (use_same : bool)
    (entries_1 entries_2 : list ((Z * Z * Z) * TensorBlock V)) :
  forall (i j : nat) (k1 k2 : Z * Z * Z) (first b1 b2 : TensorBlock V) (e : exn),
  nth_error entries_1 i = Some (k1, first) ->
  nth_error entries_2 j = Some (k2, b2) ->
  spx_1_at k1 first (firstn j entries_2) = Ok b1 ->
  pair_step use_same k1 b1 k2 b2 = Raise e ->
  exists e', outer_loop use_same entries_1 entries_2 = Raise e'.
Proof.
  induction entries_1 as [| [k1' first'] rest IH];
    intros i j k1 k2 first b1 b2 e Hi Hj Hat Hs.
  - destruct i; discriminate.
  - cbn [outer_loop]. destruct i as [| i]; cbn [nth_error] in Hi.
    + inv_Ok Hi.
      destruct (inner_loop_Raise_at _ _ _ _ _ _ _ _ _ Hj Hat Hs) as (e' & ->).
      exists e'. reflexivity.
    + destruct (inner_loop use_same k1' first' entries_2) as [out_1 | e0];
        [| exists e0; reflexivity].
      destruct (IH _ _ _ _ _ _ _ _ Hi Hj Hat Hs) as (e' & ->). exists e'. reflexivity.
Qed.

(** When the samples of the earlier blocks are those of the block of the
    first collection, that block is still the one bound to [spx_1]. *)
Lemma spx_1_at_same_samples (k1 : Z * Z * Z)
    (earlier : list ((Z * Z * Z) * TensorBlock V)) :
  forall (first b1 : TensorBlock V),
  spx_1_at k1 first earlier = Ok b1 ->
  (forall k2 b2, In (k2, b2) earlier ->
     np_all_eq (tb_samples first) (tb_samples b2) = true) ->
  b1 = first.
Proof.
  induction earlier as [| [k2 b2] rest IH]; cbn [spx_1_at]; intros first b1 H Hsame.
  - inv_Ok H. reflexivity.
  - bind_inv H as b Hb.
    assert (b = first).
    { pose proof (Hsame k2 b2 (or_introl eq_refl)) as Hs0.
      destruct k1 as [[l1 cs1] ns1]. destruct k2 as [[l2 cs2] ns2].
      unfold spx_1_after, restrict in Hb.
      rewrite Hs0 in Hb. cbn [negb bind fst] in Hb.
      destruct (negb (l1 =? l2)%Z || negb (cs1 =? cs2)%Z); inv_Ok Hb; reflexivity. }
    subst b. apply IH; [exact H |].
    intros k b' Hin. apply (Hsame k b'). right. exact Hin.
Qed.

(** The two collections the loops run over, and the mode. *)
Definition second_entries (e1 : Expansion V) (e2 : option (Expansion V))
    : list ((Z * Z * Z) * TensorBlock V) :=
  match e2 with
  | None => ex_entries e1
  | Some e => ex_entries e
  end.

Definition self_combination (e2 : option (Expansion V)) : bool :=
  match e2 with
  | None => true
  | Some _ => false
  end.

Lemma power_spectrum_blocks_Ok (e1 : Expansion V) (e2 : option (Expansion V))
    (out : list (key4 * TensorBlock V)) :
  power_spectrum_blocks e1 e2 = Ok out ->
  outer_loop (self_combination e2) (ex_entries e1) (second_entries e1 e2) = Ok out.
Proof.
  unfold power_spectrum_blocks. intros H. inv_bind H.
  destruct e2 as [e |]; simpl; [inv_bind H |]; assumption.
Qed.

(** ** The contraction *)

(** C1.  Every block of the output comes from a pair of blocks with the
    same [l] and center species: the block at a position [j] of the
    second collection, and the block bound to [spx_1] when the inner
    loop reaches it, which is the block at a position [i] of the first
    collection, rebound by the restrictions on the entries before [j]
    (it is that block itself when those entries have its samples).  The
    two are restricted to their common samples, and the value of the
    output at [(sample, prop_1, prop_2)] is the scale factor times the
    sum over [m] of [block_1[sample, m, prop_1] * block_2[sample, m, prop_2]],
    stored in a two-dimensional array at column [prop_1 * B + prop_2];
    its properties are the cross product of the properties of the two
    blocks, in the same order, under the names suffixed [_1] and [_2]. *)
Theorem power_spectrum_values (e1 : Expansion V) (e2 : option (Expansion V))
    (out : list (key4 * TensorBlock V)) (key : key4) (block : TensorBlock V) :
  power_spectrum_blocks e1 e2 = Ok out ->
  In (key, block) out ->
  exists (l cs ns1 ns2 : Z) (i j : nat) (first b1 b2 spx_1 spx_2 : TensorBlock V)
         (factor : V) (I M A B : nat),
    key = (l, cs, ns1, ns2) /\
    nth_error (ex_entries e1) i = Some ((l, cs, ns1), first) /\
    nth_error (second_entries e1 e2) j = Some ((l, cs, ns2), b2) /\
    spx_1_at (l, cs, ns1) first (firstn j (second_entries e1 e2)) = Ok b1 /\
    ((forall k b, In (k, b) (firstn j (second_entries e1 e2)) ->
        np_all_eq (tb_samples first) (tb_samples b) = true) ->
     b1 = first) /\
    restrict b1 b2 = Ok (spx_1, spx_2) /\
    scale_factor (self_combination e2) l ns1 ns2 = Ok (Some factor) /\
    shape (tb_values spx_1) = [I; M; A] /\
    shape (tb_values spx_2) = [I; M; B] /\
    shape (tb_values block) = [I; A * B] /\
    (forall i p q, i < I -> p < A -> q < B ->
       nth (i * (A * B) + (p * B + q)) (flat (tb_values block)) vzero =
       vmul factor
         (sum_over M (fun m =>
            vmul (at3 M A (flat (tb_values spx_1)) i m p)
                 (at3 M B (flat (tb_values spx_2)) i m q)))) /\
    tb_samples block = tb_samples spx_1 /\
    tb_components block = [] /\
    lb_names (tb_properties block) =
      map (fun name => (name ++ "_1")%string) (lb_names (tb_properties spx_1))
      ++ map (fun name => (name ++ "_2")%string) (lb_names (tb_properties spx_2)) /\
    (forall p q,
       p < lb_len (tb_properties spx_1) -> q < lb_len (tb_properties spx_2) ->
       nth (p * lb_len (tb_properties spx_2) + q) (lb_values (tb_properties block)) [] =
       nth p (lb_values (tb_properties spx_1)) []
       ++ nth q (lb_values (tb_properties spx_2)) []).
Proof.
  intros Hrun Hin. apply power_spectrum_blocks_Ok in Hrun.
  destruct (outer_loop_at _ _ _ _ _ _ Hrun Hin)
    as (i & j & [[l1 cs1] ns1] & first & [[l2 cs2] ns2] & b2 & b1a & b1b
        & Hi & Hj & Hat & Hstep).
  apply pair_step_Emitted in Hstep.
  destruct Hstep as (<- & <- & -> & r2 & factor & block0 & Hr & Hf & Hc & Hgrad).
  destruct (contract_Ok _ _ _ _ Hc)
    as (Hs & Hcomp & _ & Hp & I & M & A & B & Hx & Hy & Hsh & Hval).
  assert (Hsame : tb_values block = tb_values block0 /\
                  tb_samples block = tb_samples block0 /\
                  tb_components block = tb_components block0 /\
                  tb_properties block = tb_properties block0).
  { destruct Hgrad as [[_ ->] | [_ (g1 & g2 & d & s & c & _ & _ & _ & _ & ->)]];
      simpl; auto. }
  destruct Hsame as (Hv & Hs' & Hc' & Hp').
  exists l1, cs1, ns1, ns2, i, j, first, b1a, b2, b1b, r2, factor, I, M, A, B.
  rewrite Hv, Hs', Hc', Hp', Hp.
  split; [reflexivity |]. split; [exact Hi |]. split; [exact Hj |].
  split; [exact Hat |].
  split; [intros Hall; exact (spx_1_at_same_samples _ _ _ _ Hat Hall) |].
  simpl. repeat split; try assumption.
  intros p q Hlp Hlq. apply nth_cross_rows; assumption.
Qed.

(** ** Symmetric pairs of neighbor species *)

Lemma scale_factor_Some (use_same : bool) (l ns1 ns2 : Z) (factor : V) :
  scale_factor use_same l ns1 ns2 = Ok (Some factor) ->
  ((ns1 <= ns2)%Z \/ use_same = false) /\
  factor = if (ns1 =? ns2)%Z then vdiv vone (vsqrt (2 * l + 1))
           else vdiv (vsqrt 2) (vsqrt (2 * l + 1)).
Proof.
  unfold scale_factor, sqrt_int.
  destruct ((ns1 >? ns2)%Z && use_same) eqn:Hd; [discriminate |].
  assert (Hmode : (ns1 <= ns2)%Z \/ use_same = false).
  { apply andb_false_iff in Hd. destruct Hd as [Hd | Hd]; [left | right; assumption].
    destruct (Z.gtb_spec ns1 ns2); [discriminate | assumption]. }
  destruct (ns1 =? ns2)%Z; destruct (2 * l + 1 <? 0)%Z; unfold bind;
    try discriminate; intros H; injection H as <-; auto.
Qed.

Lemma scale_factor_not_duplicate (l ns1 ns2 : Z) (o : option V) :
  (ns1 <= ns2)%Z ->
  scale_factor true l ns1 ns2 = Ok o -> exists factor, o = Some factor.
Proof.
  unfold scale_factor. intros Hle.
  destruct (Z.gtb_spec ns1 ns2) as [Hgt | _]; [lia |]. cbn [andb].
  destruct (ns1 =? ns2)%Z; intros H; inv_bind H; inv_Ok H; eauto.
Qed.

(** C2, as the code has it.  In self-combination mode no pair with
    [neighbor_species_1 > neighbor_species_2] is emitted, so the output
    never holds both [(l, cs, ns1, ns2)] and [(l, cs, ns2, ns1)] for
    [ns1 <> ns2]; the block emitted for a key is the contraction of the
    blocks of its pair, the entry [i] of the collection as it is bound
    when the loop reaches the entry [j], scaled by [1/sqrt(2l+1)] when
    [ns1 = ns2] and by [sqrt(2)/sqrt(2l+1)] otherwise; and of two
    symmetric keys the one with [ns1 < ns2] is in the output unless the
    blocks of that very pair met the guard on empty gradient samples. *)
Theorem self_combination_symmetric_pairs (e : Expansion V)
    (out : list (key4 * TensorBlock V)) :
  power_spectrum_blocks e None = Ok out ->
  (forall l cs ns1 ns2, In (l, cs, ns1, ns2) (map fst out) -> (ns1 <= ns2)%Z) /\
  (forall l cs ns1 ns2, ns1 <> ns2 ->
     In (l, cs, ns1, ns2) (map fst out) -> ~ In (l, cs, ns2, ns1) (map fst out)) /\
  (forall l cs ns1 ns2 block, In ((l, cs, ns1, ns2), block) out ->
     exists i j first b1 b2 spx_1 spx_2 block0,
       nth_error (ex_entries e) i = Some ((l, cs, ns1), first) /\
       nth_error (ex_entries e) j = Some ((l, cs, ns2), b2) /\
       spx_1_at (l, cs, ns1) first (firstn j (ex_entries e)) = Ok b1 /\
       restrict b1 b2 = Ok (spx_1, spx_2) /\
       contract (if (ns1 =? ns2)%Z then vdiv vone (vsqrt (2 * l + 1))
                 else vdiv (vsqrt 2) (vsqrt (2 * l + 1)))
                spx_1 spx_2 = Ok block0 /\
       tb_values block = tb_values block0) /\
  (forall l cs ns1 ns2 i j first b2,
     (ns1 < ns2)%Z ->
     nth_error (ex_entries e) i = Some ((l, cs, ns1), first) ->
     nth_error (ex_entries e) j = Some ((l, cs, ns2), b2) ->
     In (l, cs, ns1, ns2) (map fst out) \/
     exists b1 spx_1 spx_2 g1 g2,
       spx_1_at (l, cs, ns1) first (firstn j (ex_entries e)) = Ok b1 /\
       restrict b1 b2 = Ok (spx_1, spx_2) /\
       gradient spx_1 "positions" = Ok g1 /\
       gradient spx_2 "positions" = Ok g2 /\
       (lb_len (gr_samples g1) = 0 \/ lb_len (gr_samples g2) = 0)).
Proof.
  intros Hrun. apply power_spectrum_blocks_Ok in Hrun. simpl in Hrun.
  assert (Hle : forall l cs ns1 ns2,
             In (l, cs, ns1, ns2) (map fst out) -> (ns1 <= ns2)%Z).
  { intros l cs ns1 ns2 Hin. apply in_map_iff in Hin.
    destruct Hin as [[key block] [Hkey Hin]]. simpl in Hkey. subst key.
    destruct (outer_loop_In _ _ _ _ _ _ Hrun Hin)
      as ([[l1 cs1] n1] & b1a & [[l2 cs2] n2] & b2 & b1b & _ & _ & Hstep).
    apply pair_step_Emitted in Hstep.
    destruct Hstep as (_ & _ & Hkey & _ & factor & _ & _ & Hf & _).
    inv_Ok Hkey. apply scale_factor_Some in Hf.
    destruct Hf as [[? | ?] _]; [assumption | discriminate]. }
  split; [exact Hle |]. split; [| split].
  - intros l cs ns1 ns2 Hne H1 H2. apply Hle in H1. apply Hle in H2. lia.
  - intros l cs ns1 ns2 block Hin.
    destruct (outer_loop_at _ _ _ _ _ _ Hrun Hin)
      as (i & j & [[l1 cs1] n1] & first & [[l2 cs2] n2] & b2 & b1a & b1b
          & Hi & Hj & Hat & Hstep).
    apply pair_step_Emitted in Hstep.
    destruct Hstep as (<- & <- & Hkey & r2 & factor & block0 & Hr & Hf & Hc & Hgrad).
    inv_Ok Hkey. apply scale_factor_Some in Hf. destruct Hf as [_ ->].
    exists i, j, first, b1a, b2, b1b, r2, block0.
    split; [exact Hi |]. split; [exact Hj |]. split; [exact Hat |].
    split; [exact Hr |]. split; [exact Hc |].
    destruct Hgrad as [[_ ->] | [_ (g1 & g2 & d & s & c & _ & _ & _ & _ & ->)]];
      reflexivity.
  - intros l cs ns1 ns2 i j first b2 Hlt Hi Hj.
    destruct (outer_loop_step_at _ _ _ _ _ _ _ _ _ _ Hrun Hi Hj)
      as (b1a & b1b & o & Hat & Hstep & Hincl).
    unfold pair_step in Hstep. rewrite !Z.eqb_refl in Hstep. simpl in Hstep.
    bind_inv Hstep as r Hr. destruct r as [r1 r2].
    bind_inv Hstep as f Hf.
    destruct (scale_factor_not_duplicate l ns1 ns2 _ ltac:(lia) Hf) as [factor ->].
    bind_inv Hstep as block0 Hc.
    destruct (has_gradient r1 "positions") eqn:Hg.
    + bind_inv Hstep as g1 Hg1. bind_inv Hstep as g2 Hg2.
      destruct (Nat.eqb_spec (lb_len (gr_samples g1)) 0) as [Hn1 | Hn1].
      { right. exists b1a, r1, r2, g1, g2. auto 6. }
      destruct (Nat.eqb_spec (lb_len (gr_samples g2)) 0) as [Hn2 | Hn2].
      { right. exists b1a, r1, r2, g1, g2. auto 6. }
      simpl in Hstep. bind_inv Hstep as block' Hp. inv_Ok Hstep.
      left. apply in_map_iff. exists ((l, cs, ns1, ns2), block').
      split; [reflexivity | apply Hincl; left; reflexivity].
    + inv_Ok Hstep.
      left. apply in_map_iff. exists ((l, cs, ns1, ns2), block0).
      split; [reflexivity | apply Hincl; left; reflexivity].
Qed.

(** ** Gradients of the output blocks *)

Lemma has_gradient_true (b : TensorBlock V) (parameter : string) :
  has_gradient b parameter = true -> exists g, gradient b parameter = Ok g.
Proof.
  unfold has_gradient, gradient. intros H.
  destruct (find _ (tb_gradients b)) as [g |] eqn:Hfind; [eexists; reflexivity |].
  apply existsb_exists in H. destruct H as (g & Hin & Hg).
  rewrite (find_none _ _ Hfind g Hin) in Hg. discriminate.
Qed.

Lemma has_gradient_false (b : TensorBlock V) (parameter : string) :
  has_gradient b parameter = false -> gradient b parameter = Raise LibraryError.
Proof.
  unfold has_gradient, gradient. intros H.
  destruct (find _ (tb_gradients b)) as [g |] eqn:Hfind; [| reflexivity].
  apply find_some in Hfind. destruct Hfind as [Hin Hg].
  assert (Hex : existsb (fun g0 => String.eqb (fst g0) parameter) (tb_gradients b) = true)
    by (apply existsb_exists; exists g; auto).
  congruence.
Qed.

Lemma power_spectrum_blocks_Raise (e1 : Expansion V) (e2 : option (Expansion V))
    (e : exn) :
  outer_loop (self_combination e2) (ex_entries e1) (second_entries e1 e2) = Raise e ->
  exists e', power_spectrum_blocks e1 e2 = Raise e'.
Proof.
  intros H. unfold power_spectrum_blocks, assert.
  destruct (names_eqb (ex_key_names e1) expansion_key_names); [| eexists; reflexivity].
  cbn [bind]. destruct e2 as [e2 |]; cbn [self_combination second_entries] in H.
  - destruct (names_eqb (ex_key_names e2) expansion_key_names); [| eexists; reflexivity].
    cbn [bind]. rewrite H. eexists. reflexivity.
  - rewrite H. eexists. reflexivity.
Qed.

(** C5, as the code has it.  A block of the output carries a gradient
    only when both blocks of its pair, restricted to their common
    samples, carry a ["positions"] gradient with samples, and then it
    carries exactly that one gradient; it carries none when the first
    block of the pair has no gradient, whatever the second one has.  A
    pair that reaches the gradient step with both gradients present and
    one of the two sample sets empty is skipped: the step succeeds and
    emits neither a key nor a block.  A pair whose first block has a
    gradient and whose second block has none gives no block at all: the
    lookup of the gradient of the second block raises, and so does the
    call.  The blocks of a pair are the entry [j] of the second
    collection and the entry [i] of the first one as it is bound when
    the loop reaches [j]. *)
Theorem gradient_only_with_samples (e1 : Expansion V) (e2 : option (Expansion V)) :
  (forall out key block,
     power_spectrum_blocks e1 e2 = Ok out ->
     In (key, block) out ->
     exists l cs ns1 ns2 i j first b1 b2 spx_1 spx_2,
       key = (l, cs, ns1, ns2) /\
       nth_error (ex_entries e1) i = Some ((l, cs, ns1), first) /\
       nth_error (second_entries e1 e2) j = Some ((l, cs, ns2), b2) /\
       spx_1_at (l, cs, ns1) first (firstn j (second_entries e1 e2)) = Ok b1 /\
       restrict b1 b2 = Ok (spx_1, spx_2) /\
       ((exists g1 g2 g,
           gradient spx_1 "positions" = Ok g1 /\
           gradient spx_2 "positions" = Ok g2 /\
           lb_len (gr_samples g1) <> 0 /\
           lb_len (gr_samples g2) <> 0 /\
           tb_gradients block = [("positions"%string, g)]) \/
        (has_gradient spx_1 "positions" = false /\ tb_gradients block = []))) /\
  (forall use_same l cs ns1 ns2 b1 b2 spx_1 spx_2 factor block0 g1 g2,
     restrict b1 b2 = Ok (spx_1, spx_2) ->
     scale_factor use_same l ns1 ns2 = Ok (Some factor) ->
     contract factor spx_1 spx_2 = Ok block0 ->
     gradient spx_1 "positions" = Ok g1 ->
     gradient spx_2 "positions" = Ok g2 ->
     lb_len (gr_samples g1) = 0 \/ lb_len (gr_samples g2) = 0 ->
     pair_step use_same (l, cs, ns1) b1 (l, cs, ns2) b2 = Ok (spx_1, EmptyGradientSamples) /\
     emitted EmptyGradientSamples = []) /\
  (forall l cs ns1 ns2 i j first b1 b2 spx_1 spx_2 factor block0,
     nth_error (ex_entries e1) i = Some ((l, cs, ns1), first) ->
     nth_error (second_entries e1 e2) j = Some ((l, cs, ns2), b2) ->
     spx_1_at (l, cs, ns1) first (firstn j (second_entries e1 e2)) = Ok b1 ->
     restrict b1 b2 = Ok (spx_1, spx_2) ->
     scale_factor (self_combination e2) l ns1 ns2 = Ok (Some factor) ->
     contract factor spx_1 spx_2 = Ok block0 ->
     has_gradient spx_1 "positions" = true ->
     has_gradient spx_2 "positions" = false ->
     pair_step (self_combination e2) (l, cs, ns1) b1 (l, cs, ns2) b2
     = Raise LibraryError /\
     exists e, power_spectrum_blocks e1 e2 = Raise e).
Proof.
  split; [| split].
  - intros out key block Hrun Hin. apply power_spectrum_blocks_Ok in Hrun.
    destruct (outer_loop_at _ _ _ _ _ _ Hrun Hin)
      as (i & j & [[l1 cs1] n1] & first & [[l2 cs2] n2] & b2 & b1a & b1b
          & Hi & Hj & Hat & Hstep).
    apply pair_step_Emitted in Hstep.
    destruct Hstep as (<- & <- & -> & r2 & factor & block0 & Hr & _ & Hc & Hgrad).
    exists l1, cs1, n1, n2, i, j, first, b1a, b2, b1b, r2.
    split; [reflexivity |]. split; [exact Hi |]. split; [exact Hj |].
    split; [exact Hat |]. split; [exact Hr |].
    destruct (contract_Ok _ _ _ _ Hc) as (_ & _ & Hg0 & _).
    destruct Hgrad as [[Hno ->] | [_ (g1 & g2 & d & s & c & H1 & H2 & Hn1 & Hn2 & ->)]].
    + right. auto.
    + left. exists g1, g2, (mk_Gradient d s c). simpl. rewrite Hg0. auto.
  - intros use_same l cs ns1 ns2 b1 b2 spx_1 spx_2 factor block0 g1 g2
           Hr Hf Hc Hg1 Hg2 Hempty.
    split; [| reflexivity].
    unfold pair_step. rewrite !Z.eqb_refl. simpl.
    rewrite Hr. simpl. rewrite Hf. simpl. rewrite Hc. simpl.
    assert (Hhas : has_gradient spx_1 "positions" = true).
    { unfold gradient in Hg1. unfold has_gradient.
      destruct (find _ (tb_gradients spx_1)) as [g |] eqn:Hfind; [| discriminate].
      apply existsb_exists. exists g. apply find_some in Hfind. exact Hfind. }
    rewrite Hhas, Hg1. simpl. rewrite Hg2. simpl.
    destruct Hempty as [-> | ->]; simpl; [| rewrite orb_true_r]; reflexivity.
  - intros l cs ns1 ns2 i j first b1 b2 spx_1 spx_2 factor block0
           Hi Hj Hat Hr Hf Hc Hhas1 Hhas2.
    assert (Hstep : pair_step (self_combination e2) (l, cs, ns1) b1 (l, cs, ns2) b2
                    = Raise LibraryError).
    { unfold pair_step. rewrite !Z.eqb_refl. cbn [negb orb].
      rewrite Hr. cbn [bind]. rewrite Hf. cbn [bind]. rewrite Hc. cbn [bind].
      rewrite Hhas1.
      destruct (has_gradient_true _ _ Hhas1) as (g1 & ->). cbn [bind].
      rewrite (has_gradient_false _ _ Hhas2). reflexivity. }
    split; [exact Hstep |].
    destruct (outer_loop_Raise_at _ _ _ _ _ _ _ _ _ _ _ Hi Hj Hat Hstep) as (e' & He').
    exact (power_spectrum_blocks_Raise _ _ _ He').
Qed.

(** ** The names of the key axes *)

(** X1.  The names of the key axes are checked before any block is
    read: when the key axes of the first collection, or of the second
    one when it is given, are not named [spherical_harmonics_l],
    [species_center], [species_neighbor], the call raises
    [AssertionError], whatever the blocks are. *)
Theorem power_spectrum_key_names_checked (e1 : Expansion V)
    (e2 : option (Expansion V)) :
  ex_key_names e1 <> expansion_key_names \/
  (exists e, e2 = Some e /\ ex_key_names e <> expansion_key_names) ->
  compute_power_spectrum e1 e2 = Raise AssertionError.
Proof.
  intros H. unfold compute_power_spectrum, power_spectrum_blocks, assert.
  destruct (names_eqb (ex_key_names e1) expansion_key_names) eqn:H1; [| reflexivity].
  apply names_eqb_eq in H1.
  destruct H as [H | (e & -> & H)]; [contradiction |].
  rewrite (names_eqb_neq _ _ H). reflexivity.
Qed.

(** ** Two collections *)

Lemma scale_factor_two_collections (l ns1 ns2 : Z) (o : option V) :
  scale_factor false l ns1 ns2 = Ok o -> exists factor, o = Some factor.
Proof.
  unfold scale_factor. rewrite andb_false_r.
  destruct (ns1 =? ns2)%Z; intros H; inv_bind H; inv_Ok H; eauto.
Qed.

(** X2.  When a second collection is given, no pair is dropped for the
    order of its neighbor species: every pair of an entry [(l, cs, ns1)]
    of the first collection with an entry [(l, cs, ns2)] of the second
    one is in the output, also when [ns1 > ns2], unless the blocks of
    that very pair met the guard on empty gradient samples; so a
    collection combined with itself in this way gives both
    [(l, cs, ns1, ns2)] and [(l, cs, ns2, ns1)].  The block emitted for
    a key is the contraction of the blocks of its pair, scaled by
    [1/sqrt(2l+1)] when [ns1 = ns2] and by [sqrt(2)/sqrt(2l+1)]
    otherwise. *)
Theorem two_collections_keep_mirrored_pairs (e1 e2 : Expansion V)
    (out : list (key4 * TensorBlock V)) :
  power_spectrum_blocks e1 (Some e2) = Ok out ->
  (forall l cs ns1 ns2 block, In ((l, cs, ns1, ns2), block) out ->
     exists i j first b1 b2 spx_1 spx_2 block0,
       nth_error (ex_entries e1) i = Some ((l, cs, ns1), first) /\
       nth_error (ex_entries e2) j = Some ((l, cs, ns2), b2) /\
       spx_1_at (l, cs, ns1) first (firstn j (ex_entries e2)) = Ok b1 /\
       restrict b1 b2 = Ok (spx_1, spx_2) /\
       contract (if (ns1 =? ns2)%Z then vdiv vone (vsqrt (2 * l + 1))
                 else vdiv (vsqrt 2) (vsqrt (2 * l + 1)))
                spx_1 spx_2 = Ok block0 /\
       tb_values block = tb_values block0) /\
  (forall l cs ns1 ns2 i j first b2,
     nth_error (ex_entries e1) i = Some ((l, cs, ns1), first) ->
     nth_error (ex_entries e2) j = Some ((l, cs, ns2), b2) ->
     In (l, cs, ns1, ns2) (map fst out) \/
     exists b1 spx_1 spx_2 g1 g2,
       spx_1_at (l, cs, ns1) first (firstn j (ex_entries e2)) = Ok b1 /\
       restrict b1 b2 = Ok (spx_1, spx_2) /\
       gradient spx_1 "positions" = Ok g1 /\
       gradient spx_2 "positions" = Ok g2 /\
       (lb_len (gr_samples g1) = 0 \/ lb_len (gr_samples g2) = 0)).
Proof.
  intros Hrun. apply power_spectrum_blocks_Ok in Hrun. simpl in Hrun. split.
  - intros l cs ns1 ns2 block Hin.
    destruct (outer_loop_at _ _ _ _ _ _ Hrun Hin)
      as (i & j & [[l1 cs1] n1] & first & [[l2 cs2] n2] & b2 & b1a & b1b
          & Hi & Hj & Hat & Hstep).
    apply pair_step_Emitted in Hstep.
    destruct Hstep as (<- & <- & Hkey & r2 & factor & block0 & Hr & Hf & Hc & Hgrad).
    inv_Ok Hkey. apply scale_factor_Some in Hf. destruct Hf as [_ ->].
    exists i, j, first, b1a, b2, b1b, r2, block0.
    split; [exact Hi |]. split; [exact Hj |]. split; [exact Hat |].
    split; [exact Hr |]. split; [exact Hc |].
    destruct Hgrad as [[_ ->] | [_ (g1 & g2 & d & s & c & _ & _ & _ & _ & ->)]];
      reflexivity.
  - intros l cs ns1 ns2 i j first b2 Hi Hj.
    destruct (outer_loop_step_at _ _ _ _ _ _ _ _ _ _ Hrun Hi Hj)
      as (b1a & b1b & o & Hat & Hstep & Hincl).
    unfold pair_step in Hstep. rewrite !Z.eqb_refl in Hstep. simpl in Hstep.
    bind_inv Hstep as r Hr. destruct r as [r1 r2].
    bind_inv Hstep as f Hf.
    destruct (scale_factor_two_collections l ns1 ns2 _ Hf) as [factor ->].
    bind_inv Hstep as block0 Hc.
    destruct (has_gradient r1 "positions") eqn:Hg.
    + bind_inv Hstep as g1 Hg1. bind_inv Hstep as g2 Hg2.
      destruct (Nat.eqb_spec (lb_len (gr_samples g1)) 0) as [Hn1 | Hn1].
      { right. exists b1a, r1, r2, g1, g2. auto 6. }
      destruct (Nat.eqb_spec (lb_len (gr_samples g2)) 0) as [Hn2 | Hn2].
      { right. exists b1a, r1, r2, g1, g2. auto 6. }
      simpl in Hstep. bind_inv Hstep as block' Hp. inv_Ok Hstep.
      left. apply in_map_iff. exists ((l, cs, ns1, ns2), block').
      split; [reflexivity | apply Hincl; left; reflexivity].
    + inv_Ok Hstep.
      left. apply in_map_iff. exists ((l, cs, ns1, ns2), block0).
      split; [reflexivity | apply Hincl; left; reflexivity].
Qed.

(** ** Blocks without samples *)

Lemma contract_no_samples (factor : V) (spx_1 spx_2 : TensorBlock V) (M A B : nat) :
  shape (tb_values spx_1) = [0; M; A] ->
  shape (tb_values spx_2) = [0; M; B] ->
  contract factor spx_1 spx_2 = Raise (ValueError "cannot reshape array").
Proof.
  intros H1 H2. unfold contract, einsum_ima_imb_iab. rewrite H1, H2.
  rewrite !Nat.eqb_refl. reflexivity.
Qed.

(** X3.  The invariants of a pair of blocks without samples cannot be
    stored: a pair that matches on [l] and on the center species, is
    not skipped as a symmetric duplicate and whose blocks, restricted to
    their common samples, have no sample makes the call fail with a
    [ValueError], raised by [reshape(0, -1)].  Hence every block of a
    successful call has at least one row, and its values are a matrix
    with one row per sample. *)
Theorem power_spectrum_needs_samples :
  (forall use_same l cs ns1 ns2 b1 b2 spx_1 spx_2 factor M A B,
     restrict b1 b2 = Ok (spx_1, spx_2) ->
     scale_factor use_same l ns1 ns2 = Ok (Some factor) ->
     shape (tb_values spx_1) = [0; M; A] ->
     shape (tb_values spx_2) = [0; M; B] ->
     pair_step use_same (l, cs, ns1) b1 (l, cs, ns2) b2
     = Raise (ValueError "cannot reshape array")) /\
  (forall e1 e2 out key block,
     power_spectrum_blocks e1 e2 = Ok out ->
     In (key, block) out ->
     exists I P,
       I <> 0 /\
       shape (tb_values block) = [I; P] /\
       length (flat (tb_values block)) = I * P).
Proof.
  split.
  - intros use_same l cs ns1 ns2 b1 b2 spx_1 spx_2 factor M A B Hr Hf H1 H2.
    unfold pair_step. rewrite !Z.eqb_refl. simpl.
    rewrite Hr. simpl. rewrite Hf. simpl.
    rewrite (contract_no_samples factor _ _ M A B H1 H2). reflexivity.
  - intros e1 e2 out key block Hrun Hin. apply power_spectrum_blocks_Ok in Hrun.
    destruct (outer_loop_In _ _ _ _ _ _ Hrun Hin)
      as ([[l1 cs1] n1] & b1a & [[l2 cs2] n2] & b2 & b1b & _ & _ & Hstep).
    apply pair_step_Emitted in Hstep.
    destruct Hstep as (_ & _ & _ & r2 & factor & block0 & _ & _ & Hc & Hgrad).
    assert (Hv : tb_values block = tb_values block0).
    { destruct Hgrad as [[_ ->] | [_ (g1 & g2 & d & s & c & _ & _ & _ & _ & ->)]];
        reflexivity. }
    rewrite Hv. clear Hv Hgrad.
    unfold contract in Hc. bind_inv Hc as e He. bind_inv Hc as values Hvalues.
    inv_Ok Hc. cbn [tb_values].
    unfold reshape_rows in Hvalues. bind_inv Hvalues as d1 Hd1. inv_Ok Hvalues.
    apply infer_dim_Ok in Hd1. destruct Hd1 as [HI Hlen].
    exists (hd 0 (shape (scale factor e))), d1. cbn [shape flat].
    repeat split; assumption.
Qed.

(** ** The gradient of the output blocks *)

Lemma row_leb_total (r s : list Z) : row_leb r s = false -> row_leb s r = true.
Proof.
  revert s. induction r as [| a r IH]; intros [| b s]; simpl; try discriminate; auto.
  destruct (Z.ltb_spec a b), (Z.ltb_spec b a), (Z.eqb_spec a b), (Z.eqb_spec b a);
    simpl; try lia; auto; discriminate.
Qed.

Lemma row_leb_trans (r s t : list Z) :
  row_leb r s = true -> row_leb s t = true -> row_leb r t = true.
Proof.
  revert s t. induction r as [| a r IH]; intros [| b s] [| c t]; simpl;
    try discriminate; auto.
  destruct (Z.ltb_spec a b), (Z.ltb_spec b c), (Z.ltb_spec a c),
           (Z.eqb_spec a b), (Z.eqb_spec b c), (Z.eqb_spec a c);
    simpl; try lia; try discriminate; auto.
  apply IH.
Qed.

Lemma row_leb_antisym (r s : list Z) :
  row_leb r s = true -> row_leb s r = true -> r = s.
Proof.
  revert s. induction r as [| a r IH]; intros [| b s]; simpl; try discriminate; auto.
  destruct (Z.ltb_spec a b), (Z.ltb_spec b a), (Z.eqb_spec a b), (Z.eqb_spec b a);
    simpl; try lia; try discriminate.
  intros H1 H2. subst. f_equal. auto.
Qed.

(** The strict order of the rows of [np.unique]. *)
Definition row_lt (r s : list Z) : Prop := row_leb r s = true /\ r <> s.

Lemma insert_row_In (r z : list Z) (l : list (list Z)) :
  In z (insert_row r l) <-> z = r \/ In z l.
Proof.
  induction l as [| s l IH]; simpl.
  - intuition.
  - destruct (row_eqb r s) eqn:He.
    + apply row_eqb_eq in He. subst. simpl. intuition.
    + destruct (row_leb r s); simpl; [intuition |]. rewrite IH. intuition.
Qed.

Lemma insert_row_sorted (r : list Z) (l : list (list Z)) :
  Sorted.StronglySorted row_lt l -> Sorted.StronglySorted row_lt (insert_row r l).
Proof.
  induction 1 as [| s l Hs IH Hall]; simpl.
  - constructor; constructor.
  - destruct (row_eqb r s) eqn:He; [constructor; assumption |].
    assert (Hne : r <> s).
    { intros ->. assert (E : row_eqb s s = true) by (apply row_eqb_eq; reflexivity).
      congruence. }
    destruct (row_leb r s) eqn:Hle.
    + constructor; [constructor; assumption |].
      constructor; [split; assumption |].
      eapply Forall_impl; [| exact Hall]. intros z [Hsz Hnz]. split.
      * eapply row_leb_trans; eassumption.
      * intros ->. apply Hne. apply row_leb_antisym; assumption.
    + apply row_leb_total in Hle. constructor; [assumption |].
      apply Forall_forall. intros z Hz. apply insert_row_In in Hz.
      destruct Hz as [-> | Hz].
      * split; [assumption | congruence].
      * rewrite Forall_forall in Hall. auto.
Qed.

Lemma np_unique_In (rows : list (list Z)) (z : list Z) :
  In z (np_unique rows) <-> In z rows.
Proof.
  unfold np_unique. induction rows as [| r rows IH]; simpl.
  - reflexivity.
  - rewrite insert_row_In, IH. intuition.
Qed.

Lemma np_unique_sorted (rows : list (list Z)) :
  Sorted.StronglySorted row_lt (np_unique rows).
Proof.
  unfold np_unique. induction rows as [| r rows IH]; simpl.
  - constructor.
  - apply insert_row_sorted. assumption.
Qed.

Lemma np_unique_NoDup (rows : list (list Z)) : NoDup (np_unique rows).
Proof.
  generalize (np_unique_sorted rows).
  induction 1 as [| s l Hs IH Hall]; constructor; [| assumption].
  intros Hin. rewrite Forall_forall in Hall. destruct (Hall _ Hin) as [_ Hne].
  apply Hne. reflexivity.
Qed.

Lemma mapping_get_bound (rows : list (list Z)) :
  forall (i : nat) (key : list Z) (found : option nat) (j : nat),
  mapping_get rows i key found = Ok j ->
  found = Some j \/ (i <= j < i + length rows).
Proof.
  induction rows as [| r rows IH]; simpl; intros i key found j H.
  - destruct found; [inv_Ok H; auto | discriminate].
  - apply IH in H. destruct H as [H | H]; [| right; lia].
    destruct (row_eqb r key); [inv_Ok H; right; lia | auto].
Qed.

Lemma add_into_row_length (p new_row p1 : nat) (target row target' : list V) :
  add_into_row p target new_row p1 row = Ok target' ->
  (new_row + 1) * (3 * p) <= length target ->
  length target' = length target.
Proof.
  unfold add_into_row. destruct ((p1 =? p) || (p1 =? 1)); [| discriminate].
  intros H Hlen. inv_Ok H.
  rewrite !length_app, length_firstn, length_map, length_seq, length_skipn. lia.
Qed.

Lemma accumulate_length (mapping : list (list Z)) (p p1 : nat)
    (pairs : list (list Z * list V)) :
  forall (target target' : list V),
  accumulate mapping p p1 pairs target = Ok target' ->
  length target = length mapping * (3 * p) ->
  length target' = length target.
Proof.
  induction pairs as [| [sample row] pairs IH]; cbn [accumulate];
    intros target target' H Hlen.
  - inv_Ok H. reflexivity.
  - bind_inv H as new_row Hrow. bind_inv H as t1 Ht1.
    apply mapping_get_bound in Hrow. destruct Hrow as [Hrow | Hrow]; [discriminate |].
    apply add_into_row_length in Ht1; [| rewrite Hlen; nia].
    rewrite <- Ht1. apply IH; [assumption | congruence].
Qed.

(** What the gradient step attaches to the block of a pair. *)
Lemma propagate_gradient_samples (factor : V) (spx_1 spx_2 : TensorBlock V)
    (gradient_1 gradient_2 : Gradient V) (block block' : TensorBlock V) :
  propagate_gradient factor spx_1 spx_2 gradient_1 gradient_2 block = Ok block' ->
  exists (g : Gradient V) (direction : Labels),
    block' = add_gradient block "positions" (gr_data g) (gr_samples g) (gr_components g) /\
    lb_names (gr_samples gradient_1) = lb_names (gr_samples gradient_2) /\
    lb_names (gr_samples g) = lb_names (gr_samples gradient_1) /\
    (Forall (fun r => length r = 3)
            (lb_values (gr_samples gradient_1) ++ lb_values (gr_samples gradient_2)) ->
     lb_values (gr_samples g)
     = np_unique (lb_values (gr_samples gradient_1) ++ lb_values (gr_samples gradient_2))) /\
    shape (gr_data g)
    = [lb_len (gr_samples g); 3; nth 1 (shape (tb_values block)) 0] /\
    length (flat (gr_data g))
    = lb_len (gr_samples g) * (3 * nth 1 (shape (tb_values block)) 0) /\
    hd_error (gr_components gradient_1) = Some direction /\
    lb_names direction = ["direction"%string] /\
    gr_components g = [direction].
Proof.
  unfold propagate_gradient. intros H.
  bind_inv H as same Hsame.
  assert (Hfields : lb_names (gr_samples gradient_1) = lb_names (gr_samples gradient_2)).
  { destruct (names_eqb _ _) eqn:E; [| discriminate]. apply names_eqb_eq. exact E. }
  clear Hsame same.
  bind_inv H as n_rows Hn. bind_inv H as index_1 Hi1. bind_inv H as values_2 Hv2.
  bind_inv H as e1 He1. bind_inv H as gd1 Hgd1. bind_inv H as acc1 Hacc1.
  bind_inv H as index_2 Hi2. bind_inv H as values_1 Hv1.
  bind_inv H as e2 He2. bind_inv H as gd2 Hgd2. bind_inv H as acc2 Hacc2.
  bind_inv H as direction Hdir. bind_inv H as u Hassert. inv_Ok H.
  unfold zeros_like, lb_len in Hacc1, Hacc2. cbn [lb_values flat shape] in Hacc1, Hacc2.
  set (P := nth 1 (shape (tb_values block)) 0) in *.
  set (rows := lb_values (gr_samples gradient_1) ++ lb_values (gr_samples gradient_2)) in *.
  assert (Hzero : length (repeat (@vzero V SV) (size [length (chunks 3 n_rows (concat (np_unique rows))); 3; P]))
                  = length (chunks 3 n_rows (concat (np_unique rows))) * (3 * P)).
  { rewrite repeat_length. cbn [size fold_right]. lia. }
  pose proof (accumulate_length _ _ _ _ _ _ Hacc1 Hzero) as Hl1.
  pose proof (accumulate_length _ _ _ _ _ _ Hacc2 ltac:(congruence)) as Hl2.
  eexists {| gr_data := _; gr_samples := _; gr_components := _ |}, direction.
  cbn [gr_data gr_samples gr_components lb_names lb_values shape flat].
  split; [reflexivity |]. split; [exact Hfields |]. split; [reflexivity |].
  split; [| split; [| split; [| split; [| split]]]].
  - intros Hall.
    assert (Hall' : Forall (fun r : list Z => length r = 3) (np_unique rows)).
    { apply Forall_forall. intros r Hr. apply (proj1 (np_unique_In _ _)) in Hr.
      rewrite Forall_forall in Hall. auto. }
    apply infer_dim_Ok in Hn. destruct Hn as [_ Hn].
    rewrite (length_concat_uniform _ 3 _ Hall') in Hn.
    assert (n_rows = length (np_unique rows)) by lia. subst n_rows.
    apply chunks_concat. assumption.
  - unfold zeros_like, lb_len. cbn [shape lb_values]. reflexivity.
  - unfold lb_len. cbn [lb_values flat]. congruence.
  - unfold py_getitem in Hdir. destruct (gr_components gradient_1) as [| c cs]; simpl in *.
    + discriminate.
    + inv_Ok Hdir. reflexivity.
  - unfold assert in Hassert.
    destruct (names_eqb (lb_names direction) ["direction"%string]) eqn:E; [| discriminate].
    apply names_eqb_eq. assumption.
  - reflexivity.
Qed.

Lemma pair_step_gradient (use_same : bool) (k1 k2 : Z * Z * Z)
    (b1 b2 b1' block : TensorBlock V) (key : key4) (g : Gradient V) :
  pair_step use_same k1 b1 k2 b2 = Ok (b1', Emitted key block) ->
  In ("positions"%string, g) (tb_gradients block) ->
  exists r2 factor block0 g1 g2,
    restrict b1 b2 = Ok (b1', r2) /\
    contract factor b1' r2 = Ok block0 /\
    gradient b1' "positions" = Ok g1 /\
    gradient r2 "positions" = Ok g2 /\
    propagate_gradient factor b1' r2 g1 g2 block0 = Ok block.
Proof.
  destruct k1 as [[l1 cs1] ns1]. destruct k2 as [[l2 cs2] ns2]. unfold pair_step.
  destruct (negb (l1 =? l2)%Z || negb (cs1 =? cs2)%Z); [discriminate |].
  intros H Hin. bind_inv H as r Hr. destruct r as [r1 r2].
  bind_inv H as f Hf. destruct f as [factor |]; [| discriminate].
  bind_inv H as block0 Hc.
  destruct (has_gradient r1 "positions") eqn:Hg.
  - bind_inv H as g1 Hg1. bind_inv H as g2 Hg2.
    destruct ((lb_len (gr_samples g1) =? 0) || (lb_len (gr_samples g2) =? 0));
      [discriminate |].
    bind_inv H as block' Hp. inv_Ok H.
    exists r2, factor, block0, g1, g2. auto.
  - inv_Ok H. destruct (contract_Ok _ _ _ _ Hc) as (_ & _ & Hnone & _).
    rewrite Hnone in Hin. destruct Hin.
Qed.

(** X4.  The gradient of an output block, when it has one, is laid out
    on the union of the gradient samples of the two blocks of its pair,
    the entry [j] of the second collection and the entry [i] of the
    first one as it is bound when the loop reaches [j], restricted to
    their common samples.  The two sample sets have the same fields,
    which are those of the result; with three entries per gradient
    sample, the samples of the result are the rows of either block, each
    of them once; its array has the shape [(n_samples, 3, n_properties)],
    with as many entries, where [n_properties] is the number of columns
    of the values of the block; and its only component is the first
    component of the gradient of the first block, which is named
    [direction]. *)
Theorem power_spectrum_gradient_layout (e1 : Expansion V) (e2 : option (Expansion V))
    (out : list (key4 * TensorBlock V)) (key : key4) (block : TensorBlock V)
    (g : Gradient V) :
  power_spectrum_blocks e1 e2 = Ok out ->
  In (key, block) out ->
  In ("positions"%string, g) (tb_gradients block) ->
  exists (l cs ns1 ns2 : Z) (i j : nat) (first b1 b2 spx_1 spx_2 : TensorBlock V)
         (g1 g2 : Gradient V) (direction : Labels) (I P : nat),
    key = (l, cs, ns1, ns2) /\
    nth_error (ex_entries e1) i = Some ((l, cs, ns1), first) /\
    nth_error (second_entries e1 e2) j = Some ((l, cs, ns2), b2) /\
    spx_1_at (l, cs, ns1) first (firstn j (second_entries e1 e2)) = Ok b1 /\
    restrict b1 b2 = Ok (spx_1, spx_2) /\
    gradient spx_1 "positions" = Ok g1 /\
    gradient spx_2 "positions" = Ok g2 /\
    tb_gradients block = [("positions"%string, g)] /\
    lb_names (gr_samples g1) = lb_names (gr_samples g2) /\
    lb_names (gr_samples g) = lb_names (gr_samples g1) /\
    (Forall (fun r => length r = 3)
            (lb_values (gr_samples g1) ++ lb_values (gr_samples g2)) ->
     NoDup (lb_values (gr_samples g)) /\
     forall row, In row (lb_values (gr_samples g)) <->
                 In row (lb_values (gr_samples g1)) \/
                 In row (lb_values (gr_samples g2))) /\
    shape (tb_values block) = [I; P] /\
    shape (gr_data g) = [lb_len (gr_samples g); 3; P] /\
    length (flat (gr_data g)) = lb_len (gr_samples g) * (3 * P) /\
    hd_error (gr_components g1) = Some direction /\
    lb_names direction = ["direction"%string] /\
    gr_components g = [direction].
Proof.
  intros Hrun Hin Hg. apply power_spectrum_blocks_Ok in Hrun.
  destruct (outer_loop_at _ _ _ _ _ _ Hrun Hin)
    as (i & j & [[l1 cs1] n1] & first & [[l2 cs2] n2] & b2 & b1a & b1b
        & Hi & Hj & Hat & Hstep).
  destruct (pair_step_gradient _ _ _ _ _ _ _ _ _ Hstep Hg)
    as (r2 & factor & block0 & g1 & g2 & Hr & Hc & Hg1 & Hg2 & Hp).
  apply pair_step_Emitted in Hstep. destruct Hstep as (<- & <- & -> & _).
  destruct (contract_Ok _ _ _ _ Hc)
    as (_ & _ & Hnone & _ & I & M & A & B & _ & _ & Hshape & _).
  destruct (propagate_gradient_samples _ _ _ _ _ _ _ Hp)
    as (g' & direction & -> & Hfields & Hnames & Hrows & Hsh & Hlen & Hd & Hdn & Hcomp).
  cbn [add_gradient tb_gradients tb_values] in *. rewrite Hnone in Hg |- *.
  cbn [app] in Hg |- *. destruct Hg as [Hg | []].
  destruct g' as [data samples components].
  cbn [gr_data gr_samples gr_components] in *. injection Hg as <-.
  cbn [gr_data gr_samples gr_components].
  rewrite Hshape in Hsh, Hlen. cbn [nth] in Hsh, Hlen.
  exists l1, cs1, n1, n2, i, j, first, b1a, b2, b1b, r2, g1, g2, direction, I, (A * B).
  split; [reflexivity |]. split; [exact Hi |]. split; [exact Hj |].
  split; [exact Hat |].
  repeat split; try assumption.
  - rewrite (Hrows H). apply np_unique_NoDup.
  - rewrite (Hrows H), np_unique_In, in_app_iff. intros H0. exact H0.
  - rewrite (Hrows H), np_unique_In, in_app_iff. intros H0. exact H0.
Qed.

(** ** The keys of the output *)

Lemma inner_loop_keys (use_same : bool) (l1 cs1 ns1 : Z)
    (entries_2 : list ((Z * Z * Z) * TensorBlock V)) :
  forall (b1 : TensorBlock V) (out : list (key4 * TensorBlock V)),
  inner_loop use_same (l1, cs1, ns1) b1 entries_2 = Ok out ->
  NoDup (map fst entries_2) ->
  NoDup (map fst out) /\
  forall key, In key (map fst out) ->
    exists ns2, key = (l1, cs1, ns1, ns2) /\ In (l1, cs1, ns2) (map fst entries_2).
Proof.
  induction entries_2 as [| [[[l2 cs2] ns2] b2] rest IH]; cbn [inner_loop];
    intros b1 out H Hnodup.
  - inv_Ok H. split; [constructor | intros key []].
  - bind_inv H as r Hstep. destruct r as [b1' o]. bind_inv H as out' Hrest. inv_Ok H.
    cbn [map fst] in Hnodup. inversion Hnodup as [| k ks Hnotin Hnodup']; subst.
    destruct (IH _ _ Hrest Hnodup') as [Hnd Hform].
    destruct o as [| | | key block]; cbn [emitted app].
    1-3: (split; [exact Hnd |]; intros key Hkey;
          destruct (Hform key Hkey) as (n & Hk & Hin); exists n;
          split; [exact Hk | right; exact Hin]).
    apply pair_step_Emitted in Hstep. destruct Hstep as (<- & <- & -> & _).
    cbn [map fst]. split.
    + constructor; [| exact Hnd]. intros Hin.
      destruct (Hform _ Hin) as (n & Hk & Hin'). injection Hk as <-.
      contradiction.
    + intros key [<- | Hkey].
      * exists ns2. split; [reflexivity | left; reflexivity].
      * destruct (Hform key Hkey) as (n & Hk & Hin). exists n.
        split; [exact Hk | right; exact Hin].
Qed.

Lemma outer_loop_keys (use_same : bool)
    (entries_1 entries_2 : list ((Z * Z * Z) * TensorBlock V)) :
  forall (out : list (key4 * TensorBlock V)),
  outer_loop use_same entries_1 entries_2 = Ok out ->
  NoDup (map fst entries_1) ->
  NoDup (map fst entries_2) ->
  NoDup (map fst out) /\
  forall key, In key (map fst out) ->
    exists l cs ns1 ns2,
      key = (l, cs, ns1, ns2) /\
      In (l, cs, ns1) (map fst entries_1) /\
      In (l, cs, ns2) (map fst entries_2).
Proof.
  induction entries_1 as [| [[[l1 cs1] ns1] b1] rest IH]; cbn [outer_loop];
    intros out H Hnodup1 Hnodup2.
  - inv_Ok H. split; [constructor | intros key []].
  - bind_inv H as out_1 Hinner. bind_inv H as out' Hrest. inv_Ok H.
    cbn [map fst] in Hnodup1. inversion Hnodup1 as [| k ks Hnotin Hnodup1']; subst.
    destruct (inner_loop_keys _ _ _ _ _ _ _ Hinner Hnodup2) as [Hnd1 Hform1].
    destruct (IH _ Hrest Hnodup1' Hnodup2) as [Hnd Hform].
    rewrite map_app. split.
    + apply NoDup_app; try assumption.
      intros key Hk1 Hk. destruct (Hform1 key Hk1) as (n2 & -> & _).
      destruct (Hform _ Hk) as (l & cs & n1 & n2' & Heq & Hin & _).
      injection Heq as <- <- <- <-. contradiction.
    + intros key Hkey. apply in_app_or in Hkey. destruct Hkey as [Hkey | Hkey].
      * destruct (Hform1 key Hkey) as (n2 & -> & Hin).
        exists l1, cs1, ns1, n2. split; [reflexivity |].
        split; [left; reflexivity | exact Hin].
      * destruct (Hform key Hkey) as (l & cs & n1 & n2 & -> & Hin1 & Hin2).
        exists l, cs, n1, n2. split; [reflexivity |].
        split; [right; exact Hin1 | exact Hin2].
Qed.

(** X17.  Collections with distinct keys give an output with distinct
    keys: every key [(l, cs, ns1, ns2)] of a successful call pairs a
    key [(l, cs, ns1)] of the first collection with a key [(l, cs, ns2)]
    of the second one, and no key occurs twice when no key occurs twice
    in either collection. *)
Theorem power_spectrum_keys_distinct (e1 : Expansion V) (e2 : option (Expansion V))
    (out : list (key4 * TensorBlock V)) :
  power_spectrum_blocks e1 e2 = Ok out ->
  NoDup (map fst (ex_entries e1)) ->
  NoDup (map fst (second_entries e1 e2)) ->
  NoDup (map fst out) /\
  forall key, In key (map fst out) ->
    exists l cs ns1 ns2,
      key = (l, cs, ns1, ns2) /\
      In (l, cs, ns1) (map fst (ex_entries e1)) /\
      In (l, cs, ns2) (map fst (second_entries e1 e2)).
Proof.
  intros Hrun H1 H2. apply power_spectrum_blocks_Ok in Hrun.
  exact (outer_loop_keys _ _ _ _ Hrun H1 H2).
Qed.

End PowerSpectrum.

(** ** Runs on sodium chloride

    One sodium center with [l = 0] and two radial functions, expanded
    on its sodium and on its chlorine neighbors.  All blocks share their
    samples, so the restriction to common samples is not reached: a run
    that called it would raise. *)

Definition labels_eqb (a b : Labels) : bool :=
  names_eqb (lb_names a) (lb_names b) && list_eqb row_eqb (lb_values a) (lb_values b).

Definition no_intersect1d (a b : Labels) : list (list Z) := [].

Definition no_slice_block (b : TensorBlock float) (samples : Labels)
    : result (TensorBlock float) :=
  Raise LibraryError.

Definition one_center : Labels :=
  mk_Labels ["structure"; "center"]%string [[0; 0]]%Z.

Definition m_of_l0 : Labels :=
  mk_Labels ["spherical_harmonics_m"]%string [[0]]%Z.

Definition two_radial : Labels := mk_Labels ["n"]%string [[0]; [1]]%Z.

Definition directions : Labels := mk_Labels ["direction"]%string [[0]; [1]; [2]]%Z.

Definition gradient_names : list string := ["sample"; "structure"; "atom"]%string.

Definition plain_block (c0 c1 : float) : TensorBlock float :=
  mk_TensorBlock (mk_ndarray [1; 1; 2] [c0; c1]) one_center [m_of_l0] two_radial [].

(** A block whose gradient has the given samples and entries. *)
Definition block_with_gradient (c0 c1 : float) (samples : list (list Z))
    (entries : list float) : TensorBlock float :=
  mk_TensorBlock (mk_ndarray [1; 1; 2] [c0; c1]) one_center [m_of_l0] two_radial
    [("positions"%string,
      mk_Gradient (mk_ndarray [length samples; 3; 1; 2] entries)
                  (mk_Labels gradient_names samples) [directions; m_of_l0])].

(** No gradients. *)
Definition salt_plain : Expansion float :=
  mk_Expansion expansion_key_names
    [((0, 11, 11)%Z, plain_block 1 2); ((0, 11, 17)%Z, plain_block 3 4)].

(** Gradients on both blocks; no chlorine neighbor moves the invariants,
    so the gradient of the second block has no samples. *)
Definition salt_gradients : Expansion float :=
  mk_Expansion expansion_key_names
    [((0, 11, 11)%Z,
      block_with_gradient 1 2 [[0; 0; 0]]%Z [1; 0; 0; 1; 2; 0]%float);
     ((0, 11, 17)%Z, block_with_gradient 3 4 [] [])].

Definition salt_plain_out : list (key4 * TensorBlock float) :=
  Eval vm_compute in
    match power_spectrum_blocks labels_eqb no_intersect1d no_slice_block salt_plain None with
    | Ok out => out
    | Raise _ => []
    end.

Definition salt_gradients_out : list (key4 * TensorBlock float) :=
  Eval vm_compute in
    match power_spectrum_blocks labels_eqb no_intersect1d no_slice_block
            salt_gradients None with
    | Ok out => out
    | Raise _ => []
    end.

Lemma salt_plain_run :
  power_spectrum_blocks labels_eqb no_intersect1d no_slice_block salt_plain None
  = Ok salt_plain_out.
Proof. vm_compute. reflexivity. Defined.

Lemma salt_gradients_run :
  power_spectrum_blocks labels_eqb no_intersect1d no_slice_block salt_gradients None
  = Ok salt_gradients_out.
Proof. vm_compute. reflexivity. Defined.

Example salt_plain_keys :
  map fst salt_plain_out = [(0, 11, 11, 11); (0, 11, 11, 17); (0, 11, 17, 17)]%Z.
Proof. reflexivity. Qed.

Example salt_plain_values :
  map (fun kb => tb_values (snd kb)) salt_plain_out =
  [mk_ndarray [1; 4] [1; 2; 2; 4]%float;
   mk_ndarray [1; 4]
     (map (PrimFloat.mul (PrimFloat.sqrt 2)) [3; 4; 6; 8]%float);
   mk_ndarray [1; 4] [9; 12; 12; 16]%float].
Proof. vm_compute. reflexivity. Qed.

Example salt_gradients_keys :
  map fst salt_gradients_out = [(0, 11, 11, 11)%Z].
Proof. reflexivity. Qed.

Definition salt_na_cl : TensorBlock float :=
  Eval vm_compute in
    match salt_plain_out with
    | _ :: (_, block) :: _ => block
    | _ => plain_block 0 0
    end.

Lemma salt_na_cl_emitted : In ((0, 11, 11, 17)%Z, salt_na_cl) salt_plain_out.
Proof. right. left. reflexivity. Defined.

(** The sodium-chlorine block of the run without gradients is a
    contraction as C1 has it. *)
Lemma power_spectrum_values_witness :
  exists (l cs ns1 ns2 : Z) (i j : nat) (first b2 : TensorBlock float) (I A B : nat),
    (0, 11, 11, 17)%Z = (l, cs, ns1, ns2) /\
    nth_error (ex_entries salt_plain) i = Some ((l, cs, ns1), first) /\
    nth_error (ex_entries salt_plain) j = Some ((l, cs, ns2), b2) /\
    shape (tb_values salt_na_cl) = [I; A * B].
Proof.
  destruct (power_spectrum_values labels_eqb no_intersect1d no_slice_block
              salt_plain None salt_plain_out (0, 11, 11, 17)%Z salt_na_cl
              salt_plain_run salt_na_cl_emitted)
    as (l & cs & ns1 & ns2 & i & j & first & b1 & b2 & s1 & s2 & f & I & M & A & B
        & Hk & Hi & Hj & _ & _ & _ & _ & _ & _ & Hsh & _).
  exists l, cs, ns1, ns2, i, j, first, b2, I, A, B. auto.
Defined.

(** The run without gradients holds the sodium-chlorine key and not
    its mirror image. *)
Lemma self_combination_symmetric_pairs_witness :
  In (0, 11, 11, 17)%Z (map fst salt_plain_out) /\
  ~ In (0, 11, 17, 11)%Z (map fst salt_plain_out).
Proof.
  assert (Hin : In (0, 11, 11, 17)%Z (map fst salt_plain_out))
    by (right; left; reflexivity).
  split; [exact Hin |].
  apply (proj1 (proj2 (self_combination_symmetric_pairs labels_eqb no_intersect1d
                         no_slice_block salt_plain salt_plain_out salt_plain_run))
               0%Z 11%Z 11%Z 17%Z).
  - discriminate.
  - exact Hin.
Defined.

(** C2 as stated fails on the code: both the sodium and the chlorine
    block are in the input, the call succeeds, and neither
    [(0, 11, 11, 17)] nor [(0, 11, 17, 11)] is a key of the output. *)
Lemma symmetric_pair_dropped :
  power_spectrum_blocks labels_eqb no_intersect1d no_slice_block salt_gradients None
  = Ok salt_gradients_out /\
  In (0, 11, 11)%Z (map fst (ex_entries salt_gradients)) /\
  In (0, 11, 17)%Z (map fst (ex_entries salt_gradients)) /\
  map fst salt_gradients_out = [(0, 11, 11, 11)%Z] /\
  ~ In (0, 11, 11, 17)%Z (map fst salt_gradients_out) /\
  ~ In (0, 11, 17, 11)%Z (map fst salt_gradients_out).
Proof.
  split; [exact salt_gradients_run |].
  split; [left; reflexivity |].
  split; [right; left; reflexivity |].
  split; [reflexivity |].
  split; intros [H | []]; discriminate H.
Qed.

Definition salt_na_na : TensorBlock float :=
  Eval vm_compute in
    match salt_gradients_out with
    | (_, block) :: _ => block
    | _ => plain_block 0 0
    end.

Lemma salt_na_na_emitted : In ((0, 11, 11, 11)%Z, salt_na_na) salt_gradients_out.
Proof. left. reflexivity. Defined.

(** The block emitted by the run with gradients is in one of the two
    cases of C5. *)
Lemma gradient_only_with_samples_witness :
  (exists g, tb_gradients salt_na_na = [("positions"%string, g)]) \/
  tb_gradients salt_na_na = [].
Proof.
  destruct (proj1 (gradient_only_with_samples labels_eqb no_intersect1d no_slice_block
                     salt_gradients None)
                  salt_gradients_out (0, 11, 11, 11)%Z salt_na_na
                  salt_gradients_run salt_na_na_emitted)
    as (l & cs & ns1 & ns2 & i & j & first & b1 & b2 & s1 & s2 & _ & _ & _ & _ & _
        & [(g1 & g2 & g & _ & _ & _ & _ & Hg) | [_ Hg]]).
  - left. exists g. exact Hg.
  - right. exact Hg.
Defined.


Example salt_na_na_has_gradient :
  map fst (tb_gradients salt_na_na) = ["positions"%string].
Proof. reflexivity. Qed.

(** ** Further runs on sodium chloride *)

(** The result collection of the runs below: the keys with the blocks.
    The folding of the key axis is not reached by a call that raises. *)
Definition keys_and_blocks : Type := (Labels * list (TensorBlock float))%type.

Definition make_keys_and_blocks (keys : Labels) (blocks : list (TensorBlock float))
    : result keys_and_blocks :=
  Ok (keys, blocks).

Definition no_keys_to_properties (t : keys_and_blocks) (name : string)
    : result keys_and_blocks :=
  Raise LibraryError.

(** The blocks of [salt_plain] under the key names the builders of
    [utils/librascal.py] give to their keys. *)
Definition salt_builder_names : Expansion float :=
  mk_Expansion ["spherical_harmonics_l"; "center_species"; "neighbor_species"]%string
    (ex_entries salt_plain).

Lemma power_spectrum_key_names_checked_witness :
  compute_power_spectrum labels_eqb no_intersect1d no_slice_block keys_and_blocks
    make_keys_and_blocks no_keys_to_properties salt_builder_names None
  = Raise AssertionError.
Proof.
  apply power_spectrum_key_names_checked. left. by_computation.
Defined.

(** [salt_plain] combined with itself as a second collection. *)
Definition salt_twice_out : list (key4 * TensorBlock float) :=
  Eval vm_compute in
    match power_spectrum_blocks labels_eqb no_intersect1d no_slice_block
            salt_plain (Some salt_plain) with
    | Ok out => out
    | Raise _ => []
    end.

Lemma salt_twice_run :
  power_spectrum_blocks labels_eqb no_intersect1d no_slice_block
    salt_plain (Some salt_plain)
  = Ok salt_twice_out.
Proof. vm_compute. reflexivity. Defined.

Example salt_twice_keys :
  map fst salt_twice_out
  = [(0, 11, 11, 11); (0, 11, 11, 17); (0, 11, 17, 11); (0, 11, 17, 17)]%Z.
Proof. reflexivity. Qed.

(** The chlorine-sodium pair is not dropped. *)
Lemma two_collections_keep_mirrored_pairs_witness :
  In (0, 11, 17, 11)%Z (map fst salt_twice_out) \/
  exists b1 spx_1 spx_2 g1 g2,
    spx_1_at labels_eqb no_intersect1d no_slice_block (0, 11, 17)%Z (plain_block 3 4)
      (firstn 0 (ex_entries salt_plain)) = Ok b1 /\
    restrict labels_eqb no_intersect1d no_slice_block b1 (plain_block 1 2)
    = Ok (spx_1, spx_2) /\
    gradient spx_1 "positions" = Ok g1 /\
    gradient spx_2 "positions" = Ok g2 /\
    (lb_len (gr_samples g1) = 0 \/ lb_len (gr_samples g2) = 0).
Proof.
  apply (proj2 (two_collections_keep_mirrored_pairs labels_eqb no_intersect1d
                  no_slice_block salt_plain salt_plain salt_twice_out salt_twice_run)
               0%Z 11%Z 17%Z 11%Z 1 0 (plain_block 3 4) (plain_block 1 2)).
  - reflexivity.
  - reflexivity.
Defined.

(** The sodium-chlorine block of the run without gradients has one
    row. *)
Lemma power_spectrum_needs_samples_witness :
  exists I P,
    I <> 0 /\
    shape (tb_values salt_na_cl) = [I; P] /\
    length (flat (tb_values salt_na_cl)) = I * P.
Proof.
  exact (proj2 (power_spectrum_needs_samples labels_eqb no_intersect1d no_slice_block)
               salt_plain None salt_plain_out (0, 11, 11, 17)%Z salt_na_cl
               salt_plain_run salt_na_cl_emitted).
Defined.

(** A sodium block without any center. *)
Definition no_center : Expansion float :=
  mk_Expansion expansion_key_names
    [((0, 11, 11)%Z,
      mk_TensorBlock (mk_ndarray [0; 1; 2] [])
        (mk_Labels ["structure"; "center"]%string []) [m_of_l0] two_radial [])].

Example no_center_raises :
  power_spectrum_blocks labels_eqb no_intersect1d no_slice_block no_center None
  = Raise (ValueError "cannot reshape array").
Proof. reflexivity. Qed.

(** Gradients with samples on both blocks: the sodium neighbor is atom
    0, the chlorine neighbor atom 1. *)
Definition salt_moving : Expansion float :=
  mk_Expansion expansion_key_names
    [((0, 11, 11)%Z,
      block_with_gradient 1 2 [[0; 0; 0]]%Z [1; 0; 0; 1; 2; 0]%float);
     ((0, 11, 17)%Z,
      block_with_gradient 3 4 [[0; 0; 1]]%Z [0; 1; 1; 0; 0; 2]%float)].

Definition salt_moving_out : list (key4 * TensorBlock float) :=
  Eval vm_compute in
    match power_spectrum_blocks labels_eqb no_intersect1d no_slice_block
            salt_moving None with
    | Ok out => out
    | Raise _ => []
    end.

Lemma salt_moving_run :
  power_spectrum_blocks labels_eqb no_intersect1d no_slice_block salt_moving None
  = Ok salt_moving_out.
Proof. vm_compute. reflexivity. Defined.

Definition salt_moving_na_cl : TensorBlock float :=
  Eval vm_compute in
    match salt_moving_out with
    | _ :: (_, block) :: _ => block
    | _ => plain_block 0 0
    end.

Definition salt_moving_gradient : Gradient float :=
  Eval vm_compute in
    match tb_gradients salt_moving_na_cl with
    | (_, g) :: _ => g
    | [] => mk_Gradient (mk_ndarray [] []) (mk_Labels [] []) []
    end.

Example salt_moving_gradient_samples :
  gr_samples salt_moving_gradient
  = mk_Labels gradient_names [[0; 0; 0]; [0; 0; 1]]%Z /\
  shape (gr_data salt_moving_gradient) = [2; 3; 4] /\
  gr_components salt_moving_gradient = [directions].
Proof. repeat split. Qed.

(** The gradient of the sodium-chlorine block of that run. *)
Lemma power_spectrum_gradient_layout_witness :
  exists (g1 g2 : Gradient float) (I P : nat),
    lb_names (gr_samples g1) = lb_names (gr_samples g2) /\
    lb_names (gr_samples salt_moving_gradient) = lb_names (gr_samples g1) /\
    shape (tb_values salt_moving_na_cl) = [I; P] /\
    shape (gr_data salt_moving_gradient)
    = [lb_len (gr_samples salt_moving_gradient); 3; P] /\
    length (flat (gr_data salt_moving_gradient))
    = lb_len (gr_samples salt_moving_gradient) * (3 * P).
Proof.
  destruct (power_spectrum_gradient_layout labels_eqb no_intersect1d no_slice_block
              salt_moving None salt_moving_out (0, 11, 11, 17)%Z salt_moving_na_cl
              salt_moving_gradient salt_moving_run)
    as (l & cs & ns1 & ns2 & i & j & first & b1 & b2 & s1 & s2 & g1 & g2 & direction
        & I & P & _ & _ & _ & _ & _ & _ & _ & _ & Hfields & Hnames & _
        & Hshape & Hdata & Hlen & _).
  - right. left. reflexivity.
  - left. reflexivity.
  - exists g1, g2, I, P. auto.
Defined.

(** C5 as stated fails on the code: every block of the first collection
    carries a gradient with samples, no block of the second one carries
    a gradient, and the call gives no block without a gradient: it
    raises. *)
Lemma second_gradient_missing :
  Forall (fun kb => exists g, gradient (snd kb) "positions" = Ok g /\
                              lb_len (gr_samples g) <> 0)
         (ex_entries salt_moving) /\
  Forall (fun kb => has_gradient (snd kb) "positions" = false) (ex_entries salt_plain) /\
  power_spectrum_blocks labels_eqb no_intersect1d no_slice_block
    salt_moving (Some salt_plain)
  = Raise LibraryError.
Proof.
  split; [| split].
  - repeat constructor; (eexists; split; [reflexivity | discriminate]).
  - repeat constructor.
  - vm_compute. reflexivity.
Qed.

(** The keys of the run without gradients are distinct. *)
Lemma power_spectrum_keys_distinct_witness : NoDup (map fst salt_plain_out).
Proof.
  apply (power_spectrum_keys_distinct labels_eqb no_intersect1d no_slice_block
           salt_plain None salt_plain_out salt_plain_run).
  - repeat constructor; cbn; intuition discriminate.
  - repeat constructor; cbn; intuition discriminate.
Defined.

End Soap.

(** * The builders on top of librascal ([utils/librascal.py]) *)

Module Librascal.

(** ** The differentiable wrapper *)

Section Autograd.

Context {V : Type} {SV : Scalar V}.

(** What [backward] reads from its context: which of the four inputs of
    [forward] (calculator, positions, cell, numbers) need a gradient,
    and the two tensors saved by [forward]. *)
Record FunctionCtx : Type := mk_FunctionCtx {
  needs_input_grad_0 : bool;
  needs_input_grad_1 : bool;
  needs_input_grad_2 : bool;
  needs_input_grad_3 : bool;
  saved_grad_spherical_expansion : ndarray V;
  saved_grad_info : list (list Z)
}.

(** The four values [backward] returns; [None] is Python's [None]. *)
Record InputGradients : Type := mk_InputGradients {
  grad_calculator : option (ndarray V);
  grad_positions : option (ndarray V);
  grad_cell : option (ndarray V);
  grad_numbers : option (ndarray V)
}.

(** [a[i, :]] of a matrix. *)
Definition matrix_row (a : ndarray V) (i : Z) : result (list V) :=
  match shape a with
  | [d0; d1] => py_getitem (chunks d1 d0 (flat a)) i
  | _ => Raise IndexError
  end.

(** [torch.dot] *)
Definition dot (a b : list V) : result V :=
  if length a =? length b then
    Ok (fold_left vadd (map (fun xy => vmul (fst xy) (snd xy)) (combine a b)) vzero)
  else Raise RuntimeError.

(** The position of [t[row, column]] in a matrix of [rows] rows and three
    columns. *)
Definition position_of (rows : nat) (row : Z) (column : nat) : result nat :=
  let j := if (row <? 0)%Z then (row + Z.of_nat rows)%Z else row in
  if ((0 <=? j) && (j <? Z.of_nat rows))%Z then Ok (Z.to_nat j * 3 + column)
  else Raise IndexError.

(** Lines 310-316: the accumulation over the rows of [grad_info].  In
    [t[neighbor_i, spatial_i] += dot(...)] the entry is read before the
    right-hand side is evaluated.  The tensor [t] made by [torch.zeros]
    holds single precision numbers and the product is a double: the sum
    is taken in double precision and rounded when it is stored. *)
Fixpoint accumulate_positions (grad_output grad_spherical_expansion : ndarray V)
    (rows : nat) (sample : nat) (grad_info : list (list Z)) (t : list V)
    : result (list V) :=
  match grad_info with
  | [] => Ok t
  | (_ :: center_i :: neighbor_i :: _) :: rest =>
      let spatial (t : list V) (spatial_i : nat) : result (list V) :=
        let sample_i := 3 * sample + spatial_i in
        k <- position_of rows neighbor_i spatial_i ;;
        u <- matrix_row grad_output center_i ;;
        w <- matrix_row grad_spherical_expansion (Z.of_nat sample_i) ;;
        d <- dot u w ;;
        Ok (firstn k t ++ [vfloat32 (vadd (nth k t vzero) d)] ++ skipn (S k) t) in
      t0 <- spatial t 0 ;;
      t1 <- spatial t0 1 ;;
      t2 <- spatial t1 2 ;;
      accumulate_positions grad_output grad_spherical_expansion rows (S sample) rest t2
  | _ :: _ => Raise (ValueError "not enough values to unpack")
  end.

(** Lines 296-323. *)
Definition backward (ctx : FunctionCtx) (grad_samples : option (ndarray V))
    (grad_output : ndarray V) : result InputGradients :=
  let grad_spherical_expansion := saved_grad_spherical_expansion ctx in
  let grad_info := saved_grad_info ctx in
  _ <- (if needs_input_grad_0 ctx
        then Raise (ValueError "can not compute gradients w.r.t. calculator")
        else Ok tt) ;;
  grad_positions <-
    (if needs_input_grad_1 ctx then
       width <- py_getitem (shape grad_spherical_expansion) 1 ;;
       if width =? 0 then
         Raise (ValueError "missing gradients, please set `compute_gradients` to True")
       else
         rows <- py_getitem (shape grad_output) 0 ;;
         t <- accumulate_positions grad_output grad_spherical_expansion rows 0 grad_info
                (repeat vzero (rows * 3)) ;;
         Ok (Some {| shape := [rows; 3]; flat := t |})
     else Ok None) ;;
  _ <- (if needs_input_grad_2 ctx
        then Raise (ValueError "can not compute gradients w.r.t. cell")
        else Ok tt) ;;
  _ <- (if needs_input_grad_2 ctx
        then Raise (ValueError "can not compute gradients w.r.t. atomic numbers")
        else Ok tt) ;;
  Ok {| grad_calculator := None;
        grad_positions := grad_positions;
        grad_cell := None;
        grad_numbers := None |}.

(** A gradient with respect to the calculator or to the cell is
    refused. *)
Lemma backward_calculator_refused (ctx : FunctionCtx)
    (grad_samples : option (ndarray V)) (grad_output : ndarray V) :
  needs_input_grad_0 ctx = true ->
  backward ctx grad_samples grad_output
  = Raise (ValueError "can not compute gradients w.r.t. calculator").
Proof. intros H. unfold backward. rewrite H. reflexivity. Qed.

Lemma backward_cell_refused (ctx : FunctionCtx)
    (grad_samples : option (ndarray V)) (grad_output : ndarray V) :
  needs_input_grad_2 ctx = true ->
  exists e, backward ctx grad_samples grad_output = Raise e.
Proof.
  intros H. unfold backward. rewrite H.
  destruct (needs_input_grad_0 ctx); simpl; [eauto |].
  match goal with |- context [bind ?c _] => destruct c end; simpl; eauto.
Qed.

(** C6, where the code departs from it.  When only the atomic numbers
    need a gradient, [backward] returns four times [None] instead of
    failing: the test before the message about atomic numbers reads
    [needs_input_grad[2]], the flag of the cell, a second time. *)
Theorem backward_numbers_not_refused
    (grad_spherical_expansion : ndarray V) (grad_info : list (list Z))
    (grad_samples : option (ndarray V)) (grad_output : ndarray V) :
  backward (mk_FunctionCtx false false false true grad_spherical_expansion grad_info)
           grad_samples grad_output
  = Ok (mk_InputGradients None None None None).
Proof. reflexivity. Qed.

(** C9.  When the positions need a gradient and the second axis of the
    saved gradient array has width zero, [backward] fails with a
    [ValueError]: the one about the missing gradients, unless the one
    about the calculator comes first. *)
Theorem backward_missing_gradients (ctx : FunctionCtx)
    (grad_samples : option (ndarray V)) (grad_output : ndarray V) :
  needs_input_grad_1 ctx = true ->
  nth_error (shape (saved_grad_spherical_expansion ctx)) 1 = Some 0 ->
  backward ctx grad_samples grad_output
  = Raise (ValueError
             (if needs_input_grad_0 ctx
              then "can not compute gradients w.r.t. calculator"
              else "missing gradients, please set `compute_gradients` to True")).
Proof.
  intros H1 Hw. unfold backward. rewrite H1.
  destruct (needs_input_grad_0 ctx); simpl; [reflexivity |].
  change 1%Z with (Z.of_nat 1). rewrite (py_getitem_nat _ _ 1 _ Hw). reflexivity.
Qed.

(** ** What the accumulation computes *)

(** The row of the position gradient an index [neighbor_i] selects, for
    an index accepted by a matrix of [rows] rows. *)
Definition neighbor_slot (rows : nat) (neighbor_i : Z) : Z :=
  if (neighbor_i <? 0)%Z then (neighbor_i + Z.of_nat rows)%Z else neighbor_i.

(** The term that row [sample] of the gradient metadata adds in
    direction [spatial_i]: the product of row [center_i] of the upstream
    gradient with row [3 * sample + spatial_i] of the saved gradient
    array. *)
Definition contribution (grad_output grad_spherical_expansion : ndarray V)
    (center_i : Z) (sample spatial_i : nat) : V :=
  match (u <- matrix_row grad_output center_i ;;
         w <- matrix_row grad_spherical_expansion (Z.of_nat (3 * sample + spatial_i)) ;;
         dot u w) with
  | Ok d => d
  | Raise _ => vzero
  end.

(** Entry [(n, x)] of the position gradient, as a sum over the rows of
    the gradient metadata whose neighbor is atom [n], taken in order and
    rounded to single precision after each term. *)
Fixpoint position_gradient (grad_output grad_spherical_expansion : ndarray V)
    (rows : nat) (sample : nat) (grad_info : list (list Z)) (n x : nat) (acc : V) : V :=
  match grad_info with
  | [] => acc
  | row :: rest =>
      position_gradient grad_output grad_spherical_expansion rows (S sample) rest n x
        match row with
        | _ :: center_i :: neighbor_i :: _ =>
            if (neighbor_slot rows neighbor_i =? Z.of_nat n)%Z
            then vfloat32 (vadd acc (contribution grad_output grad_spherical_expansion
                                       center_i sample x))
            else acc
        | _ => acc
        end
  end.

Lemma nth_update (t : list V) (k i : nat) (v : V) :
  k < length t ->
  length (firstn k t ++ [v] ++ skipn (S k) t) = length t /\
  nth i (firstn k t ++ [v] ++ skipn (S k) t) vzero
  = if i =? k then v else nth i t vzero.
Proof.
  intros Hk. split.
  - rewrite !length_app, length_firstn, length_skipn. simpl. lia.
  - destruct (Nat.eqb_spec i k) as [-> | Hne].
    + rewrite app_nth2 by (rewrite length_firstn; lia).
      rewrite length_firstn, Nat.min_l by lia. rewrite Nat.sub_diag. reflexivity.
    + destruct (Nat.lt_ge_cases i k) as [Hlt | Hge].
      * rewrite app_nth1 by (rewrite length_firstn; lia).
        rewrite nth_firstn. destruct (Nat.ltb_spec i k); [reflexivity | lia].
      * rewrite app_nth2 by (rewrite length_firstn; lia).
        rewrite length_firstn, Nat.min_l by lia.
        destruct (i - k) as [| j] eqn:Hj; [lia |]. cbn [app nth].
        rewrite nth_skipn. f_equal. lia.
Qed.

(** One statement [t[neighbor_i, spatial_i] += dot(...)]. *)
Lemma spatial_step (grad_output grad_spherical_expansion : ndarray V)
    (rows sample spatial_i : nat) (center_i neighbor_i : Z) (t t' : list V) :
  (k <- position_of rows neighbor_i spatial_i ;;
   u <- matrix_row grad_output center_i ;;
   w <- matrix_row grad_spherical_expansion (Z.of_nat (3 * sample + spatial_i)) ;;
   d <- dot u w ;;
   Ok (firstn k t ++ [vfloat32 (vadd (nth k t vzero) d)] ++ skipn (S k) t)) = Ok t' ->
  length t = rows * 3 ->
  spatial_i < 3 ->
  (0 <= neighbor_slot rows neighbor_i < Z.of_nat rows)%Z /\
  length t' = rows * 3 /\
  forall n x, n < rows -> x < 3 ->
    nth (n * 3 + x) t' vzero
    = if (neighbor_slot rows neighbor_i =? Z.of_nat n)%Z && (x =? spatial_i)
      then vfloat32 (vadd (nth (n * 3 + x) t vzero)
                          (contribution grad_output grad_spherical_expansion
                             center_i sample x))
      else nth (n * 3 + x) t vzero.
Proof.
  intros H Hlen Hs. bind_inv H as k Hk.
  unfold contribution.
  unfold position_of in Hk. fold (neighbor_slot rows neighbor_i) in Hk.
  set (j := neighbor_slot rows neighbor_i) in *.
  destruct (Z.leb_spec 0 j) as [Hj0 |]; [| discriminate].
  destruct (Z.ltb_spec j (Z.of_nat rows)) as [Hj1 |]; [| discriminate].
  cbn [andb] in Hk. inv_Ok Hk.
  bind_inv H as u Hu. bind_inv H as w Hw. bind_inv H as d Hd.
  set (k := Z.to_nat j * 3 + spatial_i) in *.
  assert (Ht' : t' = firstn k t ++ [vfloat32 (vadd (nth k t vzero) d)] ++ skipn (S k) t)
    by congruence.
  clear H. subst t'.
  assert (Hbound : k < length t) by lia.
  split; [lia |].
  split; [rewrite (proj1 (nth_update t k 0 _ Hbound)); assumption |].
  intros n x Hn Hx.
  rewrite (proj2 (nth_update t k (n * 3 + x) _ Hbound)). subst k.
  destruct (Z.eqb_spec j (Z.of_nat n)) as [Hjn | Hjn];
    destruct (Nat.eqb_spec x spatial_i) as [Hxs | Hxs]; cbn [andb].
  - subst x. rewrite Hjn, Nat2Z.id, Nat.eqb_refl.
    rewrite Hu. cbn [bind]. rewrite Hw. cbn [bind]. rewrite Hd. reflexivity.
  - destruct (Nat.eqb_spec (n * 3 + x) (Z.to_nat j * 3 + spatial_i)); [lia | reflexivity].
  - destruct (Nat.eqb_spec (n * 3 + x) (Z.to_nat j * 3 + spatial_i)); [lia | reflexivity].
  - destruct (Nat.eqb_spec (n * 3 + x) (Z.to_nat j * 3 + spatial_i)); [lia | reflexivity].
Qed.

Lemma accumulate_positions_spec (grad_output grad_spherical_expansion : ndarray V)
    (rows : nat) (grad_info : list (list Z)) :
  forall (sample : nat) (t t' : list V),
  accumulate_positions grad_output grad_spherical_expansion rows sample grad_info t
  = Ok t' ->
  length t = rows * 3 ->
  length t' = rows * 3 /\
  Forall (fun row => exists a center_i neighbor_i rest,
            row = a :: center_i :: neighbor_i :: rest /\
            (0 <= neighbor_slot rows neighbor_i < Z.of_nat rows)%Z) grad_info /\
  forall n x, n < rows -> x < 3 ->
    nth (n * 3 + x) t' vzero
    = position_gradient grad_output grad_spherical_expansion rows sample grad_info
        n x (nth (n * 3 + x) t vzero).
Proof.
  induction grad_info as [| row rest IH]; intros sample t t' H Hlen.
  - cbn [accumulate_positions] in H. inv_Ok H.
    split; [assumption |]. split; [constructor |]. reflexivity.
  - cbn [accumulate_positions] in H.
    destruct row as [| a [| center_i [| neighbor_i tail]]]; try discriminate.
    apply bind_Ok in H. destruct H as (t0 & H0 & H).
    apply bind_Ok in H. destruct H as (t1 & H1 & H).
    apply bind_Ok in H. destruct H as (t2 & H2 & H).
    destruct (spatial_step _ _ _ _ 0 _ _ _ _ H0 Hlen ltac:(lia)) as (Hslot & Hl0 & Hn0).
    destruct (spatial_step _ _ _ _ 1 _ _ _ _ H1 Hl0 ltac:(lia)) as (_ & Hl1 & Hn1).
    destruct (spatial_step _ _ _ _ 2 _ _ _ _ H2 Hl1 ltac:(lia)) as (_ & Hl2 & Hn2).
    destruct (IH _ _ _ H Hl2) as (Hl & Hall & Hn).
    split; [assumption |]. split.
    { constructor; [| assumption]. exists a, center_i, neighbor_i, tail. auto. }
    intros n x Hln Hlx. rewrite (Hn n x Hln Hlx). cbn [position_gradient]. f_equal.
    rewrite (Hn2 n x Hln Hlx), (Hn1 n x Hln Hlx), (Hn0 n x Hln Hlx).
    destruct (neighbor_slot rows neighbor_i =? Z.of_nat n)%Z; cbn [andb]; [| reflexivity].
    destruct x as [| [| [| x]]]; cbn [Nat.eqb]; try reflexivity. lia.
Qed.

Lemma position_gradient_untouched (grad_output grad_spherical_expansion : ndarray V)
    (rows : nat) (grad_info : list (list Z)) (n x : nat) :
  Forall (fun row => forall a center_i neighbor_i rest,
            row = a :: center_i :: neighbor_i :: rest ->
            neighbor_slot rows neighbor_i <> Z.of_nat n) grad_info ->
  forall (sample : nat) (acc : V),
  position_gradient grad_output grad_spherical_expansion rows sample grad_info n x acc
  = acc.
Proof.
  induction 1 as [| row rest Hrow _ IH]; intros sample acc; cbn [position_gradient].
  - reflexivity.
  - rewrite IH. destruct row as [| a [| center_i [| neighbor_i tail]]]; try reflexivity.
    specialize (Hrow _ _ _ _ eq_refl).
    destruct (Z.eqb_spec (neighbor_slot rows neighbor_i) (Z.of_nat n));
      [contradiction | reflexivity].
Qed.

(** X5.  When the positions need a gradient and [backward] returns, the
    gradient it returns for them is a matrix with three columns and as
    many rows as the upstream gradient.  Its entry [(n, x)] is the sum,
    over the rows [(_, center, neighbor, ...)] of the saved gradient
    metadata whose neighbor is atom [n], in their order and starting
    from zero, of the product of row [center] of the upstream gradient
    with row [3 * sample + x] of the saved gradient array, where
    [sample] is the position of the metadata row; the matrix holds
    single precision numbers, so each term is added in double precision
    and the sum is rounded to single precision before the next one.
    Every metadata row names a neighbor among the rows of the matrix,
    and an atom that is the neighbor of no row gets a gradient of
    zero. *)
Theorem backward_positions_gradient (ctx : FunctionCtx)
    (grad_samples : option (ndarray V)) (grad_output : ndarray V)
    (g : InputGradients) :
  needs_input_grad_1 ctx = true ->
  backward ctx grad_samples grad_output = Ok g ->
  exists (rows : nat) (t : list V),
    hd_error (shape grad_output) = Some rows /\
    grad_positions g = Some {| shape := [rows; 3]; flat := t |} /\
    length t = rows * 3 /\
    Forall (fun row => exists a center_i neighbor_i rest,
              row = a :: center_i :: neighbor_i :: rest /\
              (0 <= neighbor_slot rows neighbor_i < Z.of_nat rows)%Z)
           (saved_grad_info ctx) /\
    (forall n x, n < rows -> x < 3 ->
       nth (n * 3 + x) t vzero
       = position_gradient grad_output (saved_grad_spherical_expansion ctx) rows 0
           (saved_grad_info ctx) n x vzero) /\
    (forall n x, n < rows -> x < 3 ->
       Forall (fun row => forall a center_i neighbor_i rest,
                 row = a :: center_i :: neighbor_i :: rest ->
                 neighbor_slot rows neighbor_i <> Z.of_nat n)
              (saved_grad_info ctx) ->
       nth (n * 3 + x) t vzero = vzero).
Proof.
  intros H1 H. unfold backward in H. rewrite H1 in H.
  bind_inv H as u0 H0. bind_inv H as gp Hgp. bind_inv H as u2 H2.
  bind_inv H as u3 H3. inv_Ok H. cbn [grad_positions].
  bind_inv Hgp as width Hwidth.
  destruct (width =? 0); [discriminate |].
  bind_inv Hgp as rows Hrows. bind_inv Hgp as t Ht. inv_Ok Hgp.
  assert (Hzero : length (repeat (@vzero V SV) (rows * 3)) = rows * 3)
    by apply repeat_length.
  destruct (accumulate_positions_spec _ _ _ _ _ _ _ Ht Hzero) as (Hlen & Hall & Hnth).
  assert (Hstart : forall n x, n < rows -> x < 3 ->
                     nth (n * 3 + x) (repeat (@vzero V SV) (rows * 3)) vzero = vzero).
  { intros n x _ _. apply nth_repeat. }
  exists rows, t. split.
  { apply py_getitem_nonneg in Hrows; [| lia].
    destruct (shape grad_output); [discriminate | exact Hrows]. }
  split; [reflexivity |]. split; [assumption |]. split; [assumption |].
  split.
  - intros n x Hn Hx. rewrite (Hnth n x Hn Hx), (Hstart n x Hn Hx). reflexivity.
  - intros n x Hn Hx Hnone. rewrite (Hnth n x Hn Hx), (Hstart n x Hn Hx).
    apply position_gradient_untouched. assumption.
Qed.

End Autograd.

(** ** The calculator and the data it exchanges *)

Section Builders.

Context {V : Type} {SV : Scalar V}.

Record Atoms : Type := mk_Atoms {
  numbers : list Z;
  positions : list (V * V * V);
  cell : list (V * V * V)
}.

(** [len(frame)] *)
Definition len (frame : Atoms) : nat := length (numbers frame).

(** The hyper-parameters the builders read or write; [others] stands
    for the ones they pass on untouched. *)
Variable Others : Type.

Record Hypers : Type := mk_Hypers {
  max_angular : Z;
  max_radial : Z;
  compute_gradients : bool;
  global_species : list Z;
  expansion_by_species_method : string;
  others : Others
}.

Record Block : Type := mk_Block {
  bk_values : ndarray V;
  bk_samples : Labels;
  bk_components : list Labels;
  bk_features : Labels;
  bk_gradients : list (string * Gradient V)
}.

Record Descriptor : Type := mk_Descriptor {
  sparse : Labels;
  blocks : list Block
}.

(** A row of [get_representation_info()]. *)
Record center_info : Type := mk_center_info {
  ci_structure : Z;
  ci_center : Z;
  ci_species : Z
}.

(** A row of [get_gradients_info()]; the builders read columns 0, 1, 2
    and 4. *)
Record gradient_info : Type := mk_gradient_info {
  gi_structure : Z;
  gi_center : Z;
  gi_neighbor : Z;
  gi_column_3 : Z;
  gi_neighbor_species : Z
}.

(** What the manager returned by [calculator.transform] gives access to. *)
Record Manager : Type := mk_Manager {
  get_features : ndarray V;
  get_features_gradient : ndarray V;
  get_representation_info : list center_info;
  get_gradients_info : list gradient_info
}.

(** [transform] takes one frame or a list of frames. *)
Inductive transform_arg : Type :=
| OneFrame (frame : Atoms)
| Frames (frames : list Atoms).

(** The external calculator: the calculator built from the
    hyper-parameters, and its [transform(arg)]. *)
Variable rascal : Hypers -> transform_arg -> result Manager.

(** [SphericalExpansion hypers], the construction of the calculator:
    it returns, or it refuses the hyper-parameters with an exception. *)
Variable SphericalExpansion : Hypers -> result unit.

(** Computations that call the calculator: the calls made so far are
    threaded through, and kept when an exception is raised. *)
Definition calc (A : Type) : Type :=
  list transform_arg -> result A * list transform_arg.

Definition lift {A : Type} (r : result A) : calc A := fun log => (r, log).

Definition cbind {A B : Type} (c : calc A) (k : A -> calc B) : calc B :=
  fun log =>
    match c log with
    | (Ok a, log') => k a log'
    | (Raise e, log') => (Raise e, log')
    end.

Notation "x <-- c ;; k" := (cbind c (fun x => k))
  (at level 61, c at next level, right associativity).

Definition transform (hypers : Hypers) (arg : transform_arg) : calc Manager :=
  fun log => (rascal hypers arg, log ++ [arg]).

(** ** What both builders share *)

Definition with_species (hypers : Hypers) (species : list Z) : Hypers :=
  {| max_angular := max_angular hypers;
     max_radial := max_radial hypers;
     compute_gradients := compute_gradients hypers;
     global_species := species;
     expansion_by_species_method := "user defined";
     others := others hypers |}.

(** [Labels(names, values=np.array(rows, dtype=np.int32))] on a Python
    list of rows.  The array made of an empty list has a single axis,
    and [Labels] takes arrays with two axes only. *)
Definition Labels_of_list (labels : Labels) : result Labels :=
  match lb_values labels with
  | [] => Raise (ValueError "values parameter must be a 2D array")
  | _ :: _ => Ok labels
  end.

Definition features_labels (hypers : Hypers) : Labels :=
  {| lb_names := ["n"%string];
     lb_values := map (fun n => [int32 n]) (range (max_radial hypers)) |}.

(** Lines 54-59: the slice of the angular axis for each [l]. *)
Fixpoint lm_slices_from (start : Z) (ls : list Z) : list (Z * Z) :=
  match ls with
  | [] => []
  | l :: ls' =>
      let stop := (start + 2 * l + 1)%Z in
      (start, stop) :: lm_slices_from stop ls'
  end.

Definition lm_slices (hypers : Hypers) : list (Z * Z) :=
  lm_slices_from 0 (range (max_angular hypers + 1)).

Definition spherical_harmonics_m (l : Z) : Labels :=
  {| lb_names := ["spherical_harmonics_m"%string];
     lb_values := map (fun m => [int32 m]) (range2 (- l) (l + 1)) |}.

(** [np.where(p(rows))[0]] together with the rows found. *)
Definition where_rows {A : Type} (p : A -> bool) (rows : list A) : list (nat * A) :=
  filter (fun ir => p (snd ir)) (combine (seq 0 (length rows)) rows).

(** [data[mask, neighbor_species_i, :, lm_slice]] on a rank 4 array. *)
Definition select_block (data : ndarray V) (mask : list nat)
    (neighbor_species_i : nat) (lm_slice : Z * Z) : result (ndarray V) :=
  match shape data with
  | [c; ns; nr; lm] =>
      if forallb (fun i => i <? c) mask && (neighbor_species_i <? ns) then
        let '(first, count) := clip lm lm_slice in
        Ok {| shape := [length mask; nr; count];
              flat :=
                flat_map (fun i =>
                  flat_map (fun n =>
                    map (fun k => at4 ns nr lm (flat data) i neighbor_species_i n (first + k))
                        (seq 0 count))
                    (seq 0 nr))
                  mask |}
      else Raise IndexError
  | _ => Raise IndexError
  end.

(** ** The spherical expansion *)

Fixpoint insert_species (x : Z) (l : list Z) : list Z :=
  match l with
  | [] => [x]
  | y :: l' =>
      if (x <? y)%Z then x :: l
      else if (x =? y)%Z then l
      else y :: insert_species x l'
  end.

(** [list(map(int, np.unique(numbers)))] *)
Definition unique_species (all_numbers : list Z) : list Z :=
  fold_right insert_species [] all_numbers.

(** [global_species.index(x)] *)
Fixpoint list_index (l : list Z) (x : Z) : result nat :=
  match l with
  | [] => Raise (ValueError "x is not in list")
  | y :: l' => if (y =? x)%Z then Ok 0 else i <- list_index l' x ;; Ok (S i)
  end.

(** Lines 36-47: the keys, in the order of the blocks. *)
Definition sparse_keys (hypers : Hypers) (species : list Z) : list (Z * Z * Z) :=
  flat_map (fun l =>
    flat_map (fun center_species =>
      map (fun neighbor_species =>
             (int32 l, int32 center_species, int32 neighbor_species))
          species)
      species)
    (range (max_angular hypers + 1)).

Definition sparse_labels (keys : list (Z * Z * Z)) : Labels :=
  {| lb_names := ["spherical_harmonics_l"; "center_species"; "neighbor_species"]%string;
     lb_values := map (fun k => let '(l, cs, ns) := k in [l; cs; ns]) keys |}.

(** Lines 68-71. *)
Definition global_to_per_structure_atom_id (frames : list Atoms) : list Z :=
  flat_map (fun frame => range (Z.of_nat (len frame))) frames.

(** [a.reshape(-1, 3, a.shape[1], a.shape[2])] *)
Definition reshape_gradient (a : ndarray V) : result (ndarray V) :=
  let d1 := nth 1 (shape a) 0 in
  let d2 := nth 2 (shape a) 0 in
  d0 <- infer_dim (3 * d1 * d2) (length (flat a)) ;;
  Ok {| shape := [d0; 3; d1; d2]; flat := flat a |}.

(** Lines 111-129: one matching row of the gradient metadata. *)
Definition gradient_entry (gradients : ndarray V) (atom_id : list Z)
    (neighbor_species_i : nat) (lm_slice : Z * Z)
    (sample_i : nat) (grad_index : nat) (row : gradient_info)
    : result (option (ndarray V * list Z)) :=
  let start := Z.of_nat (3 * grad_index) in
  let stop := Z.of_nat (3 * grad_index + 3) in
  let '(first, count) := clip (hd 0 (shape gradients)) (start, stop) in
  g <- select_block gradients (seq first count) neighbor_species_i lm_slice ;;
  g <- swapaxes_1_2 g ;;
  block_gradient <- reshape_gradient g ;;
  if vnorm_is_zero (flat block_gradient) then Ok None
  else
    let structure := gi_structure row in
    neighbor <- py_getitem atom_id (gi_neighbor row) ;;
    Ok (Some (block_gradient, [Z.of_nat sample_i; structure; neighbor])).

Definition found {A : Type} (o : option A) : list A :=
  match o with
  | Some a => [a]
  | None => []
  end.

(** Lines 102-129: the gradient entries of one sample. *)
Definition sample_gradients (gradients : ndarray V) (grad_info : list gradient_info)
    (atom_id : list Z) (neighbor_species : Z) (neighbor_species_i : nat)
    (lm_slice : Z * Z) (sample_i : nat) (sample : Z * Z)
    : result (list (ndarray V * list Z)) :=
  let '(structure, center) := sample in
  let gradient_mask (row : gradient_info) : bool :=
    ((gi_structure row =? structure) && (gi_center row =? center)
     && (gi_neighbor_species row =? neighbor_species))%Z in
  entries <- mapM (fun ir => gradient_entry gradients atom_id neighbor_species_i
                               lm_slice sample_i (fst ir) (snd ir))
                  (where_rows gradient_mask grad_info) ;;
  Ok (flat_map found entries).

(** Lines 99-129: the gradient entries of a block, sample after sample. *)
Definition gradient_entries (gradients : ndarray V) (grad_info : list gradient_info)
    (atom_id : list Z) (neighbor_species : Z) (neighbor_species_i : nat)
    (lm_slice : Z * Z) (samples : list (Z * Z))
    : result (list (ndarray V * list Z)) :=
  per_sample <- mapM (fun ix => sample_gradients gradients grad_info atom_id
                                  neighbor_species neighbor_species_i lm_slice
                                  (fst ix) (snd ix))
                     (combine (seq 0 (length samples)) samples) ;;
  Ok (concat per_sample).

Definition gradient_sample_names : list string :=
  ["sample"; "structure"; "atom"]%string.

(** Lines 131-144: the gradient attached to a block. *)
Definition block_gradient_of (entries : list (ndarray V * list Z))
    (spherical_component features : Labels) : result (Gradient V) :=
  let spatial_component :=
    {| lb_names := ["gradient_direction"%string]; lb_values := [[0]; [1]; [2]]%Z |} in
  match entries with
  | _ :: _ =>
      block_gradients <- np_concatenate (map fst entries) ;;
      Ok {| gr_data := block_gradients;
            gr_samples :=
              {| lb_names := gradient_sample_names;
                 lb_values := map (fun e => map int32 (snd e)) entries |};
            gr_components := [spatial_component; spherical_component] |}
  | [] =>
      Ok {| gr_data := np_zeros [0; 3; lb_len spherical_component; lb_len features];
            gr_samples := {| lb_names := gradient_sample_names; lb_values := [] |};
            gr_components := [spatial_component; spherical_component] |}
  end.

(** Lines 74-179: the block of one key.  [features] are the labels made
    on lines 49-52, before the loop over the keys. *)
Definition build_block (hypers : Hypers) (species : list Z)
    (data gradients : ndarray V) (info : list center_info)
    (grad_info : list gradient_info) (atom_id : list Z)
    (key : Z * Z * Z) : result Block :=
  let '(l, center_species, neighbor_species) := key in
  neighbor_species_i <- list_index species neighbor_species ;;
  let center_species_mask :=
    where_rows (fun row => (ci_species row =? center_species)%Z) info in
  lm_slice <- py_getitem (lm_slices hypers) l ;;
  block_data <- select_block data (map fst center_species_mask)
                  neighbor_species_i lm_slice ;;
  block_data <- swapaxes_1_2 block_data ;;
  let samples :=
    map (fun ir => (int32 (ci_structure (snd ir)), int32 (ci_center (snd ir))))
        center_species_mask in
  spherical_component <- Labels_of_list (spherical_harmonics_m l) ;;
  let features := features_labels hypers in
  block_gradients <-
    (if compute_gradients hypers then
       entries <- gradient_entries gradients grad_info atom_id neighbor_species
                    neighbor_species_i lm_slice samples ;;
       g <- block_gradient_of entries spherical_component features ;;
       Ok [("positions"%string, g)]
     else Ok []) ;;
  (* reset atom index (librascal uses a global atom index) *)
  sample_rows <- mapM (fun sc =>
                         center <- py_getitem atom_id (snd sc) ;;
                         Ok [int32 (fst sc); int32 center])
                      samples ;;
  samples <- Labels_of_list {| lb_names := ["structure"; "center"]%string;
                               lb_values := sample_rows |} ;;
  Ok {| bk_values := block_data;
        bk_samples := samples;
        bk_components := [spherical_component];
        bk_features := features;
        bk_gradients := block_gradients |}.

(** Lines 35-181: from the output of the calculator to the descriptor. *)
Definition build (hypers : Hypers) (species : list Z) (frames : list Atoms)
    (manager : Manager) : result Descriptor :=
  let keys := sparse_keys hypers species in
  sparse <- Labels_of_list (sparse_labels keys) ;;
  _ <- Labels_of_list (features_labels hypers) ;;
  d0 <- py_getitem (shape (get_features manager)) 0 ;;
  data <- reshape_last [Z.of_nat d0; Z.of_nat (length species); max_radial hypers]
            (get_features manager) ;;
  g0 <- py_getitem (shape (get_features_gradient manager)) 0 ;;
  gradients <- reshape_last [Z.of_nat g0; Z.of_nat (length species); max_radial hypers]
                 (get_features_gradient manager) ;;
  let atom_id := global_to_per_structure_atom_id frames in
  blocks <- mapM (build_block hypers species data gradients
                    (get_representation_info manager) (get_gradients_info manager)
                    atom_id)
                 keys ;;
  Ok {| sparse := sparse; blocks := blocks |}.

(** [RascalSphericalExpansion.compute] *)
Definition RascalSphericalExpansion_compute (self_hypers : Hypers)
    (frames : list Atoms) : calc Descriptor :=
  all_numbers <-- lift (match frames with
                        | [] => Raise (ValueError "need at least one array to concatenate")
                        | _ :: _ => Ok (flat_map numbers frames)
                        end) ;;
  let species := unique_species all_numbers in
  let hypers := with_species self_hypers species in
  _ <-- lift (SphericalExpansion hypers) ;;
  manager <-- transform hypers (Frames frames) ;;
  lift (build hypers species frames manager).

(** ** The pair expansion *)

(** [max(lengths)] *)
Definition py_max (lengths : list nat) : result nat :=
  match lengths with
  | [] => Raise (ValueError "max() arg is an empty sequence")
  | n :: rest => Ok (fold_left Nat.max rest n)
  end.

(** [ijf = f.copy(); ijf.numbers = numbers] *)
Definition with_numbers (f : Atoms) (new_numbers : list Z) : Atoms :=
  {| numbers := new_numbers; positions := positions f; cell := cell f |}.

(** [(entries ** 2).sum()] over the radial and angular axes of one
    (center, neighbor) pair: the squares of its coefficients are one run
    of the array [idata ** 2], which numpy adds up in an order of its
    own. *)
Definition squared_norm (entries : list V) : V :=
  vsum (map (fun x => vmul x x) entries).

(** The coefficients of the pair [(a, b)] in an array of shape
    [[n_atoms; max_atoms; ...]] with [w] entries per pair. *)
Definition pair_coefficients (max_atoms w : nat) (idata : ndarray V) (a b : nat) : list V :=
  firstn w (skipn ((a * max_atoms + b) * w) (flat idata)).

(** [np.where(norms > 1e-20)]: the pairs kept, in row-major order. *)
Definition nonzero_pairs (n_atoms max_atoms w : nat) (idata : ndarray V)
    : list (nat * nat) :=
  filter (fun ab =>
            vgtb (squared_norm (pair_coefficients max_atoms w idata (fst ab) (snd ab)))
                 v1e_20)
         (list_prod (seq 0 n_atoms) (seq 0 max_atoms)).

(** Lines 232-243: the coefficients and the samples of structure [i]. *)
Definition pair_entry (hypers : Hypers) (max_atoms : nat) (i : nat) (ijf : Atoms)
    (raw : ndarray V) : result (ndarray V * list (list Z)) :=
  idata <- reshape_last [Z.of_nat (len ijf); Z.of_nat max_atoms; max_radial hypers] raw ;;
  let nr := Z.to_nat (max_radial hypers) in
  let lm := nth 3 (shape idata) 0 in
  let nonzero := nonzero_pairs (len ijf) max_atoms (nr * lm) idata in
  let selected :=
    {| shape := [length nonzero; nr; lm];
       flat := flat_map (fun ab => pair_coefficients max_atoms (nr * lm) idata
                                     (fst ab) (snd ab))
                        nonzero |} in
  kept <- reshape_last [Z.of_nat (length nonzero); max_radial hypers] selected ;;
  Ok (kept,
      map (fun ab => [Z.of_nat i; Z.of_nat (fst ab); Z.of_nat (snd ab)]) nonzero).

(** Lines 229-243: one call of the calculator per structure. *)
Fixpoint pair_loop (hypers : Hypers) (max_atoms : nat) (i : nat)
    (ijframes : list Atoms) : calc (list (ndarray V * list (list Z))) :=
  match ijframes with
  | [] => lift (Ok [])
  | ijf :: rest =>
      manager <-- transform hypers (OneFrame ijf) ;;
      entry <-- lift (pair_entry hypers max_atoms i ijf (get_features manager)) ;;
      entries <-- pair_loop hypers max_atoms (S i) rest ;;
      lift (Ok (entry :: entries))
  end.

(** [data[..., lm_slice]] on a rank 3 array. *)
Definition slice_last (data : ndarray V) (lm_slice : Z * Z) : result (ndarray V) :=
  match shape data with
  | [d0; d1; d2] =>
      let '(first, count) := clip d2 lm_slice in
      Ok {| shape := [d0; d1; count];
            flat :=
              flat_map (fun i =>
                flat_map (fun n =>
                  map (fun k => at3 d1 d2 (flat data) i n (first + k)) (seq 0 count))
                  (seq 0 d1))
                (seq 0 d0) |}
  | _ => Raise IndexError
  end.

Definition pair_sample_names : list string :=
  ["structure"; "center_i"; "center_j"]%string.

(** Lines 251-267: the block of degree [l].  [features] are the labels
    made on lines 217-220, before the calls of the calculator. *)
Definition pair_block (hypers : Hypers) (data : ndarray V) (samples : Labels) (l : Z)
    : result Block :=
  lm_slice <- py_getitem (lm_slices hypers) l ;;
  block_data <- slice_last data lm_slice ;;
  block_data <- swapaxes_1_2 block_data ;;
  component <- Labels_of_list (spherical_harmonics_m l) ;;
  Ok {| bk_values := block_data;
        bk_samples := samples;
        bk_components := [component];
        bk_features := features_labels hypers;
        bk_gradients := [] |}.

(** [RascalPairExpansion.compute] *)
Definition RascalPairExpansion_compute (self_hypers : Hypers) (frames : list Atoms)
    : calc Descriptor :=
  let hypers := self_hypers in
  if compute_gradients hypers then
    lift (Raise (PlainException "Pair expansion with gradient is not implemented"))
  else
    max_atoms <-- lift (py_max (map len frames)) ;;
    let species := range (Z.of_nat max_atoms) in
    let hypers := with_species hypers species in
    let ijframes :=
      map (fun f => with_numbers f (firstn (len f) species)) frames in
    _ <-- lift (SphericalExpansion hypers) ;;
    let degrees := map int32 (range (max_angular hypers + 1)) in
    sparse <-- lift (Labels_of_list {| lb_names := ["spherical_harmonics_l"%string];
                                       lb_values := map (fun l => [l]) degrees |}) ;;
    _ <-- lift (Labels_of_list (features_labels hypers)) ;;
    entries <-- pair_loop hypers max_atoms 0 ijframes ;;
    lift (data <- np_concatenate (map fst entries) ;;
          let samples :=
            {| lb_names := pair_sample_names;
               lb_values := map (map int32) (concat (map snd entries)) |} in
          blocks <- mapM (pair_block hypers data samples) degrees ;;
          Ok {| sparse := sparse; blocks := blocks |}).

(** ** Runs of the builders, taken apart *)

Lemma cbind_Ok (A B : Type) (c : calc A) (k : A -> calc B)
    (log log' : list transform_arg) (b : B) :
  cbind c k log = (Ok b, log') ->
  exists a log1, c log = (Ok a, log1) /\ k a log1 = (Ok b, log').
Proof.
  unfold cbind. destruct (c log) as [[a | e] log1]; intros H.
  - exists a, log1. auto.
  - discriminate.
Qed.

Lemma lift_Ok (A : Type) (r : result A) (log log' : list transform_arg) (a : A) :
  lift r log = (Ok a, log') -> r = Ok a /\ log' = log.
Proof. unfold lift. intros H. inv_Ok H. auto. Qed.

Lemma Labels_of_list_Ok (labels made : Labels) :
  Labels_of_list labels = Ok made -> made = labels /\ lb_values labels <> [].
Proof.
  unfold Labels_of_list. destruct (lb_values labels); [discriminate |].
  intros H. inv_Ok H. split; [reflexivity | discriminate].
Qed.

Lemma Labels_of_list_total (labels : Labels) :
  lb_values labels <> [] -> Labels_of_list labels = Ok labels.
Proof.
  unfold Labels_of_list. destruct (lb_values labels); [contradiction | reflexivity].
Qed.

Lemma Labels_of_list_empty (labels : Labels) :
  lb_values labels = [] ->
  Labels_of_list labels = Raise (ValueError "values parameter must be a 2D array").
Proof. unfold Labels_of_list. intros ->. reflexivity. Qed.

Lemma spherical_harmonics_m_rows (l : Z) :
  (0 <= l)%Z -> lb_values (spherical_harmonics_m l) <> [].
Proof.
  intros Hl. unfold spherical_harmonics_m, range2. cbn [lb_values].
  replace (Z.to_nat (l + 1 - - l)) with (S (Z.to_nat (2 * l))) by lia.
  discriminate.
Qed.

Lemma transform_Ok (hypers : Hypers) (arg : transform_arg)
    (log log' : list transform_arg) (manager : Manager) :
  transform hypers arg log = (Ok manager, log') ->
  rascal hypers arg = Ok manager /\ log' = log ++ [arg].
Proof. unfold transform. intros H. inv_Ok H. auto. Qed.

(** The species of the keys are the distinct atomic numbers of the
    frames, in increasing order. *)
Lemma insert_species_In (x z : Z) (l : list Z) :
  In z (insert_species x l) <-> z = x \/ In z l.
Proof.
  induction l as [| y l IH]; simpl.
  - intuition.
  - destruct (Z.ltb_spec x y); simpl; [intuition |].
    destruct (Z.eqb_spec x y); simpl.
    + subst. intuition.
    + rewrite IH. intuition.
Qed.

Lemma insert_species_sorted (x : Z) (l : list Z) :
  Sorted.StronglySorted Z.lt l -> Sorted.StronglySorted Z.lt (insert_species x l).
Proof.
  induction 1 as [| y l Hs IH Hall]; simpl.
  - constructor; constructor.
  - destruct (Z.ltb_spec x y).
    + constructor; [constructor; assumption |].
      constructor; [assumption |].
      eapply Forall_impl; [| exact Hall]. intros; lia.
    + destruct (Z.eqb_spec x y); [constructor; assumption |].
      constructor; [assumption |].
      apply Forall_forall. intros z Hz. apply insert_species_In in Hz.
      destruct Hz as [-> | Hz]; [lia |].
      rewrite Forall_forall in Hall. auto.
Qed.

Lemma unique_species_In (all_numbers : list Z) (z : Z) :
  In z (unique_species all_numbers) <-> In z all_numbers.
Proof.
  unfold unique_species. induction all_numbers as [| x l IH]; simpl.
  - reflexivity.
  - rewrite insert_species_In, IH. intuition.
Qed.

Lemma unique_species_sorted (all_numbers : list Z) :
  Sorted.StronglySorted Z.lt (unique_species all_numbers).
Proof.
  unfold unique_species. induction all_numbers as [| x l IH]; simpl.
  - constructor.
  - apply insert_species_sorted. assumption.
Qed.

Lemma strictly_sorted_NoDup (l : list Z) :
  Sorted.StronglySorted Z.lt l -> NoDup l.
Proof.
  induction 1 as [| y l Hs IH Hall]; constructor; [| assumption].
  intros Hin. rewrite Forall_forall in Hall. specialize (Hall _ Hin). lia.
Qed.

Lemma length_sparse_keys (hypers : Hypers) (species : list Z) :
  length (sparse_keys hypers species)
  = Z.to_nat (max_angular hypers + 1) * (length species * length species).
Proof.
  unfold sparse_keys.
  rewrite (length_flat_map_uniform _ _ _ (length species * length species)).
  - unfold range. rewrite length_map, length_seq. reflexivity.
  - intros l. apply length_flat_map_uniform. intros cs. apply length_map.
Qed.

Lemma In_sparse_keys (hypers : Hypers) (species : list Z) (key : Z * Z * Z) :
  In key (sparse_keys hypers species) <->
  exists l cs ns,
    (0 <= l <= max_angular hypers)%Z /\ In cs species /\ In ns species /\
    key = (int32 l, int32 cs, int32 ns).
Proof.
  unfold sparse_keys, range. rewrite in_flat_map. split.
  - intros (l & Hl & Hin). apply in_flat_map in Hin. destruct Hin as (cs & Hcs & Hin).
    apply in_map_iff in Hin. destruct Hin as (ns & <- & Hns).
    apply in_map_iff in Hl. destruct Hl as (n & <- & Hn). apply in_seq in Hn.
    exists (Z.of_nat n), cs, ns. repeat split; auto; lia.
  - intros (l & cs & ns & Hl & Hcs & Hns & ->).
    exists l. split.
    + apply in_map_iff. exists (Z.to_nat l). split; [lia |]. apply in_seq. lia.
    + apply in_flat_map. exists cs. split; [assumption |].
      apply in_map_iff. exists ns. auto.
Qed.

Lemma compute_Ok (self_hypers : Hypers) (frames : list Atoms)
    (log log' : list transform_arg) (d : Descriptor) :
  RascalSphericalExpansion_compute self_hypers frames log = (Ok d, log') ->
  let species := unique_species (flat_map numbers frames) in
  let hypers := with_species self_hypers species in
  frames <> [] /\
  log' = log ++ [Frames frames] /\
  exists manager,
    rascal hypers (Frames frames) = Ok manager /\
    build hypers species frames manager = Ok d.
Proof.
  unfold RascalSphericalExpansion_compute. intros H.
  apply cbind_Ok in H. destruct H as (all_numbers & log1 & H1 & H).
  apply lift_Ok in H1. destruct H1 as [H1 ->].
  destruct frames as [| f frames]; [discriminate |]. inv_Ok H1.
  apply cbind_Ok in H. destruct H as (built & log0 & H0 & H).
  apply lift_Ok in H0. destruct H0 as [_ ->].
  apply cbind_Ok in H. destruct H as (manager & log2 & H2 & H).
  apply transform_Ok in H2. destruct H2 as [H2 ->].
  apply lift_Ok in H. destruct H as [H ->].
  simpl. split; [discriminate |]. split; [reflexivity |].
  exists manager. auto.
Qed.

Lemma build_Ok (hypers : Hypers) (species : list Z) (frames : list Atoms)
    (manager : Manager) (d : Descriptor) :
  build hypers species frames manager = Ok d ->
  sparse d = sparse_labels (sparse_keys hypers species) /\
  exists data gradients,
    Forall2 (fun key block =>
               build_block hypers species data gradients
                 (get_representation_info manager) (get_gradients_info manager)
                 (global_to_per_structure_atom_id frames) key = Ok block)
            (sparse_keys hypers species) (blocks d).
Proof.
  unfold build. intros H.
  bind_inv H as sp Hsp. apply Labels_of_list_Ok in Hsp. destruct Hsp as [-> _].
  bind_inv H as ft Hft.
  bind_inv H as d0 Hd0. bind_inv H as data Hdata.
  bind_inv H as g0 Hg0. bind_inv H as gradients Hgradients.
  bind_inv H as bs Hbs. inv_Ok H. simpl.
  split; [reflexivity |]. exists data, gradients.
  apply mapM_Forall2. assumption.
Qed.

(** The fields of a block that [build_block] returns. *)
Lemma build_block_Ok (hypers : Hypers) (species : list Z)
    (data gradients : ndarray V) (info : list center_info)
    (grad_info : list gradient_info) (atom_id : list Z)
    (l center_species neighbor_species : Z) (block : Block) :
  build_block hypers species data gradients info grad_info atom_id
    (l, center_species, neighbor_species) = Ok block ->
  let samples :=
    map (fun ir => (int32 (ci_structure (snd ir)), int32 (ci_center (snd ir))))
        (where_rows (fun row => (ci_species row =? center_species)%Z) info) in
  lb_names (bk_samples block) = ["structure"; "center"]%string /\
  mapM (fun sc => center <- py_getitem atom_id (snd sc) ;;
                  Ok [int32 (fst sc); int32 center])
       samples = Ok (lb_values (bk_samples block)) /\
  bk_components block = [spherical_harmonics_m l] /\
  bk_features block = features_labels hypers /\
  lb_values (bk_samples block) <> [] /\
  exists neighbor_species_i lm_slice,
    list_index species neighbor_species = Ok neighbor_species_i /\
    py_getitem (lm_slices hypers) l = Ok lm_slice /\
    if compute_gradients hypers then
      exists entries g,
        gradient_entries gradients grad_info atom_id neighbor_species
          neighbor_species_i lm_slice samples = Ok entries /\
        block_gradient_of entries (spherical_harmonics_m l) (features_labels hypers)
          = Ok g /\
        bk_gradients block = [("positions"%string, g)]
    else bk_gradients block = [].
Proof.
  unfold build_block. intros H.
  bind_inv H as nsi Hnsi. bind_inv H as lm_slice Hslice.
  bind_inv H as bd0 Hbd0. bind_inv H as bd Hbd.
  bind_inv H as sc Hsc. apply Labels_of_list_Ok in Hsc. destruct Hsc as [-> _].
  bind_inv H as grads Hgrads. bind_inv H as rows Hrows.
  bind_inv H as sm Hsm. apply Labels_of_list_Ok in Hsm. destruct Hsm as [-> Hsm].
  inv_Ok H. cbn [bk_samples bk_components bk_features bk_gradients lb_names lb_values] in *.
  split; [reflexivity |]. split; [assumption |]. split; [reflexivity |].
  split; [reflexivity |]. split; [assumption |].
  exists nsi, lm_slice. split; [assumption |]. split; [assumption |].
  destruct (compute_gradients hypers).
  - bind_inv Hgrads as entries Hentries. bind_inv Hgrads as g Hg. inv_Ok Hgrads.
    exists entries, g. auto.
  - inv_Ok Hgrads. reflexivity.
Qed.

(** ** The builders return on the output of a sound calculator *)

Lemma mapM_total_Forall (A B : Type) (f : A -> result B) (P : B -> Prop) (l : list A) :
  (forall a, In a l -> exists b, f a = Ok b /\ P b) ->
  exists bs, mapM f l = Ok bs /\ Forall P bs.
Proof.
  induction l as [| a l IH]; simpl; intros H.
  - exists []. split; [reflexivity | constructor].
  - destruct (H a (or_introl eq_refl)) as (b & Hb & HP).
    destruct IH as (bs & Hbs & HPs); [intros; apply H; auto |].
    exists (b :: bs). rewrite Hb; simpl. rewrite Hbs. split; [reflexivity |].
    constructor; assumption.
Qed.

Lemma list_index_total (l : list Z) (x : Z) :
  In x l -> exists i, list_index l x = Ok i /\ i < length l.
Proof.
  induction l as [| y l IH]; simpl; intros Hin; [destruct Hin |].
  destruct (Z.eqb_spec y x) as [| Hne].
  - exists 0. split; [reflexivity | lia].
  - destruct Hin as [-> | Hin]; [contradiction |].
    destruct (IH Hin) as (i & -> & Hi). exists (S i). split; [reflexivity | lia].
Qed.

Lemma lm_slices_from_nth (n a k : nat) :
  k < n ->
  nth_error (lm_slices_from (Z.of_nat a * Z.of_nat a) (map Z.of_nat (seq a n))) k
  = Some (Z.of_nat (a + k) * Z.of_nat (a + k),
          (Z.of_nat (a + k) + 1) * (Z.of_nat (a + k) + 1))%Z.
Proof.
  revert a k. induction n as [| n IH]; intros a k Hk; [lia |].
  cbn [seq map lm_slices_from]. destruct k as [| k]; cbn [nth_error].
  - rewrite Nat.add_0_r. f_equal. apply f_equal2; ring.
  - replace (Z.of_nat a * Z.of_nat a + 2 * Z.of_nat a + 1)%Z
      with (Z.of_nat (S a) * Z.of_nat (S a))%Z by lia.
    rewrite IH by lia. replace (S a + k) with (a + S k) by lia. reflexivity.
Qed.

Lemma lm_slices_getitem (hypers : Hypers) (l : Z) :
  (0 <= l <= max_angular hypers)%Z ->
  py_getitem (lm_slices hypers) l = Ok (l * l, (l + 1) * (l + 1))%Z.
Proof.
  intros Hl. rewrite <- (Z2Nat.id l) at 1 by lia. apply py_getitem_nat.
  unfold lm_slices, range. change 0%Z with (Z.of_nat 0 * Z.of_nat 0)%Z.
  rewrite lm_slices_from_nth by lia. simpl. rewrite Z2Nat.id by lia. reflexivity.
Qed.

Lemma where_rows_In (A : Type) (p : A -> bool) (rows : list A) (i : nat) (r : A) :
  In (i, r) (where_rows p rows) -> i < length rows /\ In r rows /\ p r = true.
Proof.
  unfold where_rows. intros H. apply filter_In in H. destruct H as [H Hp].
  split; [| split; [| exact Hp]].
  - apply in_combine_l in H. apply in_seq in H. lia.
  - apply in_combine_r in H. exact H.
Qed.

Lemma select_block_total (data : ndarray V) (mask : list nat)
    (neighbor_species_i : nat) (lm_slice : Z * Z) (c ns nr lm : nat) :
  shape data = [c; ns; nr; lm] ->
  Forall (fun i => i < c) mask ->
  neighbor_species_i < ns ->
  exists b,
    select_block data mask neighbor_species_i lm_slice = Ok b /\
    shape b = [length mask; nr; snd (clip lm lm_slice)] /\
    length (flat b) = length mask * (nr * snd (clip lm lm_slice)).
Proof.
  intros Hs Hmask Hn. unfold select_block. rewrite Hs.
  replace (forallb (fun i => i <? c) mask) with true.
  - destruct (Nat.ltb_spec neighbor_species_i ns); [| lia]. simpl.
    destruct (clip lm lm_slice) as [first count]. eexists.
    split; [reflexivity |]. simpl. split; [reflexivity |].
    apply length_flat_map_uniform. intros i.
    apply length_flat_map_seq. intros n. rewrite length_map, length_seq. reflexivity.
  - symmetry. apply forallb_forall. intros i Hi.
    rewrite Forall_forall in Hmask. apply Nat.ltb_lt. auto.
Qed.

Lemma clip_rows (d start : nat) :
  start + 3 <= d -> clip d (Z.of_nat start, Z.of_nat (start + 3)) = (start, 3).
Proof.
  intros H. unfold clip. cbn [fst snd]. rewrite !Nat2Z.id.
  rewrite !Nat.min_l by lia. f_equal. lia.
Qed.

Lemma gradient_entry_total (gradients : ndarray V) (atom_id : list Z)
    (neighbor_species_i : nat) (lm_slice : Z * Z) (sample_i grad_index : nat)
    (row : gradient_info) (g0 ns nr glm : nat) :
  shape gradients = [g0; ns; nr; glm] ->
  neighbor_species_i < ns ->
  3 * grad_index + 3 <= g0 ->
  0 < nr ->
  0 < snd (clip glm lm_slice) ->
  (0 <= gi_neighbor row < Z.of_nat (length atom_id))%Z ->
  exists o,
    gradient_entry gradients atom_id neighbor_species_i lm_slice
      sample_i grad_index row = Ok o /\
    forall e, o = Some e ->
      shape (fst e) = [1; 3; snd (clip glm lm_slice); nr] /\
      vnorm_is_zero (flat (fst e)) = false.
Proof.
  intros Hs Hn Hg Hnr Hcount Hneighbor. unfold gradient_entry.
  rewrite Hs. cbn [hd]. rewrite clip_rows by lia.
  destruct (select_block_total gradients (seq (3 * grad_index) 3) neighbor_species_i
              lm_slice _ _ _ _ Hs) as (b & -> & Hb & Hlb); [| assumption |].
  { apply Forall_forall. intros i Hi. apply in_seq in Hi. lia. }
  rewrite length_seq in Hb, Hlb. cbn [bind].
  destruct (swapaxes_1_2_total b _ _ _ Hb) as (b' & -> & Hb' & Hlb'). cbn [bind].
  unfold reshape_gradient. rewrite Hb'. cbn [nth].
  rewrite (infer_dim_total _ _ 1); [| nia | rewrite Hlb'; ring]. cbn [bind flat].
  destruct (vnorm_is_zero (flat b')) eqn:Hz.
  - exists None. split; [reflexivity | discriminate].
  - destruct (py_getitem_total _ atom_id _ Hneighbor) as (neighbor & -> & _).
    cbn [bind]. eexists. split; [reflexivity |].
    intros e He. inv_Ok He. simpl. auto.
Qed.

Lemma list_eqb_nat_refl (l : list nat) : list_eqb Nat.eqb l l = true.
Proof.
  induction l as [| n l IH]; simpl; [reflexivity |].
  rewrite Nat.eqb_refl, IH. reflexivity.
Qed.

Lemma gradient_entries_total (gradients : ndarray V) (grad_info : list gradient_info)
    (atom_id : list Z) (neighbor_species : Z) (neighbor_species_i : nat)
    (lm_slice : Z * Z) (samples : list (Z * Z)) (g0 ns nr glm : nat) :
  shape gradients = [g0; ns; nr; glm] ->
  neighbor_species_i < ns ->
  3 * length grad_info <= g0 ->
  0 < nr ->
  0 < snd (clip glm lm_slice) ->
  Forall (fun row => (0 <= gi_neighbor row < Z.of_nat (length atom_id))%Z) grad_info ->
  exists entries,
    gradient_entries gradients grad_info atom_id neighbor_species neighbor_species_i
      lm_slice samples = Ok entries /\
    Forall (fun e => shape (fst e) = [1; 3; snd (clip glm lm_slice); nr] /\
                     vnorm_is_zero (flat (fst e)) = false) entries.
Proof.
  intros Hs Hn Hg Hnr Hcount Hneighbor. unfold gradient_entries.
  set (P := fun e : ndarray V * list Z =>
              shape (fst e) = [1; 3; snd (clip glm lm_slice); nr] /\
              vnorm_is_zero (flat (fst e)) = false).
  destruct (mapM_total_Forall _ _
              (fun ix => sample_gradients gradients grad_info atom_id neighbor_species
                           neighbor_species_i lm_slice (fst ix) (snd ix))
              (Forall P)
              (combine (seq 0 (length samples)) samples)) as (per_sample & -> & Hall).
  - intros [sample_i [structure center]] _. unfold sample_gradients. cbn [fst snd].
    match goal with
    | |- context [mapM ?f ?l] =>
        destruct (mapM_total_Forall _ _ f
                    (fun o => forall e, o = Some e -> P e) l) as (entries & -> & He)
    end.
    + intros [grad_index row] Hin. apply where_rows_In in Hin.
      destruct Hin as (Hi & Hrow & _). cbn [fst snd].
      rewrite Forall_forall in Hneighbor.
      eapply gradient_entry_total; eauto; lia.
    + cbn [bind]. eexists. split; [reflexivity |].
      induction He as [| o os Ho _ IH]; simpl; [constructor |].
      apply Forall_app. split; [| exact IH].
      destruct o as [e |]; simpl; [| constructor].
      constructor; [apply Ho; reflexivity | constructor].
  - cbn [bind]. eexists. split; [reflexivity |].
    induction Hall as [| es ess Hes _ IH]; simpl; [constructor |].
    apply Forall_app. split; assumption.
Qed.

Lemma block_gradient_of_total (entries : list (ndarray V * list Z))
    (spherical_component features : Labels) (sh : list nat) :
  Forall (fun e => shape (fst e) = sh) entries ->
  exists g, block_gradient_of entries spherical_component features = Ok g.
Proof.
  intros Hall. unfold block_gradient_of.
  destruct entries as [| e entries]; [eexists; reflexivity |].
  unfold np_concatenate. cbn [map].
  replace (forallb _ (map fst entries)) with true.
  - eexists. reflexivity.
  - symmetry. apply forallb_forall. intros b Hb.
    apply in_map_iff in Hb. destruct Hb as (e' & <- & He').
    rewrite Forall_forall in Hall.
    rewrite (Hall e (or_introl eq_refl)), (Hall e' (or_intror He')).
    apply list_eqb_nat_refl.
Qed.

Lemma clip_lm (hypers : Hypers) (l : Z) (glm : nat) :
  (0 <= l <= max_angular hypers)%Z ->
  Z.to_nat ((max_angular hypers + 1) * (max_angular hypers + 1)) <= glm ->
  snd (clip glm (l * l, (l + 1) * (l + 1))%Z) = Z.to_nat (2 * l + 1).
Proof.
  intros Hl Hglm. unfold clip. cbn [fst snd].
  assert (H1 : (0 <= l * l <= (l + 1) * (l + 1))%Z) by nia.
  assert (H2 : ((l + 1) * (l + 1)
                <= (max_angular hypers + 1) * (max_angular hypers + 1))%Z) by nia.
  rewrite !Nat.min_l by lia.
  rewrite <- Z2Nat.inj_sub by lia. f_equal. ring.
Qed.

(** The total number of atoms of the frames. *)
Definition n_atoms (frames : list Atoms) : nat :=
  length (global_to_per_structure_atom_id frames).

(** What the builder needs from its own input. *)
Record sound_input (hypers : Hypers) (frames : list Atoms) : Prop := {
  si_angular : (0 <= max_angular hypers < 2 ^ 31)%Z;
  si_radial : (0 < max_radial hypers)%Z;
  si_atoms : flat_map numbers frames <> [];
  si_numbers : Forall (fun z => (- 2 ^ 31 <= z < 2 ^ 31)%Z) (flat_map numbers frames);
  si_count : (Z.of_nat (n_atoms frames) < 2 ^ 31)%Z
}.

(** What the builder needs from the calculator: one row of features
    and of metadata per center, with features for each species, radial
    index and angular component; centers and neighbors that are atoms
    of the frames; a gradient array of the same layout, with at least
    one row since the builder reshapes it whether or not gradients are
    computed, and, when they are, three rows of it per row of gradient
    metadata and all [(L_max + 1)^2] angular components. *)
Record sound_output (hypers : Hypers) (species : list Z) (frames : list Atoms)
    (manager : Manager) : Prop := {
  so_features :
    exists lm,
      shape (get_features manager)
      = [length (get_representation_info manager);
         length species * (Z.to_nat (max_radial hypers) * lm)] /\
      length (flat (get_features manager))
      = length (get_representation_info manager)
        * (length species * (Z.to_nat (max_radial hypers) * lm));
  so_centers : get_representation_info manager <> [];
  so_center_ids :
    Forall (fun row => (0 <= ci_center row < Z.of_nat (n_atoms frames))%Z)
           (get_representation_info manager);
  so_gradients :
    exists g0 glm,
      g0 <> 0 /\
      shape (get_features_gradient manager)
      = [g0; length species * (Z.to_nat (max_radial hypers) * glm)] /\
      length (flat (get_features_gradient manager))
      = g0 * (length species * (Z.to_nat (max_radial hypers) * glm)) /\
      (compute_gradients hypers = true ->
       3 * length (get_gradients_info manager) <= g0 /\
       Z.to_nat ((max_angular hypers + 1) * (max_angular hypers + 1)) <= glm);
  so_neighbors :
    compute_gradients hypers = true ->
    Forall (fun row => (0 <= gi_neighbor row < Z.of_nat (n_atoms frames))%Z)
           (get_gradients_info manager)
}.

Lemma mapM_total_Forall2 (A B : Type) (f : A -> result B) (R : A -> B -> Prop)
    (l : list A) :
  (forall a, In a l -> exists b, f a = Ok b /\ R a b) ->
  exists bs, mapM f l = Ok bs /\ Forall2 R l bs.
Proof.
  induction l as [| a l IH]; simpl; intros H.
  - exists []. split; [reflexivity | constructor].
  - destruct (H a (or_introl eq_refl)) as (b & Hb & HR).
    destruct IH as (bs & Hbs & HRs); [intros; apply H; auto |].
    exists (b :: bs). rewrite Hb; simpl. rewrite Hbs. split; [reflexivity |].
    constructor; assumption.
Qed.

(** The first element that fails decides the exception. *)
Lemma mapM_Raise (A B : Type) (f : A -> result B) (l : list A) (e : exn) :
  (forall a, In a l -> (exists b, f a = Ok b) \/ f a = Raise e) ->
  (exists a, In a l /\ f a = Raise e) ->
  mapM f l = Raise e.
Proof.
  induction l as [| a l IH]; simpl; intros Hall (x & Hx & Hfx).
  - destruct Hx.
  - destruct (Hall a (or_introl eq_refl)) as [(b & Hb) | Ha].
    + rewrite Hb. cbn [bind]. rewrite IH; [reflexivity | intros; apply Hall; auto |].
      destruct Hx as [<- | Hx]; [congruence |]. exists x. auto.
    + rewrite Ha. reflexivity.
Qed.

Lemma where_rows_none (A : Type) (p : A -> bool) (rows : list A) :
  (forall r, In r rows -> p r = false) -> where_rows p rows = [].
Proof.
  unfold where_rows. generalize 0.
  induction rows as [| r rows IH]; intros s H; simpl; [reflexivity |].
  rewrite (H r) by (left; reflexivity). apply IH. intros; apply H; right; assumption.
Qed.

Lemma where_rows_some (A : Type) (p : A -> bool) (rows : list A) (r : A) :
  In r rows -> p r = true -> where_rows p rows <> [].
Proof.
  unfold where_rows. generalize 0.
  induction rows as [| a rows IH]; intros s Hin Hp; simpl; [destruct Hin |].
  destruct Hin as [-> | Hin]; [rewrite Hp; discriminate |].
  destruct (p a); [discriminate | apply IH; assumption].
Qed.

(** The block of a key on a sound output: it is built when a center has
    the center species of the key, and the labels of its samples cannot
    be made when none has. *)
Lemma build_block_total (hypers : Hypers) (species : list Z)
    (data gradients : ndarray V) (info : list center_info)
    (grad_info : list gradient_info) (atom_id : list Z)
    (l cs ns : Z) (d0 nr lm g0 glm : nat) :
  (0 <= l <= max_angular hypers)%Z ->
  (max_angular hypers < 2 ^ 31)%Z ->
  In ns species ->
  Forall (fun z => (- 2 ^ 31 <= z < 2 ^ 31)%Z) species ->
  shape data = [d0; length species; nr; lm] ->
  length info <= d0 ->
  shape gradients = [g0; length species; nr; glm] ->
  Forall (fun row => (0 <= ci_center row < Z.of_nat (length atom_id))%Z) info ->
  (Z.of_nat (length atom_id) < 2 ^ 31)%Z ->
  (compute_gradients hypers = true ->
   3 * length grad_info <= g0 /\ 0 < nr /\
   Z.to_nat ((max_angular hypers + 1) * (max_angular hypers + 1)) <= glm /\
   Forall (fun row => (0 <= gi_neighbor row < Z.of_nat (length atom_id))%Z) grad_info) ->
  (where_rows (fun row => (ci_species row =? int32 cs)%Z) info <> [] ->
   exists block,
     build_block hypers species data gradients info grad_info atom_id
       (int32 l, int32 cs, int32 ns) = Ok block /\
     lb_values (bk_samples block) <> [] /\
     shape (bk_values block)
     = [lb_len (bk_samples block); snd (clip lm (l * l, (l + 1) * (l + 1))%Z); nr]) /\
  (where_rows (fun row => (ci_species row =? int32 cs)%Z) info = [] ->
   build_block hypers species data gradients info grad_info atom_id
     (int32 l, int32 cs, int32 ns)
   = Raise (ValueError "values parameter must be a 2D array")).
Proof.
  intros Hl HL Hns Hspecies Hdata Hinfo Hgradients Hcenters Hcount Hgrad.
  unfold build_block.
  rewrite (int32_small l) by lia.
  rewrite (int32_small ns) by (rewrite Forall_forall in Hspecies; auto).
  destruct (list_index_total species ns Hns) as (nsi & -> & Hnsi). cbn [bind].
  rewrite (lm_slices_getitem hypers l Hl). cbn [bind].
  set (mask := where_rows (fun row => (ci_species row =? int32 cs)%Z) info).
  destruct (select_block_total data (map fst mask) nsi (l * l, (l + 1) * (l + 1))%Z
              _ _ _ _ Hdata) as (b & -> & Hb & _); [| assumption |].
  { apply Forall_forall. intros i Hi. apply in_map_iff in Hi.
    destruct Hi as ([i' r] & <- & Hi). apply where_rows_In in Hi. simpl. lia. }
  cbn [bind].
  destruct (swapaxes_1_2_total b _ _ _ Hb) as (b' & -> & Hb' & _). cbn [bind].
  rewrite (Labels_of_list_total (spherical_harmonics_m l))
    by (apply spherical_harmonics_m_rows; lia).
  cbn [bind].
  match goal with
  | |- context [bind (if compute_gradients hypers then ?c else _) _] =>
      assert (Hg : exists grads, (if compute_gradients hypers then c else Ok []) = Ok grads)
  end.
  { destruct (compute_gradients hypers); [| eexists; reflexivity].
    destruct (Hgrad eq_refl) as (H3 & Hnr & Hglm & Hneighbors).
    match goal with
    | |- context [gradient_entries ?a ?b ?c ?d ?e ?f ?g] =>
        destruct (gradient_entries_total a b c d e f g _ _ _ _ Hgradients)
          as (entries & -> & Hentries); auto
    end.
    { rewrite (clip_lm hypers l glm) by assumption. lia. }
    cbn [bind].
    destruct (block_gradient_of_total entries (spherical_harmonics_m l)
                (features_labels hypers)
                [1; 3; snd (clip glm (l * l, (l + 1) * (l + 1))%Z); nr])
      as (g & ->).
    - eapply Forall_impl; [| exact Hentries]. intros e [He _]. exact He.
    - cbn [bind]. eexists. reflexivity. }
  destruct Hg as (grads & ->). cbn [bind].
  match goal with
  | |- context [mapM ?f ?l] =>
      destruct (mapM_total _ _ f l) as (rows & Hrows)
  end.
  { intros [s c] Hin. apply in_map_iff in Hin.
    destruct Hin as ([i r] & Heq & Hin). inv_Ok Heq.
    apply where_rows_In in Hin. destruct Hin as (_ & Hr & _).
    rewrite Forall_forall in Hcenters. specialize (Hcenters _ Hr). cbn [fst snd].
    rewrite (int32_small (ci_center r)) by lia.
    destruct (py_getitem_total _ atom_id _ Hcenters) as (center & -> & _).
    cbn [bind]. eexists. reflexivity. }
  rewrite Hrows. cbn [bind].
  pose proof (mapM_length _ _ _ _ _ Hrows) as Hlen. rewrite length_map in Hlen.
  split.
  - intros Hne.
    assert (Hrne : rows <> []).
    { intros ->. destruct mask; [contradiction | discriminate]. }
    rewrite Labels_of_list_total by exact Hrne. cbn [bind].
    eexists. split; [reflexivity |].
    cbn [bk_samples bk_values lb_values]. split; [exact Hrne |].
    unfold lb_len. cbn [lb_values]. rewrite Hb', Hlen, length_map. reflexivity.
  - intros He. rewrite Labels_of_list_empty; [reflexivity |].
    cbn [lb_values]. rewrite He in Hlen. destruct rows; [reflexivity | discriminate].
Qed.

(** The features hold all [(L_max + 1)^2] angular components. *)
Definition all_components (hypers : Hypers) (species : list Z) (manager : Manager)
    : Prop :=
  length (flat (get_features manager))
  = length (get_representation_info manager)
    * (length species
       * (Z.to_nat (max_radial hypers)
          * Z.to_nat ((max_angular hypers + 1) * (max_angular hypers + 1)))).

(** What a block of the result holds for its key. *)
Definition block_of_key (hypers : Hypers) (key : Z * Z * Z) (block : Block) : Prop :=
  lb_values (bk_samples block) <> [] /\
  shape (bk_values block)
  = [lb_len (bk_samples block); Z.to_nat (2 * fst (fst key) + 1);
     Z.to_nat (max_radial hypers)].

Lemma build_total (hypers : Hypers) (species : list Z) (frames : list Atoms)
    (manager : Manager) :
  (0 <= max_angular hypers < 2 ^ 31)%Z ->
  (0 < max_radial hypers)%Z ->
  species <> [] ->
  Forall (fun z => (- 2 ^ 31 <= z < 2 ^ 31)%Z) species ->
  (Z.of_nat (n_atoms frames) < 2 ^ 31)%Z ->
  sound_output hypers species frames manager ->
  all_components hypers species manager ->
  ((forall cs, In cs species ->
      exists row, In row (get_representation_info manager) /\ ci_species row = cs) ->
   exists d,
     build hypers species frames manager = Ok d /\
     Forall2 (block_of_key hypers) (sparse_keys hypers species) (blocks d)) /\
  ((exists cs, In cs species /\
      forall row, In row (get_representation_info manager) -> ci_species row <> cs) ->
   build hypers species frames manager
   = Raise (ValueError "values parameter must be a 2D array")).
Proof.
  intros HL HN Hne Hspecies Hcount [Hf Hc Hids Hg Hnb] Hall.
  destruct Hf as (lm & Hfs & Hfl).
  destruct Hg as (g0 & glm & Hg0 & Hgs & Hgl & Hgrad).
  unfold all_components in Hall.
  set (d0 := length (get_representation_info manager)) in *.
  set (nr := Z.to_nat (max_radial hypers)) in *.
  assert (Hd0 : d0 <> 0) by (subst d0; destruct (get_representation_info manager);
                             [contradiction | discriminate]).
  assert (Hs0 : length species <> 0) by (destruct species; [contradiction | discriminate]).
  assert (Hnr : nr <> 0) by (subst nr; lia).
  assert (Hlm : lm = Z.to_nat ((max_angular hypers + 1) * (max_angular hypers + 1))).
  { rewrite Hfl in Hall.
    apply Nat.mul_cancel_l in Hall; [| assumption].
    apply Nat.mul_cancel_l in Hall; [| assumption].
    apply Nat.mul_cancel_l in Hall; assumption. }
  assert (Hkeys : lb_values (sparse_labels (sparse_keys hypers species)) <> []).
  { unfold sparse_labels. cbn [lb_values]. intros Hnil.
    apply (f_equal (@length _)) in Hnil. rewrite length_map, length_sparse_keys in Hnil.
    cbn [length] in Hnil. nia. }
  assert (Hfeatures : lb_values (features_labels hypers) <> []).
  { unfold features_labels, range. cbn [lb_values]. fold nr.
    destruct nr; [contradiction | discriminate]. }
  unfold build.
  rewrite (Labels_of_list_total _ Hkeys). cbn [bind].
  rewrite (Labels_of_list_total _ Hfeatures). cbn [bind].
  rewrite Hfs. change 0%Z with (Z.of_nat 0).
  rewrite (py_getitem_nat _ _ 0 d0) by reflexivity. cbn [bind].
  rewrite (reshape_last_total _ (get_features manager) lm).
  2: { repeat constructor; lia. }
  2: { cbn [map size fold_right]. rewrite !Nat2Z.id. fold nr. nia. }
  2: { cbn [map size fold_right]. rewrite !Nat2Z.id. fold nr. rewrite Hfl. ring. }
  cbn [bind]. rewrite Hgs.
  rewrite (py_getitem_nat _ _ 0 g0) by reflexivity. cbn [bind].
  rewrite (reshape_last_total _ (get_features_gradient manager) glm).
  2: { repeat constructor; lia. }
  2: { cbn [map size fold_right]. rewrite !Nat2Z.id. fold nr. nia. }
  2: { cbn [map size fold_right]. rewrite !Nat2Z.id. fold nr. rewrite Hgl. ring. }
  cbn [bind].
  assert (Hblock : forall l cs ns,
             (0 <= l <= max_angular hypers)%Z -> In cs species -> In ns species ->
             (where_rows (fun row => (ci_species row =? int32 cs)%Z)
                (get_representation_info manager) <> [] ->
              exists block,
                build_block hypers species
                  {| shape := map Z.to_nat
                                [Z.of_nat d0; Z.of_nat (length species); max_radial hypers]
                              ++ [lm];
                     flat := flat (get_features manager) |}
                  {| shape := map Z.to_nat
                                [Z.of_nat g0; Z.of_nat (length species); max_radial hypers]
                              ++ [glm];
                     flat := flat (get_features_gradient manager) |}
                  (get_representation_info manager) (get_gradients_info manager)
                  (global_to_per_structure_atom_id frames)
                  (int32 l, int32 cs, int32 ns) = Ok block /\
                block_of_key hypers (int32 l, int32 cs, int32 ns) block) /\
             (where_rows (fun row => (ci_species row =? int32 cs)%Z)
                (get_representation_info manager) = [] ->
              build_block hypers species
                {| shape := map Z.to_nat
                              [Z.of_nat d0; Z.of_nat (length species); max_radial hypers]
                            ++ [lm];
                   flat := flat (get_features manager) |}
                {| shape := map Z.to_nat
                              [Z.of_nat g0; Z.of_nat (length species); max_radial hypers]
                            ++ [glm];
                   flat := flat (get_features_gradient manager) |}
                (get_representation_info manager) (get_gradients_info manager)
                (global_to_per_structure_atom_id frames)
                (int32 l, int32 cs, int32 ns)
              = Raise (ValueError "values parameter must be a 2D array"))).
  { intros l cs ns Hl Hcs Hns.
    destruct (build_block_total hypers species
                {| shape := map Z.to_nat
                              [Z.of_nat d0; Z.of_nat (length species); max_radial hypers]
                            ++ [lm];
                   flat := flat (get_features manager) |}
                {| shape := map Z.to_nat
                              [Z.of_nat g0; Z.of_nat (length species); max_radial hypers]
                            ++ [glm];
                   flat := flat (get_features_gradient manager) |}
                (get_representation_info manager) (get_gradients_info manager)
                (global_to_per_structure_atom_id frames)
                l cs ns d0 nr lm g0 glm) as [Hok Hraise]; try assumption; try lia.
    - cbn [map app shape]. rewrite !Nat2Z.id. reflexivity.
    - cbn [map app shape]. rewrite !Nat2Z.id. reflexivity.
    - intros Hcg. destruct (Hgrad Hcg) as [H3 Hglm].
      split; [assumption |]. split; [lia |]. split; [assumption |]. auto.
    - split; [| exact Hraise].
      intros Hmask. destruct (Hok Hmask) as (block & Hb & Hrows & Hshape).
      exists block. split; [exact Hb |]. split; [exact Hrows |].
      rewrite Hshape. cbn [fst]. rewrite (int32_small l) by lia.
      rewrite (clip_lm hypers l lm Hl) by lia. reflexivity. }
  split.
  - intros Hcenters.
    match goal with
    | |- context [mapM ?f ?l] =>
        destruct (mapM_total_Forall2 _ _ f (block_of_key hypers) l) as (bs & -> & Hbs)
    end.
    + intros key Hkey. apply In_sparse_keys in Hkey.
      destruct Hkey as (l & cs & ns & Hl & Hcs & Hns & ->).
      apply (proj1 (Hblock l cs ns Hl Hcs Hns)).
      destruct (Hcenters cs Hcs) as (row & Hrow & Hsp).
      apply (where_rows_some _ _ _ row Hrow).
      rewrite int32_small by (rewrite Forall_forall in Hspecies; auto).
      apply Z.eqb_eq. exact Hsp.
    + cbn [bind]. eexists. split; [reflexivity | exact Hbs].
  - intros (cs & Hcs & Hnone).
    rewrite (mapM_Raise _ _ _ _ (ValueError "values parameter must be a 2D array"));
      [reflexivity | |].
    + intros key Hkey. apply In_sparse_keys in Hkey.
      destruct Hkey as (l & cs' & ns & Hl & Hcs' & Hns & ->).
      destruct (Hblock l cs' ns Hl Hcs' Hns) as [Hok Hraise].
      destruct (where_rows (fun row => (ci_species row =? int32 cs')%Z)
                  (get_representation_info manager)) eqn:Hmask.
      * right. apply Hraise. reflexivity.
      * left. destruct Hok as (block & Hb & _); [discriminate |]. exists block. exact Hb.
    + destruct species as [| ns species'] eqn:Hsp; [contradiction |].
      exists (int32 0, int32 cs, int32 ns). split.
      * apply In_sparse_keys. exists 0%Z, cs, ns.
        repeat split; auto; try lia. left. reflexivity.
      * apply (proj2 (Hblock 0%Z cs ns ltac:(lia) Hcs ltac:(left; reflexivity))).
        apply where_rows_none. intros r Hr.
        rewrite int32_small by (rewrite Forall_forall in Hspecies; auto).
        apply Z.eqb_neq. apply Hnone. exact Hr.
Qed.

Lemma compute_total (self_hypers : Hypers) (frames : list Atoms)
    (manager : Manager) (log : list transform_arg) :
  let species := unique_species (flat_map numbers frames) in
  let hypers := with_species self_hypers species in
  sound_input self_hypers frames ->
  SphericalExpansion hypers = Ok tt ->
  rascal hypers (Frames frames) = Ok manager ->
  sound_output hypers species frames manager ->
  all_components hypers species manager ->
  ((forall cs, In cs species ->
      exists row, In row (get_representation_info manager) /\ ci_species row = cs) ->
   exists d,
     RascalSphericalExpansion_compute self_hypers frames log
     = (Ok d, log ++ [Frames frames]) /\
     Forall2 (block_of_key hypers) (sparse_keys hypers species) (blocks d)) /\
  ((exists cs, In cs species /\
      forall row, In row (get_representation_info manager) -> ci_species row <> cs) ->
   RascalSphericalExpansion_compute self_hypers frames log
   = (Raise (ValueError "values parameter must be a 2D array"), log ++ [Frames frames])).
Proof.
  intros species hypers [HL HN Hatoms Hnumbers Hcount] Hbuilt Hcall Hout Hall.
  destruct (build_total hypers species frames manager) as [Hok Hraise]; try assumption.
  - subst species. intros Hnil.
    destruct (flat_map numbers frames) as [| z zs] eqn:Hz; [contradiction |].
    assert (Hin : In z (unique_species (z :: zs)))
      by (apply unique_species_In; left; reflexivity).
    rewrite Hnil in Hin. destruct Hin.
  - apply Forall_forall. intros z Hz.
    apply (proj1 (unique_species_In _ _)) in Hz.
    rewrite Forall_forall in Hnumbers. auto.
  - assert (Hrun : RascalSphericalExpansion_compute self_hypers frames log
                   = (build hypers species frames manager, log ++ [Frames frames])).
    { unfold RascalSphericalExpansion_compute, cbind, lift, transform.
      destruct frames as [| f frames]; [contradiction Hatoms; reflexivity |].
      fold species. fold hypers. rewrite Hbuilt, Hcall. reflexivity. }
    rewrite Hrun. split.
    + intros Hcenters. destruct (Hok Hcenters) as (d & -> & Hblocks).
      exists d. split; [reflexivity | exact Hblocks].
    + intros Hnone. rewrite (Hraise Hnone). reflexivity.
Qed.

(** ** One block per key *)

Lemma sparse_keys_small (hypers : Hypers) (species : list Z) :
  (0 <= max_angular hypers < 2 ^ 31)%Z ->
  Forall (fun z => (- 2 ^ 31 <= z < 2 ^ 31)%Z) species ->
  lb_values (sparse_labels (sparse_keys hypers species))
  = flat_map (fun l =>
      flat_map (fun cs => map (fun ns => [l; cs; ns]) species) species)
      (range (max_angular hypers + 1)).
Proof.
  intros HL Hs. unfold sparse_labels, sparse_keys. cbn [lb_values].
  rewrite Forall_forall in Hs.
  rewrite map_flat_map. apply flat_map_ext_In. intros l Hl.
  assert (Hl' : (0 <= l <= max_angular hypers)%Z).
  { unfold range in Hl. apply in_map_iff in Hl.
    destruct Hl as (n & <- & Hn). apply in_seq in Hn. lia. }
  rewrite map_flat_map. apply flat_map_ext_In. intros cs Hcs.
  rewrite map_map. apply map_ext_in. intros ns Hns.
  rewrite (int32_small l), (int32_small cs), (int32_small ns) by (auto; lia).
  reflexivity.
Qed.

(** C3, where the code departs from it.  On the output of a sound
    calculator that returns all [(L_max + 1)^2] angular components,
    [compute] makes one call of the calculator on all frames.  When
    every species of the frames has a center, it returns a descriptor
    with exactly [(L_max + 1) * |S|^2] blocks, where [S] is the set of
    the atomic numbers of the frames: one block for each key
    [(l, center_species, neighbor_species)] of the full cross product,
    in that order, each with at least one sample and with values of the
    shape (samples, [2l + 1], [N_max]).  When a species of the frames
    has no center, there is no block without samples: the labels of the
    samples of such a block cannot be made from the empty list of its
    rows, and the call raises a [ValueError]. *)
Theorem spherical_expansion_one_block_per_key (self_hypers : Hypers)
    (frames : list Atoms) (manager : Manager) (log : list transform_arg) :
  let species := unique_species (flat_map numbers frames) in
  let hypers := with_species self_hypers species in
  sound_input self_hypers frames ->
  SphericalExpansion hypers = Ok tt ->
  rascal hypers (Frames frames) = Ok manager ->
  sound_output hypers species frames manager ->
  all_components hypers species manager ->
  NoDup species /\
  (forall z, In z species <-> exists frame, In frame frames /\ In z (numbers frame)) /\
  ((forall cs, In cs species ->
      exists row, In row (get_representation_info manager) /\ ci_species row = cs) ->
   exists d,
     RascalSphericalExpansion_compute self_hypers frames log
     = (Ok d, log ++ [Frames frames]) /\
     Z.of_nat (length (blocks d))
     = ((max_angular self_hypers + 1)
        * (Z.of_nat (length species) * Z.of_nat (length species)))%Z /\
     lb_values (sparse d)
     = flat_map (fun l =>
         flat_map (fun cs => map (fun ns => [l; cs; ns]) species) species)
         (range (max_angular self_hypers + 1)) /\
     length (lb_values (sparse d)) = length (blocks d) /\
     forall l cs ns block,
       In ([l; cs; ns], block) (combine (lb_values (sparse d)) (blocks d)) ->
       lb_values (bk_samples block) <> [] /\
       shape (bk_values block)
       = [lb_len (bk_samples block); Z.to_nat (2 * l + 1);
          Z.to_nat (max_radial self_hypers)]) /\
  ((exists cs, In cs species /\
      forall row, In row (get_representation_info manager) -> ci_species row <> cs) ->
   RascalSphericalExpansion_compute self_hypers frames log
   = (Raise (ValueError "values parameter must be a 2D array"),
      log ++ [Frames frames])).
Proof.
  intros species hypers Hin Hbuilt Hcall Hout Hall.
  split; [apply strictly_sorted_NoDup, unique_species_sorted |].
  split.
  { intros z. unfold species. rewrite unique_species_In, in_flat_map. reflexivity. }
  destruct (compute_total self_hypers frames manager log Hin Hbuilt Hcall Hout Hall)
    as [Hok Hraise].
  split; [| exact Hraise].
  intros Hcenters. destruct (Hok Hcenters) as (d & Hd & Hkeyed).
  exists d. split; [exact Hd |].
  destruct (compute_Ok _ _ _ _ _ Hd) as (_ & _ & manager' & Hcall' & Hbuild).
  fold species in Hcall', Hbuild. fold hypers in Hcall', Hbuild.
  destruct (build_Ok _ _ _ _ _ Hbuild) as (Hsparse & _).
  destruct Hin as [HL HN Hatoms Hnumbers Hcount].
  assert (Hlen : length (blocks d) = length (sparse_keys hypers species)).
  { symmetry. eapply Forall2_length. exact Hkeyed. }
  assert (Hsmall : Forall (fun z => (- 2 ^ 31 <= z < 2 ^ 31)%Z) species).
  { apply Forall_forall. intros z Hz. apply (proj1 (unique_species_In _ _)) in Hz.
    rewrite Forall_forall in Hnumbers. auto. }
  split; [| split; [| split]].
  - rewrite Hlen, length_sparse_keys. cbn [hypers with_species max_angular]. lia.
  - rewrite Hsparse. apply (sparse_keys_small hypers species); assumption.
  - rewrite Hsparse, Hlen. unfold sparse_labels. cbn [lb_values]. apply length_map.
  - intros l cs ns block Hkb.
    rewrite Hsparse in Hkb. unfold sparse_labels in Hkb. cbn [lb_values] in Hkb.
    rewrite combine_map_fst in Hkb. apply in_map_iff in Hkb.
    destruct Hkb as ([[[l' cs'] ns'] block'] & Heq & Hkb). cbn [fst snd] in Heq.
    inv_Ok Heq.
    exact (Forall2_combine_In _ _ _ _ _ _ _ Hkeyed Hkb).
Qed.

(** ** Local atom indices *)

Lemma length_range (n : Z) : length (range n) = Z.to_nat n.
Proof. unfold range. rewrite length_map, length_seq. reflexivity. Qed.

Lemma nth_error_range (n : Z) (k : nat) :
  k < Z.to_nat n -> nth_error (range n) k = Some (Z.of_nat k).
Proof.
  intros Hk. unfold range. rewrite nth_error_map, nth_error_seq.
  destruct (Nat.ltb_spec k (Z.to_nat n)); [reflexivity | lia].
Qed.

(** The global index of the first atom of structure [s]. *)
Definition first_atom (frames : list Atoms) (s : nat) : nat :=
  n_atoms (firstn s frames).

(** The entry of the table at the global index of the [k]-th atom of
    structure [s] is [k]. *)
Lemma atom_id_local (frames : list Atoms) :
  forall (s : nat) (frame : Atoms) (k : nat),
  nth_error frames s = Some frame ->
  k < len frame ->
  nth_error (global_to_per_structure_atom_id frames) (first_atom frames s + k)
  = Some (Z.of_nat k).
Proof.
  unfold first_atom, n_atoms.
  induction frames as [| f frames IH]; intros s frame k Hs Hk.
  - destruct s; discriminate.
  - destruct s as [| s]; cbn [nth_error] in Hs.
    + inv_Ok Hs. cbn [firstn global_to_per_structure_atom_id flat_map length].
      rewrite nth_error_app1 by (rewrite length_range; lia).
      apply nth_error_range. lia.
    + cbn [firstn global_to_per_structure_atom_id flat_map].
      fold (global_to_per_structure_atom_id (firstn s frames)).
      fold (global_to_per_structure_atom_id frames).
      rewrite length_app, length_range, Nat2Z.id.
      rewrite nth_error_app2 by (rewrite length_range; lia).
      rewrite length_range, Nat2Z.id.
      replace (len f + length (global_to_per_structure_atom_id (firstn s frames)) + k
               - len f)
        with (length (global_to_per_structure_atom_id (firstn s frames)) + k) by lia.
      apply IH with (frame := frame); assumption.
Qed.

(** A row of the metadata of the calculator names a structure and the
    global index of one of its atoms. *)
Definition center_of_frame (frames : list Atoms) (row : center_info) : Prop :=
  (0 <= ci_structure row)%Z /\
  exists frame,
    nth_error frames (Z.to_nat (ci_structure row)) = Some frame /\
    (Z.of_nat (first_atom frames (Z.to_nat (ci_structure row))) <= ci_center row
     < Z.of_nat (first_atom frames (Z.to_nat (ci_structure row)) + len frame))%Z.

(** C4.  Every sample row of every block is a pair (structure, center)
    taken from a row of the metadata of the calculator, in which the
    global atom index has been replaced by the index of the atom within
    its structure: the global index minus the global index of the first
    atom of the structure, at least zero and less than the number of
    atoms of that structure. *)
Theorem spherical_expansion_local_centers (self_hypers : Hypers)
    (frames : list Atoms) (manager : Manager) (log log' : list transform_arg)
    (d : Descriptor) :
  let species := unique_species (flat_map numbers frames) in
  let hypers := with_species self_hypers species in
  RascalSphericalExpansion_compute self_hypers frames log = (Ok d, log') ->
  rascal hypers (Frames frames) = Ok manager ->
  Forall (center_of_frame frames) (get_representation_info manager) ->
  (Z.of_nat (length frames) < 2 ^ 31)%Z ->
  (Z.of_nat (n_atoms frames) < 2 ^ 31)%Z ->
  forall block row,
    In block (blocks d) ->
    In row (lb_values (bk_samples block)) ->
    lb_names (bk_samples block) = ["structure"; "center"]%string /\
    exists r frame,
      In r (get_representation_info manager) /\
      nth_error frames (Z.to_nat (ci_structure r)) = Some frame /\
      row = [ci_structure r;
             ci_center r - Z.of_nat (first_atom frames (Z.to_nat (ci_structure r)))]%Z /\
      (0 <= ci_center r - Z.of_nat (first_atom frames (Z.to_nat (ci_structure r)))
       < Z.of_nat (len frame))%Z.
Proof.
  intros species hypers Hd Hcall Hinfo Hframes Hatoms block row Hblock Hrow.
  destruct (compute_Ok _ _ _ _ _ Hd) as (_ & _ & manager' & Hcall' & Hbuild).
  fold species in Hcall', Hbuild. fold hypers in Hcall', Hbuild.
  rewrite Hcall in Hcall'. injection Hcall' as <-.
  destruct (build_Ok _ _ _ _ _ Hbuild) as (_ & data & gradients & Hblocks).
  destruct (Forall2_In_r _ _ _ _ _ _ Hblocks Hblock) as ([[l cs] ns] & _ & Hkey).
  apply build_block_Ok in Hkey. destruct Hkey as (Hnames & Hrows & _).
  split; [exact Hnames |].
  destruct (mapM_In _ _ _ _ _ _ Hrows Hrow) as ([s c] & Hsc & Hremap).
  apply in_map_iff in Hsc. destruct Hsc as ([i r] & Heq & Hir).
  cbn [fst snd] in Heq. injection Heq as <- <-.
  apply where_rows_In in Hir. destruct Hir as (_ & Hr & _).
  rewrite Forall_forall in Hinfo. destruct (Hinfo r Hr) as (Hs & frame & Hframe & Hc).
  set (first := first_atom frames (Z.to_nat (ci_structure r))) in *.
  set (k := Z.to_nat (ci_center r) - first).
  assert (Hk : k < len frame) by lia.
  pose proof (atom_id_local frames _ frame k Hframe Hk) as Hlocal. fold first in Hlocal.
  assert (Hbound : first + k < n_atoms frames).
  { unfold n_atoms. apply nth_error_Some. rewrite Hlocal. discriminate. }
  assert (Hstructure : Z.to_nat (ci_structure r) < length frames).
  { apply nth_error_Some. rewrite Hframe. discriminate. }
  cbn [fst snd] in Hremap.
  rewrite (int32_small (ci_center r)) in Hremap by lia.
  rewrite (int32_small (ci_structure r)) in Hremap by lia.
  bind_inv Hremap as center Hcenter. inv_Ok Hremap.
  apply py_getitem_nonneg in Hcenter; [| lia].
  replace (Z.to_nat (ci_center r)) with (first + k) in Hcenter by lia.
  rewrite Hlocal in Hcenter. injection Hcenter as <-.
  rewrite (int32_small (Z.of_nat k)) by lia.
  rewrite ?(int32_small (ci_structure r)) by lia.
  exists r, frame. split; [assumption |]. split; [assumption |].
  fold first. split; [f_equal; f_equal; lia | lia].
Qed.

(** ** Gradients of the spherical expansion *)

Lemma gradient_entry_Some (gradients : ndarray V) (atom_id : list Z)
    (neighbor_species_i : nat) (lm_slice : Z * Z) (sample_i grad_index : nat)
    (row : gradient_info) (e : ndarray V * list Z) :
  gradient_entry gradients atom_id neighbor_species_i lm_slice sample_i grad_index row
  = Ok (Some e) ->
  vnorm_is_zero (flat (fst e)) = false.
Proof.
  unfold gradient_entry. destruct (clip _ _) as [first count]. intros H.
  bind_inv H as g Hg. bind_inv H as g' Hg'. bind_inv H as bg Hbg.
  destruct (vnorm_is_zero (flat bg)) eqn:Hz; [discriminate |].
  bind_inv H as neighbor Hn. inv_Ok H. exact Hz.
Qed.

(** The entries collected for a block have a norm different from zero. *)
Lemma gradient_entries_survivors (gradients : ndarray V)
    (grad_info : list gradient_info) (atom_id : list Z) (neighbor_species : Z)
    (neighbor_species_i : nat) (lm_slice : Z * Z) (samples : list (Z * Z))
    (entries : list (ndarray V * list Z)) :
  gradient_entries gradients grad_info atom_id neighbor_species neighbor_species_i
    lm_slice samples = Ok entries ->
  Forall (fun e => vnorm_is_zero (flat (fst e)) = false) entries.
Proof.
  unfold gradient_entries. intros H. bind_inv H as per_sample Hps. inv_Ok H.
  apply Forall_forall. intros e He. apply in_concat in He.
  destruct He as (es & Hes & He).
  destruct (mapM_In _ _ _ _ _ _ Hps Hes) as ([sample_i [structure center]] & _ & Hsg).
  unfold sample_gradients in Hsg. cbn [fst snd] in Hsg.
  bind_inv Hsg as os Hos. inv_Ok Hsg.
  apply in_flat_map in He. destruct He as (o & Ho & He).
  destruct o as [e' |]; [| destruct He]. destruct He as [<- | []].
  destruct (mapM_In _ _ _ _ _ _ Hos Ho) as ([grad_index row] & _ & Hge).
  eapply gradient_entry_Some. exact Hge.
Qed.

Lemma lb_len_spherical_harmonics_m (l : Z) :
  lb_len (spherical_harmonics_m l) = Z.to_nat (2 * l + 1).
Proof.
  unfold lb_len, spherical_harmonics_m, range2. cbn [lb_values].
  rewrite !length_map, length_seq. f_equal. lia.
Qed.

Lemma lb_len_features_labels (hypers : Hypers) :
  lb_len (features_labels hypers) = Z.to_nat (max_radial hypers).
Proof.
  unfold lb_len, features_labels. cbn [lb_values].
  rewrite length_map, length_range. reflexivity.
Qed.


(** ** The pair expansion *)

(** C7.  With the gradient flag set, [RascalPairExpansion.compute]
    raises its exception at once: the calculator has not been called. *)
Theorem pair_expansion_refuses_gradients (self_hypers : Hypers)
    (frames : list Atoms) (log : list transform_arg) :
  compute_gradients self_hypers = true ->
  RascalPairExpansion_compute self_hypers frames log
  = (Raise (PlainException "Pair expansion with gradient is not implemented"), log).
Proof.
  intros H. unfold RascalPairExpansion_compute. rewrite H. reflexivity.
Qed.

Lemma py_max_bound (lengths : list nat) (m : nat) :
  py_max lengths = Ok m -> forall n, In n lengths -> n <= m.
Proof.
  destruct lengths as [| n0 rest]; [discriminate |].
  unfold py_max. intros H. inv_Ok H.
  assert (Hfold : forall l acc,
             acc <= fold_left Nat.max l acc /\
             forall n, In n l -> n <= fold_left Nat.max l acc).
  { induction l as [| x l IH]; intros acc; simpl.
    - split; [lia | intros n []].
    - destruct (IH (Nat.max acc x)) as [H1 H2]. split; [lia |].
      intros n [<- | Hn]; [lia | auto]. }
  intros n [<- | Hn]; [apply (proj1 (Hfold rest n0)) | apply (proj2 (Hfold rest n0)); assumption].
Qed.

Lemma nonzero_pairs_In (n_atoms_i max_atoms w : nat) (idata : ndarray V) (a b : nat) :
  In (a, b) (nonzero_pairs n_atoms_i max_atoms w idata) <->
  a < n_atoms_i /\ b < max_atoms /\
  vgtb (squared_norm (pair_coefficients max_atoms w idata a b)) v1e_20 = true.
Proof.
  unfold nonzero_pairs. rewrite filter_In, in_prod_iff, !in_seq. cbn [fst snd].
  intuition lia.
Qed.

Lemma pair_entry_Ok (hypers : Hypers) (max_atoms i : nat) (ijf : Atoms)
    (raw : ndarray V) (entry : ndarray V * list (list Z)) :
  pair_entry hypers max_atoms i ijf raw = Ok entry ->
  exists idata lm,
    reshape_last [Z.of_nat (len ijf); Z.of_nat max_atoms; max_radial hypers] raw
    = Ok idata /\
    shape idata = [len ijf; max_atoms; Z.to_nat (max_radial hypers); lm] /\
    len ijf * (max_atoms * Z.to_nat (max_radial hypers)) <> 0 /\
    length (flat raw)
    = len ijf * (max_atoms * Z.to_nat (max_radial hypers)) * lm /\
    snd entry
    = map (fun ab => [Z.of_nat i; Z.of_nat (fst ab); Z.of_nat (snd ab)])
          (nonzero_pairs (len ijf) max_atoms (Z.to_nat (max_radial hypers) * lm) idata).
Proof.
  unfold pair_entry. intros H. bind_inv H as idata Hidata.
  bind_inv H as kept Hkept. inv_Ok H.
  destruct (reshape_last_Ok _ _ _ Hidata) as (lm & Hshape & _ & Hsize & Hlen).
  cbn [map app size fold_right] in Hshape, Hsize, Hlen.
  rewrite !Nat2Z.id in Hshape, Hsize, Hlen. rewrite Nat.mul_1_r in Hsize, Hlen.
  exists idata, lm. rewrite Hshape. cbn [nth snd].
  repeat split; assumption.
Qed.

Lemma pair_loop_Ok (hypers : Hypers) (max_atoms : nat) (ijframes : list Atoms) :
  forall (i : nat) (log log' : list transform_arg)
         (entries : list (ndarray V * list (list Z))),
  pair_loop hypers max_atoms i ijframes log = (Ok entries, log') ->
  log' = log ++ map OneFrame ijframes /\
  length entries = length ijframes /\
  forall k ijf,
    nth_error ijframes k = Some ijf ->
    exists manager entry,
      rascal hypers (OneFrame ijf) = Ok manager /\
      pair_entry hypers max_atoms (i + k) ijf (get_features manager) = Ok entry /\
      nth_error entries k = Some entry.
Proof.
  induction ijframes as [| ijf rest IH]; intros i log log' entries H.
  - cbn [pair_loop] in H. apply lift_Ok in H. destruct H as [H ->]. inv_Ok H.
    cbn [map]. rewrite app_nil_r. split; [reflexivity |]. split; [reflexivity |].
    intros [| k] f Hk; discriminate.
  - cbn [pair_loop] in H.
    apply cbind_Ok in H. destruct H as (manager & log1 & Hcall & H).
    apply transform_Ok in Hcall. destruct Hcall as [Hcall ->].
    apply cbind_Ok in H. destruct H as (entry & log2 & Hentry & H).
    apply lift_Ok in Hentry. destruct Hentry as [Hentry ->].
    apply cbind_Ok in H. destruct H as (es & log3 & Hrest & H).
    apply lift_Ok in H. destruct H as [H ->]. inv_Ok H.
    destruct (IH _ _ _ _ Hrest) as (-> & Hlen & Hnth).
    cbn [map length]. rewrite <- app_assoc. cbn [app].
    split; [reflexivity |]. split; [f_equal; assumption |].
    intros [| k] f Hk; cbn [nth_error] in Hk.
    + inv_Ok Hk. exists manager, entry. rewrite Nat.add_0_r. auto.
    + destruct (Hnth k f Hk) as (m & e & Hm & He & Hn).
      exists m, e. replace (i + S k) with (S i + k) by lia. auto.
Qed.

(** A successful run of the pair expansion, step by step. *)
Lemma pair_compute_Ok (self_hypers : Hypers) (frames : list Atoms)
    (log log' : list transform_arg) (d : Descriptor) :
  RascalPairExpansion_compute self_hypers frames log = (Ok d, log') ->
  exists (max_atoms : nat) (entries : list (ndarray V * list (list Z)))
         (data : ndarray V) (bs : list Block),
    compute_gradients self_hypers = false /\
    py_max (map len frames) = Ok max_atoms /\
    SphericalExpansion (with_species self_hypers (range (Z.of_nat max_atoms))) = Ok tt /\
    (0 <= max_angular self_hypers)%Z /\
    (0 < max_radial self_hypers)%Z /\
    pair_loop (with_species self_hypers (range (Z.of_nat max_atoms))) max_atoms 0
      (map (fun f => with_numbers f (firstn (len f) (range (Z.of_nat max_atoms)))) frames)
      log = (Ok entries, log') /\
    np_concatenate (map fst entries) = Ok data /\
    mapM (pair_block (with_species self_hypers (range (Z.of_nat max_atoms))) data
            {| lb_names := pair_sample_names;
               lb_values := map (map int32) (concat (map snd entries)) |})
         (map int32 (range (max_angular self_hypers + 1))) = Ok bs /\
    d = {| sparse := {| lb_names := ["spherical_harmonics_l"%string];
                        lb_values := map (fun l => [l])
                                         (map int32 (range (max_angular self_hypers + 1))) |};
           blocks := bs |}.
Proof.
  unfold RascalPairExpansion_compute.
  destruct (compute_gradients self_hypers); [discriminate |]. intros H.
  apply cbind_Ok in H. destruct H as (max_atoms & log1 & Hmax & H).
  apply lift_Ok in Hmax. destruct Hmax as [Hmax ->].
  apply cbind_Ok in H. destruct H as (built & log0 & Hbuilt & H).
  apply lift_Ok in Hbuilt. destruct Hbuilt as [Hbuilt ->]. destruct built.
  apply cbind_Ok in H. destruct H as (sp & log2 & Hsp & H).
  apply lift_Ok in Hsp. destruct Hsp as [Hsp ->].
  apply Labels_of_list_Ok in Hsp. destruct Hsp as [-> Hdegrees].
  apply cbind_Ok in H. destruct H as (ft & log3 & Hft & H).
  apply lift_Ok in Hft. destruct Hft as [Hft ->].
  apply Labels_of_list_Ok in Hft. destruct Hft as [_ Hfeatures].
  apply cbind_Ok in H. destruct H as (entries & log4 & Hloop & H).
  apply lift_Ok in H. destruct H as [H ->].
  bind_inv H as data Hdata. bind_inv H as bs Hbs. inv_Ok H.
  exists max_atoms, entries, data, bs.
  split; [reflexivity |]. split; [exact Hmax |]. split; [exact Hbuilt |].
  split.
  { destruct (Z.leb_spec 0 (max_angular self_hypers)) as [| Hneg]; [assumption |].
    exfalso. apply Hdegrees. cbn [lb_values with_species max_angular]. unfold range.
    replace (Z.to_nat (max_angular self_hypers + 1)) with 0 by lia. reflexivity. }
  split.
  { destruct (Z.ltb_spec 0 (max_radial self_hypers)) as [| Hneg]; [assumption |].
    exfalso. apply Hfeatures. unfold features_labels, range.
    cbn [lb_values with_species max_radial].
    replace (Z.to_nat (max_radial self_hypers)) with 0 by lia. reflexivity. }
  split; [exact Hloop |]. split; [exact Hdata |]. split; [exact Hbs | reflexivity].
Qed.

Lemma pair_block_Ok (hypers : Hypers) (data : ndarray V) (samples : Labels) (l : Z)
    (block : Block) :
  pair_block hypers data samples l = Ok block ->
  exists lm_slice b0,
    py_getitem (lm_slices hypers) l = Ok lm_slice /\
    slice_last data lm_slice = Ok b0 /\
    swapaxes_1_2 b0 = Ok (bk_values block) /\
    bk_samples block = samples /\
    bk_components block = [spherical_harmonics_m l] /\
    bk_features block = features_labels hypers /\
    bk_gradients block = [].
Proof.
  unfold pair_block. intros H.
  bind_inv H as lm_slice Hs. bind_inv H as b0 Hb0. bind_inv H as b1 Hb1.
  bind_inv H as c Hc. apply Labels_of_list_Ok in Hc. destruct Hc as [-> _].
  inv_Ok H. cbn. exists lm_slice, b0. auto 8.
Qed.

(** C8.  A successful [RascalPairExpansion.compute] has called the
    calculator once for each structure, on that structure alone with
    its atoms renumbered; the features of structure [i] were viewed as
    an array of shape [[n_atoms; max_atoms; N_max; lm]], where [lm] is
    [(L_max + 1)^2] whenever the calculator returns that many angular
    components; the samples are exactly the triples [(i, a, b)] of the
    pairs of that array whose squared norm exceeds [1e-20]; and there is
    one block for each degree [l], all with these samples. *)
Theorem pair_expansion_samples (self_hypers : Hypers) (frames : list Atoms)
    (log log' : list transform_arg) (d : Descriptor) :
  RascalPairExpansion_compute self_hypers frames log = (Ok d, log') ->
  exists (max_atoms : nat) (samples : Labels),
    let hypers := with_species self_hypers (range (Z.of_nat max_atoms)) in
    let ijframe := fun f =>
      with_numbers f (firstn (len f) (range (Z.of_nat max_atoms))) in
    let nr := Z.to_nat (max_radial self_hypers) in
    py_max (map len frames) = Ok max_atoms /\
    log' = log ++ map (fun f => OneFrame (ijframe f)) frames /\
    lb_names samples = pair_sample_names /\
    (forall row,
       In row (lb_values samples) <->
       exists i f manager idata lm a b,
         nth_error frames i = Some f /\
         rascal hypers (OneFrame (ijframe f)) = Ok manager /\
         reshape_last [Z.of_nat (len f); Z.of_nat max_atoms; max_radial self_hypers]
           (get_features manager) = Ok idata /\
         shape idata = [len f; max_atoms; nr; lm] /\
         (forall K, length (flat (get_features manager))
                    = len f * (max_atoms * nr) * K -> lm = K) /\
         a < len f /\ b < max_atoms /\
         vgtb (squared_norm (pair_coefficients max_atoms (nr * lm) idata a b))
              v1e_20 = true /\
         row = [int32 (Z.of_nat i); int32 (Z.of_nat a); int32 (Z.of_nat b)]) /\
    lb_values (sparse d)
    = map (fun l => [int32 l]) (range (max_angular self_hypers + 1)) /\
    length (blocks d) = Z.to_nat (max_angular self_hypers + 1) /\
    Forall (fun block => bk_samples block = samples) (blocks d).
Proof.
  intros H.
  destruct (pair_compute_Ok _ _ _ _ _ H)
    as (max_atoms & entries & data & bs & _ & Hmax & _ & _ & _ & Hloop & Hdata & Hbs & ->).
  clear H.
  set (hypers := with_species self_hypers (range (Z.of_nat max_atoms))) in *.
  set (ijframe := fun f => with_numbers f (firstn (len f) (range (Z.of_nat max_atoms)))) in *.
  set (nr := Z.to_nat (max_radial self_hypers)).
  set (samples := {| lb_names := pair_sample_names;
                     lb_values := map (map int32) (concat (map snd entries)) |}) in *.
  destruct (pair_loop_Ok _ _ _ _ _ _ _ Hloop) as (Hlog & Hlen & Hnth).
  rewrite map_map in Hlog. rewrite length_map in Hlen.
  assert (Hlenf : forall f, In f frames -> len (ijframe f) = len f).
  { intros f Hf. unfold ijframe, len at 1. cbn [numbers with_numbers].
    rewrite length_firstn, length_range, Nat2Z.id.
    pose proof (py_max_bound _ _ Hmax (len f) (in_map len _ _ Hf)). lia. }
  assert (Hentry : forall i f,
             nth_error frames i = Some f ->
             exists manager idata lm entry,
               rascal hypers (OneFrame (ijframe f)) = Ok manager /\
               reshape_last [Z.of_nat (len f); Z.of_nat max_atoms; max_radial self_hypers]
                 (get_features manager) = Ok idata /\
               shape idata = [len f; max_atoms; nr; lm] /\
               (forall K, length (flat (get_features manager))
                          = len f * (max_atoms * nr) * K -> lm = K) /\
               nth_error entries i = Some entry /\
               snd entry
               = map (fun ab => [Z.of_nat i; Z.of_nat (fst ab); Z.of_nat (snd ab)])
                     (nonzero_pairs (len f) max_atoms (nr * lm) idata)).
  { intros i f Hf.
    destruct (Hnth i (ijframe f)) as (manager & entry & Hcall & Hpe & Hne).
    { rewrite nth_error_map, Hf. reflexivity. }
    destruct (pair_entry_Ok _ _ _ _ _ _ Hpe) as (idata & lm & Hre & Hsh & Hnz & Hsz & Hrows).
    cbn [hypers with_species max_radial] in Hre, Hsh, Hnz, Hsz, Hrows.
    rewrite (Hlenf f (nth_error_In _ _ Hf)) in Hre, Hsh, Hnz, Hsz, Hrows.
    exists manager, idata, lm, entry. repeat split; try assumption.
    intros K HK. fold nr in Hnz, Hsz. rewrite Hsz in HK.
    apply Nat.mul_cancel_l in HK; assumption. }
  exists max_atoms, samples. cbn zeta. fold hypers. fold ijframe. fold nr.
  split; [exact Hmax |]. split; [exact Hlog |]. split; [reflexivity |].
  split; [| split; [| split]].
  - intros row. unfold samples. cbn [lb_values]. rewrite in_map_iff. split.
    + intros (r0 & <- & Hr0). apply in_concat in Hr0.
      destruct Hr0 as (rows & Hrows & Hr0). apply in_map_iff in Hrows.
      destruct Hrows as (entry & <- & Hentry_in).
      apply In_nth_error in Hentry_in. destruct Hentry_in as (i & Hi).
      destruct (nth_error frames i) as [f |] eqn:Hf.
      2: { apply nth_error_None in Hf.
           assert (i < length entries) by (apply nth_error_Some; congruence). lia. }
      destruct (Hentry i f Hf) as (manager & idata & lm & entry' & Hcall & Hre & Hsh
                                   & HK & Hne & Hrows).
      rewrite Hi in Hne. injection Hne as <-. rewrite Hrows in Hr0.
      apply in_map_iff in Hr0. destruct Hr0 as ([a b] & <- & Hab).
      apply nonzero_pairs_In in Hab. destruct Hab as (Ha & Hb & Hnorm).
      exists i, f, manager, idata, lm, a, b. cbn [fst snd map]. repeat split; assumption.
    + intros (i & f & manager & idata & lm & a & b & Hf & Hcall & Hre & Hsh & HK
              & Ha & Hb & Hnorm & ->).
      destruct (Hentry i f Hf) as (manager' & idata' & lm' & entry & Hcall' & Hre' & Hsh'
                                   & _ & Hne & Hrows).
      change (rascal hypers (OneFrame (ijframe f)) = Ok manager) in Hcall.
      rewrite Hcall in Hcall'. injection Hcall' as <-.
      rewrite Hre in Hre'. injection Hre' as <-.
      rewrite Hsh in Hsh'. injection Hsh' as <-.
      exists [Z.of_nat i; Z.of_nat a; Z.of_nat b]. split; [reflexivity |].
      apply in_concat. exists (snd entry). split.
      * apply in_map. eapply nth_error_In. exact Hne.
      * rewrite Hrows. apply in_map_iff. exists (a, b). split; [reflexivity |].
        apply nonzero_pairs_In. auto.
  - cbn [sparse lb_values]. rewrite map_map. reflexivity.
  - cbn [blocks]. rewrite (mapM_length _ _ _ _ _ Hbs), length_map, length_range.
    reflexivity.
  - cbn [blocks]. apply Forall_forall. intros block Hblock.
    destruct (mapM_In _ _ _ _ _ _ Hbs Hblock) as (l & _ & Hl).
    apply pair_block_Ok in Hl. destruct Hl as (_ & _ & _ & _ & _ & Hl & _). exact Hl.
Qed.

(** ** The entries of the blocks *)

Lemma py_getitem_0 (A : Type) (l : list A) (a : A) :
  py_getitem l 0 = Ok a -> hd_error l = Some a.
Proof.
  intros H. apply py_getitem_nonneg in H; [| lia].
  destruct l; [discriminate | exact H].
Qed.

Lemma swapaxes_1_2_Ok (a b : ndarray V) :
  swapaxes_1_2 a = Ok b ->
  exists d0 d1 d2,
    shape a = [d0; d1; d2] /\ shape b = [d0; d2; d1] /\
    length (flat b) = d0 * (d2 * d1) /\
    forall i k n, i < d0 -> k < d2 -> n < d1 ->
      nth (i * (d2 * d1) + (k * d1 + n)) (flat b) vzero = at3 d1 d2 (flat a) i n k.
Proof.
  unfold swapaxes_1_2.
  destruct (shape a) as [| d0 [| d1 [| d2 [|]]]]; try discriminate.
  intros H. inv_Ok H. exists d0, d1, d2. cbn [shape flat].
  split; [reflexivity |]. split; [reflexivity |].
  assert (Hin : forall i k,
            length (map (fun n => at3 d1 d2 (flat a) i n k) (seq 0 d1)) = d1)
    by (intros; rewrite length_map, length_seq; reflexivity).
  assert (Hmid : forall i,
            length (flat_map (fun k => map (fun n => at3 d1 d2 (flat a) i n k) (seq 0 d1))
                      (seq 0 d2)) = d2 * d1)
    by (intros; apply length_flat_map_seq; intros; apply Hin).
  split.
  - apply length_flat_map_seq. exact Hmid.
  - intros i k n Hi Hk Hn.
    rewrite nth_flat_map_seq by (auto; nia).
    rewrite nth_flat_map_seq by (auto; intros; apply Hin).
    cbn [Nat.add]. rewrite nth_map_seq by assumption. reflexivity.
Qed.

Lemma select_block_Ok (data : ndarray V) (mask : list nat) (neighbor_species_i : nat)
    (lm_slice : Z * Z) (b : ndarray V) :
  select_block data mask neighbor_species_i lm_slice = Ok b ->
  exists c ns nr lm,
    shape data = [c; ns; nr; lm] /\
    Forall (fun i => i < c) mask /\
    neighbor_species_i < ns /\
    shape b = [length mask; nr; snd (clip lm lm_slice)] /\
    forall i n k, i < length mask -> n < nr -> k < snd (clip lm lm_slice) ->
      at3 nr (snd (clip lm lm_slice)) (flat b) i n k
      = at4 ns nr lm (flat data) (nth i mask 0) neighbor_species_i n
          (fst (clip lm lm_slice) + k).
Proof.
  unfold select_block.
  destruct (shape data) as [| c [| ns [| nr [| lm [|]]]]]; try discriminate.
  destruct (forallb (fun i => i <? c) mask) eqn:Hmask; [| discriminate].
  destruct (Nat.ltb_spec neighbor_species_i ns) as [Hnsi |]; [| discriminate].
  cbn [andb].
  destruct (clip lm lm_slice) as [first count] eqn:Hclip. intros H. inv_Ok H.
  exists c, ns, nr, lm. rewrite Hclip. cbn [shape flat fst snd].
  split; [reflexivity |]. split.
  { apply Forall_forall. intros i Hi. rewrite forallb_forall in Hmask.
    apply Nat.ltb_lt. auto. }
  split; [assumption |]. split; [reflexivity |].
  intros i n k Hi Hn Hk. unfold at3.
  replace ((i * nr + n) * count + k) with (i * (nr * count) + (n * count + k)) by ring.
  assert (Hin : forall i n,
            length (map (fun k => at4 ns nr lm (flat data) i neighbor_species_i n (first + k))
                      (seq 0 count)) = count)
    by (intros; rewrite length_map, length_seq; reflexivity).
  rewrite (nth_flat_map_uniform _ _ _ (nr * count) _ _ _ 0); try assumption.
  - rewrite nth_flat_map_seq by (auto; intros; apply Hin).
    cbn [Nat.add]. rewrite nth_map_seq by assumption. reflexivity.
  - intros x. apply length_flat_map_seq. intros; apply Hin.
  - nia.
Qed.

(** The block cut out of the features: the selection followed by the
    exchange of the radial and angular axes. *)
Lemma block_data_Ok (data : ndarray V) (mask : list nat) (neighbor_species_i : nat)
    (lm_slice : Z * Z) (b0 b : ndarray V) :
  select_block data mask neighbor_species_i lm_slice = Ok b0 ->
  swapaxes_1_2 b0 = Ok b ->
  exists c ns nr lm,
    shape data = [c; ns; nr; lm] /\
    Forall (fun i => i < c) mask /\
    neighbor_species_i < ns /\
    shape b = [length mask; snd (clip lm lm_slice); nr] /\
    length (flat b) = length mask * (snd (clip lm lm_slice) * nr) /\
    forall i m n, i < length mask -> m < snd (clip lm lm_slice) -> n < nr ->
      nth (i * (snd (clip lm lm_slice) * nr) + (m * nr + n)) (flat b) vzero
      = at4 ns nr lm (flat data) (nth i mask 0) neighbor_species_i n
          (fst (clip lm lm_slice) + m).
Proof.
  intros Hsel Hswap.
  destruct (select_block_Ok _ _ _ _ _ Hsel) as (c & ns & nr & lm & Hd & Hm & Hn & Hs & Hv).
  destruct (swapaxes_1_2_Ok _ _ Hswap) as (d0 & d1 & d2 & Ha & Hb & Hl & Hw).
  rewrite Hs in Ha. injection Ha as <- <- <-.
  exists c, ns, nr, lm. repeat split; try assumption.
  intros i m n Hi Hlm Hln. rewrite Hw by assumption. apply Hv; assumption.
Qed.

(** The arrays [build] works on, and what it needs of them. *)
Lemma build_data_Ok (hypers : Hypers) (species : list Z) (frames : list Atoms)
    (manager : Manager) (d : Descriptor) :
  build hypers species frames manager = Ok d ->
  exists (d0 lm g0 glm : nat) (data gradients : ndarray V),
    hd_error (shape (get_features manager)) = Some d0 /\
    hd_error (shape (get_features_gradient manager)) = Some g0 /\
    d0 <> 0 /\ g0 <> 0 /\ length species <> 0 /\ (0 < max_radial hypers)%Z /\
    shape data = [d0; length species; Z.to_nat (max_radial hypers); lm] /\
    flat data = flat (get_features manager) /\
    length (flat (get_features manager))
    = d0 * (length species * Z.to_nat (max_radial hypers)) * lm /\
    shape gradients = [g0; length species; Z.to_nat (max_radial hypers); glm] /\
    flat gradients = flat (get_features_gradient manager) /\
    length (flat (get_features_gradient manager))
    = g0 * (length species * Z.to_nat (max_radial hypers)) * glm /\
    Forall2 (fun key block =>
               build_block hypers species data gradients
                 (get_representation_info manager) (get_gradients_info manager)
                 (global_to_per_structure_atom_id frames) key = Ok block)
            (sparse_keys hypers species) (blocks d).
Proof.
  unfold build. intros H.
  bind_inv H as sp Hsp. bind_inv H as ft Hft.
  bind_inv H as d0 Hd0. bind_inv H as data Hdata.
  bind_inv H as g0 Hg0. bind_inv H as gradients Hgradients.
  bind_inv H as bs Hbs. inv_Ok H. cbn [blocks].
  destruct (reshape_last_Ok _ _ _ Hdata) as (lm & Hs & Hf & Hsize & Hlen).
  destruct (reshape_last_Ok _ _ _ Hgradients) as (glm & Hgs & Hgf & Hgsize & Hglen).
  cbn [map app size fold_right] in Hs, Hsize, Hlen, Hgs, Hgsize, Hglen.
  rewrite !Nat2Z.id in Hs, Hsize, Hlen, Hgs, Hgsize, Hglen.
  rewrite Nat.mul_1_r in Hsize, Hlen, Hgsize, Hglen.
  exists d0, lm, g0, glm, data, gradients.
  split; [apply py_getitem_0; assumption |].
  split; [apply py_getitem_0; assumption |].
  split; [nia |]. split; [nia |]. split; [nia |]. split; [nia |].
  split; [assumption |]. split; [assumption |]. split; [lia |].
  split; [assumption |]. split; [assumption |]. split; [lia |].
  apply mapM_Forall2. assumption.
Qed.

Lemma build_block_values (hypers : Hypers) (species : list Z)
    (data gradients : ndarray V) (info : list center_info)
    (grad_info : list gradient_info) (atom_id : list Z)
    (l center_species neighbor_species : Z) (block : Block) :
  build_block hypers species data gradients info grad_info atom_id
    (l, center_species, neighbor_species) = Ok block ->
  exists neighbor_species_i lm_slice b0,
    list_index species neighbor_species = Ok neighbor_species_i /\
    py_getitem (lm_slices hypers) l = Ok lm_slice /\
    select_block data
      (map fst (where_rows (fun row => (ci_species row =? center_species)%Z) info))
      neighbor_species_i lm_slice = Ok b0 /\
    swapaxes_1_2 b0 = Ok (bk_values block).
Proof.
  unfold build_block. intros H.
  bind_inv H as nsi Hnsi. bind_inv H as lm_slice Hslice.
  bind_inv H as bd0 Hbd0. bind_inv H as bd Hbd. bind_inv H as sc Hsc.
  bind_inv H as grads Hgrads. bind_inv H as rows Hrows. bind_inv H as sm Hsm.
  inv_Ok H. cbn [bk_values].
  exists nsi, lm_slice, bd0. auto.
Qed.

Lemma sparse_keys_degree (hypers : Hypers) (species : list Z) (l cs ns : Z) :
  (max_angular hypers < 2 ^ 31)%Z ->
  In (l, cs, ns) (sparse_keys hypers species) ->
  (0 <= l <= max_angular hypers)%Z.
Proof.
  intros HL Hin. apply (proj1 (In_sparse_keys _ _ _)) in Hin.
  destruct Hin as (l0 & cs0 & ns0 & Hl0 & _ & _ & Heq). injection Heq as -> _ _.
  rewrite int32_small; lia.
Qed.

(** X6.  The values of the block of a key [(l, cs, ns)] are the features
    of the calculator, rearranged: with the features read as an array
    of shape [(centers, |S|, N_max, lm)], the entry [(i, m, n)] of the
    block is the entry of the [i]-th center of species [cs], in the
    order of the metadata of the calculator, for the neighbor species
    at the position of [ns] in the sorted species, the radial index [n]
    and the angular component [l^2 + m].  The block has one row per
    such center, and when the calculator returns [(L_max + 1)^2] angular
    components or more its shape is (samples, [2l + 1] components,
    [N_max] features), as its labels have it. *)
Theorem spherical_expansion_block_values (self_hypers : Hypers)
    (frames : list Atoms) (manager : Manager) (log log' : list transform_arg)
    (d : Descriptor) :
  let species := unique_species (flat_map numbers frames) in
  let hypers := with_species self_hypers species in
  let nr := Z.to_nat (max_radial self_hypers) in
  RascalSphericalExpansion_compute self_hypers frames log = (Ok d, log') ->
  rascal hypers (Frames frames) = Ok manager ->
  (max_angular self_hypers < 2 ^ 31)%Z ->
  exists (d0 lm : nat),
    hd_error (shape (get_features manager)) = Some d0 /\
    length (flat (get_features manager)) = d0 * (length species * nr) * lm /\
    forall l cs ns block,
      In ((l, cs, ns), block) (combine (sparse_keys hypers species) (blocks d)) ->
      exists (neighbor_species_i : nat),
        let mask :=
          map fst (where_rows (fun row => (ci_species row =? cs)%Z)
                     (get_representation_info manager)) in
        let first := fst (clip lm (l * l, (l + 1) * (l + 1))%Z) in
        let count := snd (clip lm (l * l, (l + 1) * (l + 1))%Z) in
        (0 <= l <= max_angular self_hypers)%Z /\
        list_index species ns = Ok neighbor_species_i /\
        Forall (fun c => c < d0) mask /\
        lb_len (bk_samples block) = length mask /\
        shape (bk_values block) = [length mask; count; nr] /\
        length (flat (bk_values block)) = length mask * (count * nr) /\
        (forall i m n, i < length mask -> m < count -> n < nr ->
           nth (i * (count * nr) + (m * nr + n)) (flat (bk_values block)) vzero
           = at4 (length species) nr lm (flat (get_features manager))
               (nth i mask 0) neighbor_species_i n (first + m)) /\
        (Z.to_nat ((max_angular self_hypers + 1) * (max_angular self_hypers + 1)) <= lm ->
         first = Z.to_nat (l * l) /\
         shape (bk_values block)
         = lb_len (bk_samples block)
           :: map lb_len (bk_components block) ++ [lb_len (bk_features block)]).
Proof.
  intros species hypers nr Hd Hcall HL.
  destruct (compute_Ok _ _ _ _ _ Hd) as (_ & _ & manager' & Hcall' & Hbuild).
  fold species in Hcall', Hbuild. fold hypers in Hcall', Hbuild.
  rewrite Hcall in Hcall'. injection Hcall' as <-.
  destruct (build_data_Ok _ _ _ _ _ Hbuild)
    as (d0 & lm & g0 & glm & data & gradients & Hd0 & _ & _ & _ & _ & _
        & Hshape & Hflat & Hlen & _ & _ & _ & Hblocks).
  cbn [hypers with_species max_radial] in Hshape, Hlen. fold nr in Hshape, Hlen.
  exists d0, lm. split; [assumption |]. split; [assumption |].
  intros l cs ns block Hkb.
  pose proof (in_combine_l _ _ _ _ Hkb) as Hkey.
  apply (sparse_keys_degree hypers species) in Hkey; [| exact HL].
  cbn [hypers with_species max_angular] in Hkey.
  apply (Forall2_combine_In _ _ _ _ _ _ _ Hblocks) in Hkb.
  destruct (build_block_Ok _ _ _ _ _ _ _ _ _ _ _ Hkb) as (_ & Hrows & Hcomp & Hfeat & _).
  destruct (build_block_values _ _ _ _ _ _ _ _ _ _ _ Hkb)
    as (nsi & lm_slice & b0 & Hnsi & Hslice & Hsel & Hswap).
  rewrite (lm_slices_getitem hypers l Hkey) in Hslice. injection Hslice as <-.
  destruct (block_data_Ok _ _ _ _ _ _ Hsel Hswap)
    as (c & ns' & nr' & lm' & Hs' & Hmask & _ & Hbs & Hbl & Hbv).
  rewrite Hshape in Hs'. injection Hs' as <- <- <- <-.
  rewrite Hflat in Hbv.
  assert (Hsamples : lb_len (bk_samples block)
                     = length (map fst (where_rows (fun row => (ci_species row =? cs)%Z)
                                          (get_representation_info manager)))).
  { unfold lb_len. rewrite (mapM_length _ _ _ _ _ Hrows), !length_map. reflexivity. }
  exists nsi. cbn zeta.
  split; [assumption |]. split; [assumption |]. split; [assumption |].
  split; [assumption |]. split; [assumption |]. split; [assumption |].
  split; [assumption |].
  intros Hlm.
  pose proof (clip_lm hypers l lm Hkey Hlm) as Hcount.
  split.
  - unfold clip. cbn [fst]. apply Nat.min_l.
    assert ((l * l <= (max_angular self_hypers + 1) * (max_angular self_hypers + 1))%Z)
      by nia.
    cbn [hypers with_species max_angular] in Hlm. lia.
  - rewrite Hbs, Hcomp, Hfeat, Hsamples, Hcount. cbn [map app].
    rewrite lb_len_spherical_harmonics_m, lb_len_features_labels. reflexivity.
Qed.

(** ** The samples of the blocks *)

Lemma In_combine_seq (A : Type) (l : list A) :
  forall (s i : nat) (x : A),
  In (i, x) (combine (seq s (length l)) l) ->
  s <= i /\ nth_error l (i - s) = Some x.
Proof.
  induction l as [| a l IH]; intros s i x Hin; simpl in Hin; [destruct Hin |].
  destruct Hin as [Hin | Hin].
  - injection Hin as <- <-. rewrite Nat.sub_diag. auto.
  - apply IH in Hin. destruct Hin as [Hs Hn]. split; [lia |].
    replace (i - s) with (S (i - S s)) by lia. exact Hn.
Qed.

Lemma where_rows_nth (A : Type) (p : A -> bool) (rows : list A) (i : nat) (r : A) :
  In (i, r) (where_rows p rows) -> nth_error rows i = Some r /\ p r = true.
Proof.
  unfold where_rows. intros H. apply filter_In in H. destruct H as [H Hp].
  apply In_combine_seq in H. rewrite Nat.sub_0_r in H. tauto.
Qed.

Lemma where_rows_filter (A : Type) (p : A -> bool) (rows : list A) :
  map snd (where_rows p rows) = filter p rows.
Proof.
  unfold where_rows. generalize 0.
  induction rows as [| r rows IH]; intros s; simpl; [reflexivity |].
  destruct (p r); simpl; rewrite IH; reflexivity.
Qed.

Lemma mapM_nth_error (A B : Type) (f : A -> result B) (l : list A) (bs : list B) :
  mapM f l = Ok bs ->
  forall i a, nth_error l i = Some a ->
  exists b, f a = Ok b /\ nth_error bs i = Some b.
Proof.
  intros H. apply mapM_Forall2 in H.
  induction H as [| a b l bs Hab _ IH]; intros i x Hx.
  - destruct i; discriminate.
  - destruct i as [| i]; simpl in Hx.
    + inv_Ok Hx. exists b. auto.
    + apply IH. exact Hx.
Qed.

(** X7.  The samples of a block depend on the center species of its key
    alone: the block has one sample for each center of that species
    that the calculator reports, and two blocks with the same center
    species have the same samples, whatever their degrees and neighbor
    species. *)
Theorem spherical_expansion_samples_by_species (self_hypers : Hypers)
    (frames : list Atoms) (manager : Manager) (log log' : list transform_arg)
    (d : Descriptor) :
  let species := unique_species (flat_map numbers frames) in
  let hypers := with_species self_hypers species in
  RascalSphericalExpansion_compute self_hypers frames log = (Ok d, log') ->
  rascal hypers (Frames frames) = Ok manager ->
  forall l cs ns block,
    In ((l, cs, ns), block) (combine (sparse_keys hypers species) (blocks d)) ->
    lb_len (bk_samples block)
    = length (filter (fun row => (ci_species row =? cs)%Z)
                (get_representation_info manager)) /\
    forall l' ns' block',
      In ((l', cs, ns'), block') (combine (sparse_keys hypers species) (blocks d)) ->
      bk_samples block' = bk_samples block.
Proof.
  intros species hypers Hd Hcall l cs ns block Hkb.
  destruct (compute_Ok _ _ _ _ _ Hd) as (_ & _ & manager' & Hcall' & Hbuild).
  fold species in Hcall', Hbuild. fold hypers in Hcall', Hbuild.
  rewrite Hcall in Hcall'. injection Hcall' as <-.
  destruct (build_Ok _ _ _ _ _ Hbuild) as (_ & data & gradients & Hblocks).
  apply (Forall2_combine_In _ _ _ _ _ _ _ Hblocks) in Hkb.
  destruct (build_block_Ok _ _ _ _ _ _ _ _ _ _ _ Hkb) as (Hnames & Hrows & _).
  split.
  - unfold lb_len. rewrite (mapM_length _ _ _ _ _ Hrows), length_map.
    rewrite <- where_rows_filter, length_map. reflexivity.
  - intros l' ns' block' Hkb'.
    apply (Forall2_combine_In _ _ _ _ _ _ _ Hblocks) in Hkb'.
    destruct (build_block_Ok _ _ _ _ _ _ _ _ _ _ _ Hkb') as (Hnames' & Hrows' & _).
    rewrite Hrows in Hrows'. injection Hrows' as Hvalues.
    destruct (bk_samples block), (bk_samples block'). cbn in *. congruence.
Qed.

(** ** What a run needs *)

(** X8.  [compute] reshapes the features and the gradient features of
    the calculator whether or not gradients are asked for, to
    [(rows, |S|, N_max, -1)]; so a call that returns had at least one
    frame and one atom, a positive [max_radial], and a calculator that
    returned at least one row of features and at least one row of
    gradient features.  Without the gradient flag no block of the
    result carries a gradient. *)
Theorem spherical_expansion_needs_rows (self_hypers : Hypers)
    (frames : list Atoms) (manager : Manager) (log log' : list transform_arg)
    (d : Descriptor) :
  let species := unique_species (flat_map numbers frames) in
  let hypers := with_species self_hypers species in
  RascalSphericalExpansion_compute self_hypers frames log = (Ok d, log') ->
  rascal hypers (Frames frames) = Ok manager ->
  frames <> [] /\
  flat_map numbers frames <> [] /\
  (0 < max_radial self_hypers)%Z /\
  (exists d0, hd_error (shape (get_features manager)) = Some d0 /\ d0 <> 0) /\
  (exists g0, hd_error (shape (get_features_gradient manager)) = Some g0 /\ g0 <> 0) /\
  (compute_gradients self_hypers = false ->
   Forall (fun block => bk_gradients block = []) (blocks d)).
Proof.
  intros species hypers Hd Hcall.
  destruct (compute_Ok _ _ _ _ _ Hd) as (Hframes & _ & manager' & Hcall' & Hbuild).
  fold species in Hcall', Hbuild. fold hypers in Hcall', Hbuild.
  rewrite Hcall in Hcall'. injection Hcall' as <-.
  destruct (build_data_Ok _ _ _ _ _ Hbuild)
    as (d0 & lm & g0 & glm & data & gradients & Hd0 & Hg0 & Hd0' & Hg0' & Hs & Hr
        & _ & _ & _ & _ & _ & _ & Hblocks).
  split; [assumption |]. split.
  { intros Hnil. apply Hs. unfold species. rewrite Hnil. reflexivity. }
  split; [exact Hr |].
  split; [exists d0; auto |]. split; [exists g0; auto |].
  intros Hflag. apply Forall_forall. intros block Hblock.
  destruct (Forall2_In_r _ _ _ _ _ _ Hblocks Hblock) as ([[l cs] ns] & _ & Hkey).
  apply build_block_Ok in Hkey.
  destruct Hkey as (_ & _ & _ & _ & _ & nsi & lm_slice & _ & _ & Hgrad).
  replace (compute_gradients hypers) with false in Hgrad by (symmetry; exact Hflag).
  exact Hgrad.
Qed.

(** ** The gradient attached to a block *)

(** C10.  When gradients are computed, every block of the result has
    exactly one gradient, named ["positions"].  Its samples are, in
    their order, the gradient entries that the loops of lines 99-129
    collect for the block: for each sample of the block and each row of
    the gradient metadata with the structure and center of that sample
    and the neighbor species of the key, the three rows of the gradient
    features of that row, at the neighbor species and the angular slice
    of the key, unless their norm is zero.  When no entry is left the
    gradient has no samples and its array has the shape
    [(0, 3, 2l+1, N_max)]. *)
Theorem spherical_expansion_gradient_attached (self_hypers : Hypers)
    (frames : list Atoms) (manager : Manager) (log log' : list transform_arg)
    (d : Descriptor) :
  let species := unique_species (flat_map numbers frames) in
  let hypers := with_species self_hypers species in
  let nr := Z.to_nat (max_radial self_hypers) in
  compute_gradients self_hypers = true ->
  RascalSphericalExpansion_compute self_hypers frames log = (Ok d, log') ->
  rascal hypers (Frames frames) = Ok manager ->
  length (blocks d) = length (sparse_keys hypers species) /\
  exists (g0 glm : nat),
    hd_error (shape (get_features_gradient manager)) = Some g0 /\
    g0 * (length species * nr) <> 0 /\
    length (flat (get_features_gradient manager)) = g0 * (length species * nr) * glm /\
    forall l cs ns block,
      In ((l, cs, ns), block) (combine (sparse_keys hypers species) (blocks d)) ->
      exists (neighbor_species_i : nat) (lm_slice : Z * Z)
             (entries : list (ndarray V * list Z)) (g : Gradient V),
        list_index species ns = Ok neighbor_species_i /\
        py_getitem (lm_slices hypers) l = Ok lm_slice /\
        ((max_angular self_hypers < 2 ^ 31)%Z ->
         lm_slice = (l * l, (l + 1) * (l + 1))%Z) /\
        gradient_entries
          {| shape := [g0; length species; nr; glm];
             flat := flat (get_features_gradient manager) |}
          (get_gradients_info manager) (global_to_per_structure_atom_id frames)
          ns neighbor_species_i lm_slice
          (map (fun ir => (int32 (ci_structure (snd ir)), int32 (ci_center (snd ir))))
               (where_rows (fun row => (ci_species row =? cs)%Z)
                  (get_representation_info manager)))
        = Ok entries /\
        Forall (fun e => vnorm_is_zero (flat (fst e)) = false) entries /\
        bk_gradients block = [("positions"%string, g)] /\
        lb_names (gr_samples g) = gradient_sample_names /\
        lb_values (gr_samples g) = map (fun e => map int32 (snd e)) entries /\
        lb_len (gr_samples g) = length entries /\
        (entries = [] ->
         lb_values (gr_samples g) = [] /\
         shape (gr_data g) = [0; 3; Z.to_nat (2 * l + 1); nr] /\
         flat (gr_data g) = []).
Proof.
  intros species hypers nr Hcg Hd Hcall.
  destruct (compute_Ok _ _ _ _ _ Hd) as (_ & _ & manager' & Hcall' & Hbuild).
  fold species in Hcall', Hbuild. fold hypers in Hcall', Hbuild.
  rewrite Hcall in Hcall'. injection Hcall' as <-.
  destruct (build_data_Ok _ _ _ _ _ Hbuild)
    as (d0 & lm & g0 & glm & data & gradients & _ & Hg0 & _ & Hrows & Hsp & HN
        & _ & _ & _ & Hgshape & Hgflat & Hglen & Hblocks).
  cbn [hypers with_species max_radial] in Hgshape, Hglen, HN.
  fold nr in Hgshape, Hglen.
  split; [symmetry; eapply Forall2_length; exact Hblocks |].
  exists g0, glm. split; [exact Hg0 |]. split; [unfold nr; nia |].
  split; [exact Hglen |].
  intros l cs ns block Hkb.
  pose proof (in_combine_l _ _ _ _ Hkb) as Hkey.
  apply (Forall2_combine_In _ _ _ _ _ _ _ Hblocks) in Hkb.
  apply build_block_Ok in Hkb.
  destruct Hkb as (_ & _ & _ & _ & _ & nsi & lm_slice & Hnsi & Hslice & Hgrad).
  replace (compute_gradients hypers) with true in Hgrad by (symmetry; exact Hcg).
  destruct Hgrad as (entries & g & Hentries & Hg & Hattached).
  assert (Hrecord : gradients = {| shape := [g0; length species; nr; glm];
                                   flat := flat (get_features_gradient manager) |}).
  { destruct gradients as [gs gf]. cbn [shape flat] in Hgshape, Hgflat.
    rewrite Hgshape, Hgflat. reflexivity. }
  rewrite Hrecord in Hentries.
  exists nsi, lm_slice, entries, g.
  split; [exact Hnsi |]. split; [exact Hslice |]. split.
  { intros HL. apply (sparse_keys_degree hypers species) in Hkey; [| exact HL].
    rewrite (lm_slices_getitem hypers l Hkey) in Hslice. injection Hslice as <-.
    reflexivity. }
  split; [exact Hentries |].
  split; [eapply gradient_entries_survivors; exact Hentries |].
  split; [exact Hattached |].
  unfold block_gradient_of in Hg. destruct entries as [| e entries].
  - inv_Ok Hg. cbn [gr_samples gr_data lb_names lb_values lb_len length np_zeros shape flat map].
    split; [reflexivity |]. split; [reflexivity |]. split; [reflexivity |]. intros _.
    rewrite lb_len_spherical_harmonics_m, lb_len_features_labels.
    split; [reflexivity |]. split; reflexivity.
  - bind_inv Hg as bg Hbg. inv_Ok Hg.
    cbn [gr_samples lb_names lb_values lb_len].
    split; [reflexivity |]. split; [reflexivity |]. split; [| discriminate].
    unfold lb_len. cbn [lb_values length]. rewrite length_map. reflexivity.
Qed.

(** ** The samples of the gradients *)

Lemma gradient_entry_row (gradients : ndarray V) (atom_id : list Z)
    (neighbor_species_i : nat) (lm_slice : Z * Z) (sample_i grad_index : nat)
    (row : gradient_info) (e : ndarray V * list Z) :
  gradient_entry gradients atom_id neighbor_species_i lm_slice sample_i grad_index row
  = Ok (Some e) ->
  exists neighbor,
    py_getitem atom_id (gi_neighbor row) = Ok neighbor /\
    snd e = [Z.of_nat sample_i; gi_structure row; neighbor].
Proof.
  unfold gradient_entry. destruct (clip _ _) as [first count]. intros H.
  bind_inv H as g Hg. bind_inv H as g' Hg'. bind_inv H as bg Hbg.
  destruct (vnorm_is_zero (flat bg)); [discriminate |].
  bind_inv H as neighbor Hn. inv_Ok H. exists neighbor. auto.
Qed.

Lemma gradient_entries_In (gradients : ndarray V) (grad_info : list gradient_info)
    (atom_id : list Z) (neighbor_species : Z) (neighbor_species_i : nat)
    (lm_slice : Z * Z) (samples : list (Z * Z))
    (entries : list (ndarray V * list Z)) (e : ndarray V * list Z) :
  gradient_entries gradients grad_info atom_id neighbor_species neighbor_species_i
    lm_slice samples = Ok entries ->
  In e entries ->
  exists sample_i sc grad_index row,
    nth_error samples sample_i = Some sc /\
    nth_error grad_info grad_index = Some row /\
    gi_structure row = fst sc /\
    gi_center row = snd sc /\
    gi_neighbor_species row = neighbor_species /\
    gradient_entry gradients atom_id neighbor_species_i lm_slice
      sample_i grad_index row = Ok (Some e).
Proof.
  unfold gradient_entries. intros H He. bind_inv H as per_sample Hps. inv_Ok H.
  apply in_concat in He. destruct He as (es & Hes & He).
  destruct (mapM_In _ _ _ _ _ _ Hps Hes) as ([sample_i [structure center]] & Hsc & Hsg).
  apply In_combine_seq in Hsc. rewrite Nat.sub_0_r in Hsc. destruct Hsc as [_ Hsc].
  unfold sample_gradients in Hsg. cbn [fst snd] in Hsg.
  bind_inv Hsg as os Hos. inv_Ok Hsg.
  apply in_flat_map in He. destruct He as (o & Ho & He).
  destruct o as [e' |]; [| destruct He]. destruct He as [<- | []].
  destruct (mapM_In _ _ _ _ _ _ Hos Ho) as ([grad_index row] & Hrow & Hge).
  apply where_rows_nth in Hrow. destruct Hrow as [Hrow Hmask].
  apply andb_true_iff in Hmask. destruct Hmask as [Hmask H3].
  apply andb_true_iff in Hmask. destruct Hmask as [H1 H2].
  apply Z.eqb_eq in H1, H2, H3. cbn [fst snd] in Hge.
  exists sample_i, (structure, center), grad_index, row. cbn [fst snd].
  repeat split; assumption.
Qed.

(** X9.  With the gradient flag, every gradient sample
    [(sample, structure, atom)] of a block comes from a row of the
    gradient metadata of the calculator whose neighbor species is the
    one of the key: [sample] is the position, among the samples of the
    block, of the sample of the center of that row, which has the same
    structure; [atom] is the index of the neighbor within its
    structure. *)
Theorem spherical_expansion_gradient_samples (self_hypers : Hypers)
    (frames : list Atoms) (manager : Manager) (log log' : list transform_arg)
    (d : Descriptor) :
  let species := unique_species (flat_map numbers frames) in
  let hypers := with_species self_hypers species in
  compute_gradients self_hypers = true ->
  RascalSphericalExpansion_compute self_hypers frames log = (Ok d, log') ->
  rascal hypers (Frames frames) = Ok manager ->
  forall l cs ns block,
    In ((l, cs, ns), block) (combine (sparse_keys hypers species) (blocks d)) ->
    exists g,
      bk_gradients block = [("positions"%string, g)] /\
      forall grow, In grow (lb_values (gr_samples g)) ->
        exists (sample_i : nat) (row : gradient_info) (neighbor center : Z),
          grow = [int32 (Z.of_nat sample_i); int32 (gi_structure row); int32 neighbor] /\
          In row (get_gradients_info manager) /\
          gi_neighbor_species row = ns /\
          py_getitem (global_to_per_structure_atom_id frames) (gi_neighbor row)
          = Ok neighbor /\
          sample_i < lb_len (bk_samples block) /\
          py_getitem (global_to_per_structure_atom_id frames) (gi_center row)
          = Ok center /\
          nth_error (lb_values (bk_samples block)) sample_i
          = Some [int32 (gi_structure row); int32 center].
Proof.
  intros species hypers Hflag Hd Hcall l cs ns block Hkb.
  destruct (compute_Ok _ _ _ _ _ Hd) as (_ & _ & manager' & Hcall' & Hbuild).
  fold species in Hcall', Hbuild. fold hypers in Hcall', Hbuild.
  rewrite Hcall in Hcall'. injection Hcall' as <-.
  destruct (build_Ok _ _ _ _ _ Hbuild) as (_ & data & gradients & Hblocks).
  apply (Forall2_combine_In _ _ _ _ _ _ _ Hblocks) in Hkb.
  apply build_block_Ok in Hkb.
  destruct Hkb as (_ & Hrows & _ & _ & _ & nsi & lm_slice & _ & _ & Hgrad).
  replace (compute_gradients hypers) with true in Hgrad by (symmetry; exact Hflag).
  destruct Hgrad as (entries & g & Hentries & Hg & Hattached).
  exists g. split; [exact Hattached |].
  intros grow Hgrow.
  assert (Hin : exists e, In e entries /\ grow = map int32 (snd e)).
  { unfold block_gradient_of in Hg. destruct entries as [| e0 entries].
    - inv_Ok Hg. destruct Hgrow.
    - bind_inv Hg as bg Hbg. inv_Ok Hg. cbn [gr_samples lb_values] in Hgrow.
      change (In grow (map (fun e => map int32 (snd e)) (e0 :: entries))) in Hgrow.
      apply in_map_iff in Hgrow. destruct Hgrow as (e & <- & He). eauto. }
  destruct Hin as (e & He & ->).
  destruct (gradient_entries_In _ _ _ _ _ _ _ _ _ Hentries He)
    as (sample_i & [structure center] & grad_index & row & Hsc & Hrow & Hs & Hc & Hn & Hge).
  cbn [fst snd] in Hs, Hc.
  destruct (gradient_entry_row _ _ _ _ _ _ _ _ Hge) as (neighbor & Hneighbor & ->).
  destruct (mapM_nth_error _ _ _ _ _ Hrows _ _ Hsc) as (srow & Hsrow & Hnth).
  cbn [fst snd] in Hsrow. bind_inv Hsrow as center' Hcenter. inv_Ok Hsrow.
  exists sample_i, row, neighbor, center'. cbn [map].
  split; [reflexivity |]. split; [eapply nth_error_In; exact Hrow |].
  split; [reflexivity |]. split; [assumption |].
  split; [| split; assumption].
  unfold lb_len. apply nth_error_Some. rewrite Hnth. discriminate.
Qed.

(** ** The shape of the gradients *)

Lemma gradient_entry_shape (gradients : ndarray V) (atom_id : list Z)
    (neighbor_species_i : nat) (lm_slice : Z * Z) (sample_i grad_index : nat)
    (row : gradient_info) (e : ndarray V * list Z) (g0 ns nr glm : nat) :
  gradient_entry gradients atom_id neighbor_species_i lm_slice sample_i grad_index row
  = Ok (Some e) ->
  shape gradients = [g0; ns; nr; glm] ->
  3 * grad_index + 3 <= g0 ->
  shape (fst e) = [1; 3; snd (clip glm lm_slice); nr] /\
  length (flat (fst e)) = 3 * (snd (clip glm lm_slice) * nr).
Proof.
  unfold gradient_entry. intros H Hs Hg. rewrite Hs in H. cbn [hd] in H.
  rewrite clip_rows in H by lia.
  bind_inv H as b0 Hb0. bind_inv H as b Hb. bind_inv H as bg Hbg.
  destruct (vnorm_is_zero (flat bg)); [discriminate |].
  bind_inv H as neighbor Hn. inv_Ok H. cbn [fst].
  destruct (block_data_Ok _ _ _ _ _ _ Hb0 Hb)
    as (c & ns' & nr' & lm' & Hs' & _ & _ & Hshape & Hlen & _).
  rewrite Hs in Hs'. injection Hs' as <- <- <- <-.
  rewrite length_seq in Hshape, Hlen.
  unfold reshape_gradient in Hbg. rewrite Hshape in Hbg. cbn [nth] in Hbg.
  bind_inv Hbg as d0 Hd0. inv_Ok Hbg. cbn [shape flat].
  apply infer_dim_Ok in Hd0. destruct Hd0 as [Hne Hd0].
  rewrite Hlen in Hd0.
  assert (d0 = 1) by nia. subst d0. split; [reflexivity | assumption].
Qed.

Lemma np_concatenate_rows (arrays : list (ndarray V)) (b : ndarray V)
    (inner : list nat) (w : nat) :
  np_concatenate arrays = Ok b ->
  Forall (fun a => shape a = 1 :: inner /\ length (flat a) = w) arrays ->
  shape b = length arrays :: inner /\ length (flat b) = length arrays * w.
Proof.
  unfold np_concatenate. destruct arrays as [| a rest]; [discriminate |].
  destruct (forallb _ rest); [| discriminate].
  intros H Hall. inv_Ok H. cbn [shape flat]. split.
  - f_equal.
    + assert (Hsum : forall l : list (ndarray V),
                Forall (fun a => shape a = 1 :: inner /\ length (flat a) = w) l ->
                fold_right (fun b n => hd 0 (shape b) + n) 0 l = length l).
      { induction 1 as [| x l [Hx _] _ IH]; cbn [fold_right length]; [reflexivity |].
        rewrite Hx, IH. reflexivity. }
      apply (Hsum (a :: rest)). assumption.
    + inversion Hall as [| x l [Hx _] _]; subst. rewrite Hx. reflexivity.
  - change (flat a ++ concat (map flat rest)) with (concat (map flat (a :: rest))).
    rewrite (length_concat_uniform _ w), length_map; [reflexivity |].
    apply Forall_forall. intros fl Hfl.
    apply in_map_iff in Hfl. destruct Hfl as (x & <- & Hx).
    rewrite Forall_forall in Hall. apply Hall. assumption.
Qed.

(** X10.  On the output of a sound calculator, the gradient of every
    block is laid out as its labels have it: its array has the shape
    [(n, 3, 2l + 1, N_max)], where [n] is the number of its samples,
    with that many entries; the second axis is the one of its first
    component, the three directions, the third axis the one of its
    second component, the [2l + 1] values of [m], and the last axis the
    one of the features of the block. *)
Theorem spherical_expansion_gradient_shape (self_hypers : Hypers)
    (frames : list Atoms) (manager : Manager) (log log' : list transform_arg)
    (d : Descriptor) :
  let species := unique_species (flat_map numbers frames) in
  let hypers := with_species self_hypers species in
  let nr := Z.to_nat (max_radial self_hypers) in
  compute_gradients self_hypers = true ->
  RascalSphericalExpansion_compute self_hypers frames log = (Ok d, log') ->
  rascal hypers (Frames frames) = Ok manager ->
  (max_angular self_hypers < 2 ^ 31)%Z ->
  sound_output hypers species frames manager ->
  forall l cs ns block,
    In ((l, cs, ns), block) (combine (sparse_keys hypers species) (blocks d)) ->
    exists g,
      bk_gradients block = [("positions"%string, g)] /\
      shape (gr_data g) = [lb_len (gr_samples g); 3; Z.to_nat (2 * l + 1); nr] /\
      length (flat (gr_data g))
      = lb_len (gr_samples g) * (3 * (Z.to_nat (2 * l + 1) * nr)) /\
      shape (gr_data g)
      = lb_len (gr_samples g)
        :: map lb_len (gr_components g) ++ [lb_len (bk_features block)].
Proof.
  intros species hypers nr Hflag Hd Hcall HL Hsound l cs ns block Hkb.
  destruct (compute_Ok _ _ _ _ _ Hd) as (_ & _ & manager' & Hcall' & Hbuild).
  fold species in Hcall', Hbuild. fold hypers in Hcall', Hbuild.
  rewrite Hcall in Hcall'. injection Hcall' as <-.
  destruct (build_data_Ok _ _ _ _ _ Hbuild)
    as (d0 & lm & g0 & glm & data & gradients & _ & Hg0 & _ & Hg0' & Hs & Hr
        & _ & _ & _ & Hgshape & _ & Hglen & Hblocks).
  cbn [hypers with_species max_radial] in Hgshape, Hglen, Hr.
  fold nr in Hgshape, Hglen.
  destruct Hsound as [_ _ _ (g1 & glm1 & _ & Hshape1 & Hlen1 & Hgrad) _].
  cbn [hypers with_species max_radial compute_gradients max_angular] in Hshape1, Hlen1, Hgrad.
  fold nr in Hshape1, Hlen1.
  rewrite Hshape1 in Hg0. injection Hg0 as <-.
  destruct (Hgrad Hflag) as [H3 Hglm1]. clear Hgrad.
  assert (Hsame : glm = glm1).
  { rewrite Hlen1 in Hglen.
    assert (Hne : g1 * (length species * nr) <> 0) by (subst nr; nia).
    apply (Nat.mul_cancel_l _ _ _ Hne). lia. }
  subst glm1.
  pose proof (in_combine_l _ _ _ _ Hkb) as Hkey.
  apply (sparse_keys_degree hypers species) in Hkey; [| exact HL].
  apply (Forall2_combine_In _ _ _ _ _ _ _ Hblocks) in Hkb.
  apply build_block_Ok in Hkb.
  destruct Hkb as (_ & _ & _ & Hfeat & _ & nsi & lm_slice & _ & Hslice & Hgrad).
  rewrite (lm_slices_getitem hypers l Hkey) in Hslice. injection Hslice as <-.
  replace (compute_gradients hypers) with true in Hgrad by (symmetry; exact Hflag).
  destruct Hgrad as (entries & g & Hentries & Hg & Hattached).
  exists g. split; [exact Hattached |].
  pose proof (clip_lm hypers l glm Hkey Hglm1) as Hcount.
  assert (Hall : Forall (fun a => shape a = [1; 3; Z.to_nat (2 * l + 1); nr] /\
                                  length (flat a) = 3 * (Z.to_nat (2 * l + 1) * nr))
                        (map fst entries)).
  { apply Forall_forall. intros a Ha. apply in_map_iff in Ha.
    destruct Ha as (e & <- & He).
    destruct (gradient_entries_In _ _ _ _ _ _ _ _ _ Hentries He)
      as (sample_i & sc & grad_index & row & _ & Hrow & _ & _ & _ & Hge).
    assert (Hi : grad_index < length (get_gradients_info manager))
      by (apply nth_error_Some; rewrite Hrow; discriminate).
    destruct (gradient_entry_shape _ _ _ _ _ _ _ _ _ _ _ _ Hge Hgshape ltac:(lia))
      as [Hes Hel].
    rewrite Hcount in Hes, Hel. auto. }
  rewrite Hfeat, lb_len_features_labels.
  cbn [hypers with_species max_radial]. fold nr.
  unfold block_gradient_of in Hg. destruct entries as [| e0 entries].
  - inv_Ok Hg. cbn [gr_data gr_samples gr_components np_zeros shape flat map app].
    rewrite !lb_len_spherical_harmonics_m, !lb_len_features_labels.
    cbn [hypers with_species max_radial]. fold nr.
    unfold lb_len. cbn [lb_values length size fold_right Nat.mul repeat].
    repeat split.
  - bind_inv Hg as bg Hbg. inv_Ok Hg.
    cbn [gr_data gr_samples gr_components map app].
    destruct (np_concatenate_rows _ _ _ _ Hbg Hall) as [Hbs Hbl].
    rewrite length_map in Hbs, Hbl.
    rewrite !lb_len_spherical_harmonics_m.
    unfold lb_len. cbn [lb_values length] in *. rewrite !length_map.
    split; [assumption |]. split; [assumption |].
    rewrite Hbs. reflexivity.
Qed.

(** ** The calls of the pair expansion *)

Lemma firstn_seq_le (n m s : nat) : n <= m -> firstn n (seq s m) = seq s n.
Proof.
  revert m s. induction n as [| n IH]; intros m s H; [reflexivity |].
  destruct m as [| m]; [lia |]. cbn [seq firstn]. rewrite IH by lia. reflexivity.
Qed.

Lemma firstn_range (n m : nat) :
  n <= m -> firstn n (range (Z.of_nat m)) = range (Z.of_nat n).
Proof.
  intros H. unfold range. rewrite !Nat2Z.id, firstn_map, firstn_seq_le by assumption.
  reflexivity.
Qed.

Lemma py_max_attained (lengths : list nat) (m : nat) :
  py_max lengths = Ok m -> In m lengths.
Proof.
  destruct lengths as [| n0 rest]; [discriminate |].
  unfold py_max. intros H. inv_Ok H.
  assert (Hfold : forall l acc,
             fold_left Nat.max l acc = acc \/ In (fold_left Nat.max l acc) l).
  { induction l as [| x l IH]; intros acc; simpl; [auto |].
    destruct (IH (Nat.max acc x)) as [H | H]; [| auto].
    rewrite H. destruct (Nat.max_spec acc x) as [[_ ->] | [_ ->]]; auto. }
  destruct (Hfold rest n0) as [-> | H]; [left; reflexivity | right; assumption].
Qed.

(** X11.  In a run of the pair expansion every atom is its own species:
    the calculator is called on each structure with the atomic numbers
    replaced by [0, 1, ..., n - 1], its positions and its cell
    unchanged, and with the species [0, ..., max_atoms - 1], where
    [max_atoms] is the number of atoms of the largest structure. *)
Theorem pair_expansion_pseudo_species (self_hypers : Hypers) (frames : list Atoms)
    (log log' : list transform_arg) (d : Descriptor) :
  RascalPairExpansion_compute self_hypers frames log = (Ok d, log') ->
  exists max_atoms,
    (forall f, In f frames -> len f <= max_atoms) /\
    (exists f, In f frames /\ len f = max_atoms) /\
    log' = log ++ map (fun f => OneFrame {| numbers := range (Z.of_nat (len f));
                                             positions := positions f;
                                             cell := cell f |}) frames /\
    forall f, In f frames ->
      exists manager,
        rascal (with_species self_hypers (range (Z.of_nat max_atoms)))
               (OneFrame {| numbers := range (Z.of_nat (len f));
                            positions := positions f;
                            cell := cell f |}) = Ok manager.
Proof.
  intros H.
  destruct (pair_compute_Ok _ _ _ _ _ H)
    as (max_atoms & entries & data & bs & _ & Hmax & _ & _ & _ & Hloop & _).
  destruct (pair_loop_Ok _ _ _ _ _ _ _ Hloop) as (Hlog & _ & Hnth).
  assert (Hbound : forall f, In f frames -> len f <= max_atoms).
  { intros f Hf. apply (py_max_bound _ _ Hmax). apply in_map. assumption. }
  assert (Hij : forall f, In f frames ->
            with_numbers f (firstn (len f) (range (Z.of_nat max_atoms)))
            = {| numbers := range (Z.of_nat (len f));
                 positions := positions f; cell := cell f |}).
  { intros f Hf. unfold with_numbers. rewrite firstn_range by auto. reflexivity. }
  exists max_atoms. split; [exact Hbound |]. split.
  { apply py_max_attained in Hmax. apply in_map_iff in Hmax.
    destruct Hmax as (f & Hlen & Hf). exists f. auto. }
  split.
  - rewrite Hlog, map_map. f_equal. apply map_ext_in.
    intros f Hf. rewrite Hij by assumption. reflexivity.
  - intros f Hf. apply In_nth_error in Hf as Hk. destruct Hk as (k & Hk).
    destruct (Hnth k (with_numbers f (firstn (len f) (range (Z.of_nat max_atoms)))))
      as (manager & _ & Hcall & _).
    { rewrite nth_error_map, Hk. reflexivity. }
    rewrite Hij in Hcall by assumption. exists manager. exact Hcall.
Qed.

(** ** The samples and the values of the pair expansion *)

Lemma length_pair_coefficients (max_atoms w n : nat) (idata : ndarray V) (a b : nat) :
  length (flat idata) = n * max_atoms * w ->
  a < n -> b < max_atoms ->
  length (pair_coefficients max_atoms w idata a b) = w.
Proof.
  intros Hlen Ha Hb. unfold pair_coefficients.
  rewrite length_firstn, length_skipn, Hlen.
  assert ((a * max_atoms + b + 1) * w <= n * max_atoms * w)
    by (apply Nat.mul_le_mono_r; nia).
  lia.
Qed.

Lemma pair_entry_kept (hypers : Hypers) (max_atoms i : nat) (ijf : Atoms)
    (raw : ndarray V) (entry : ndarray V * list (list Z)) :
  pair_entry hypers max_atoms i ijf raw = Ok entry ->
  exists lm,
    len ijf <> 0 /\ max_atoms <> 0 /\ (0 < max_radial hypers)%Z /\
    length (flat raw)
    = len ijf * (max_atoms * Z.to_nat (max_radial hypers)) * lm /\
    snd entry <> [] /\
    shape (fst entry) = [length (snd entry); Z.to_nat (max_radial hypers); lm] /\
    length (flat (fst entry))
    = length (snd entry) * (Z.to_nat (max_radial hypers) * lm).
Proof.
  unfold pair_entry. intros H. bind_inv H as idata Hidata.
  bind_inv H as kept Hkept. inv_Ok H. cbn [fst snd].
  destruct (reshape_last_Ok _ _ _ Hidata) as (lm & Hshape & Hflat & Hsize & Hlen).
  cbn [map app size fold_right] in Hshape, Hsize, Hlen.
  rewrite !Nat2Z.id in Hshape, Hsize, Hlen. rewrite Nat.mul_1_r in Hsize, Hlen.
  rewrite Hshape in Hkept |- *. cbn [nth] in Hkept |- *.
  set (nr := Z.to_nat (max_radial hypers)) in *.
  set (nonzero := nonzero_pairs (len ijf) max_atoms (nr * lm) idata) in *.
  destruct (reshape_last_Ok _ _ _ Hkept) as (lm' & Hks & Hkf & Hksize & Hklen).
  cbn [map app size fold_right flat] in Hks, Hkf, Hksize, Hklen.
  rewrite !Nat2Z.id in Hks, Hksize, Hklen. fold nr in Hks, Hksize, Hklen.
  rewrite Nat.mul_1_r in Hksize, Hklen.
  assert (Hsel : length (flat_map (fun ab => pair_coefficients max_atoms (nr * lm) idata
                                               (fst ab) (snd ab)) nonzero)
                 = length nonzero * (nr * lm)).
  { assert (Hall : forall l, incl l nonzero ->
              length (flat_map (fun ab => pair_coefficients max_atoms (nr * lm) idata
                                            (fst ab) (snd ab)) l)
              = length l * (nr * lm)).
    { induction l as [| [a b] l IH]; intros Hincl; [reflexivity |].
      cbn [flat_map length fst snd]. rewrite length_app, IH.
      - rewrite (length_pair_coefficients _ _ (len ijf)); [lia | | |].
        + rewrite Hflat, Hlen. ring.
        + apply (nonzero_pairs_In (len ijf) max_atoms (nr * lm) idata a b).
          apply Hincl. left. reflexivity.
        + apply (nonzero_pairs_In (len ijf) max_atoms (nr * lm) idata a b).
          apply Hincl. left. reflexivity.
      - intros x Hx. apply Hincl. right. assumption. }
    apply Hall. apply incl_refl. }
  rewrite Hsel in Hklen.
  assert (Hlm : lm' = lm).
  { apply (Nat.mul_cancel_l _ _ (length nonzero * nr)); [assumption | lia]. }
  subst lm'.
  exists lm. rewrite length_map.
  split; [nia |]. split; [nia |]. split; [lia |]. split; [lia |].
  split.
  { destruct nonzero; [cbn in Hksize; lia | discriminate]. }
  split; [assumption |]. rewrite Hkf, Hsel. reflexivity.
Qed.

(** X12.  A run of the pair expansion returns only if every structure
    has at least one atom and contributes at least one sample: a
    structure whose features are nowhere above the threshold makes the
    call fail with a [ValueError] when its selection is reshaped. *)
Theorem pair_expansion_needs_pairs (self_hypers : Hypers) :
  (forall hypers max_atoms i ijf raw idata,
     reshape_last [Z.of_nat (len ijf); Z.of_nat max_atoms; max_radial hypers] raw
     = Ok idata ->
     nonzero_pairs (len ijf) max_atoms
       (Z.to_nat (max_radial hypers) * nth 3 (shape idata) 0) idata = [] ->
     pair_entry hypers max_atoms i ijf raw = Raise (ValueError "cannot reshape array")) /\
  (forall frames log log' d,
     RascalPairExpansion_compute self_hypers frames log = (Ok d, log') ->
     frames <> [] /\
     (0 < max_radial self_hypers)%Z /\
     forall i f,
       nth_error frames i = Some f ->
       len f <> 0 /\
       exists a b,
         a < len f /\
         forall block, In block (blocks d) ->
           In [int32 (Z.of_nat i); int32 (Z.of_nat a); int32 (Z.of_nat b)]
              (lb_values (bk_samples block))).
Proof.
  split.
  - intros hypers max_atoms i ijf raw idata Hidata Hnone.
    unfold pair_entry. rewrite Hidata. cbn [bind]. rewrite Hnone.
    unfold reshape_last in Hidata |- *.
    cbn [forallb length map size fold_right flat flat_map] in Hidata |- *.
    change (0 <=? Z.of_nat 0)%Z with true. cbn [andb].
    destruct (0 <=? max_radial hypers)%Z; [reflexivity |].
    rewrite !andb_false_r in Hidata. discriminate.
  - intros frames log log' d H.
    destruct (pair_compute_Ok _ _ _ _ _ H)
      as (max_atoms & entries & data & bs & _ & Hmax & _ & _ & _ & Hloop & Hdata & Hbs & ->).
    cbn [blocks] in *.
    destruct (pair_loop_Ok _ _ _ _ _ _ _ Hloop) as (_ & Hlen & Hnth).
    assert (Hframes : frames <> []) by (intros ->; discriminate).
    split; [assumption |].
    assert (Hentry : forall i f, nth_error frames i = Some f ->
              exists entry,
                nth_error entries i = Some entry /\
                len f <> 0 /\ (0 < max_radial self_hypers)%Z /\
                snd entry <> [] /\
                forall row, In row (snd entry) ->
                  exists a b, a < len f /\ row = [Z.of_nat i; Z.of_nat a; Z.of_nat b]).
    { intros i f Hf.
      destruct (Hnth i (with_numbers f (firstn (len f) (range (Z.of_nat max_atoms)))))
        as (manager & entry & Hcall & Hpe & Hne).
      { rewrite nth_error_map, Hf. reflexivity. }
      assert (Hlenf : len (with_numbers f (firstn (len f) (range (Z.of_nat max_atoms))))
                      = len f).
      { unfold len at 1. cbn [numbers with_numbers].
        rewrite length_firstn, length_range, Nat2Z.id.
        pose proof (py_max_bound _ _ Hmax (len f) (in_map len _ _ (nth_error_In _ _ Hf))).
        lia. }
      destruct (pair_entry_kept _ _ _ _ _ _ Hpe) as (lm' & Hl & _ & Hr & _ & Hs & _).
      destruct (pair_entry_Ok _ _ _ _ _ _ Hpe) as (idata & lm & _ & _ & _ & _ & Hrows).
      rewrite Hlenf in Hl, Hrows. cbn [with_species max_radial] in Hr.
      exists entry. repeat split; try assumption.
      intros row Hrow. rewrite Hrows in Hrow. apply in_map_iff in Hrow.
      destruct Hrow as ([a b] & <- & Hab). cbn [fst snd].
      apply nonzero_pairs_In in Hab. destruct Hab as (Ha & _ & _).
      exists a, b. auto. }
    split.
    { destruct frames as [| f0 rest]; [contradiction |].
      destruct (Hentry 0 f0 eq_refl) as (_ & _ & _ & Hr & _). exact Hr. }
    intros i f Hf.
    destruct (Hentry i f Hf) as (entry & Hne & Hl & _ & Hs & Hrows).
    split; [assumption |].
    destruct (snd entry) as [| row rows] eqn:Hsnd; [contradiction |].
    destruct (Hrows row (or_introl eq_refl)) as (a & b & Ha & ->).
    exists a, b. split; [assumption |].
    intros block Hblock.
    destruct (mapM_In _ _ _ _ _ _ Hbs Hblock) as (l & _ & Hl').
    apply pair_block_Ok in Hl'. destruct Hl' as (_ & _ & _ & _ & _ & -> & _).
    cbn [lb_values].
    apply in_map_iff. exists [Z.of_nat i; Z.of_nat a; Z.of_nat b].
    split; [reflexivity |].
    apply in_concat. exists (snd entry). split.
    + apply in_map. eapply nth_error_In. exact Hne.
    + rewrite Hsnd. left. reflexivity.
Qed.

Lemma np_concatenate_Ok (arrays : list (ndarray V)) (b : ndarray V) :
  np_concatenate arrays = Ok b ->
  exists a rest,
    arrays = a :: rest /\
    Forall (fun x => tl (shape x) = tl (shape a)) arrays /\
    shape b = fold_right (fun x n => hd 0 (shape x) + n) 0 arrays :: tl (shape a) /\
    flat b = concat (map flat arrays).
Proof.
  unfold np_concatenate. destruct arrays as [| a rest]; [discriminate |].
  destruct (forallb _ rest) eqn:Hall; [| discriminate].
  intros H. exists a, rest. split; [reflexivity |].
  assert (Hb : b = {| shape := fold_right (fun x n => hd 0 (shape x) + n) 0 (a :: rest)
                               :: tl (shape a);
                      flat := concat (map flat (a :: rest)) |}) by congruence.
  subst b. cbn [shape flat]. split; [| split; reflexivity].
  constructor; [reflexivity |].
  apply Forall_forall. intros x Hx. rewrite forallb_forall in Hall.
  apply (list_eqb_eq _ Nat.eqb Nat.eqb_eq). auto.
Qed.

Lemma slice_last_Ok (data : ndarray V) (lm_slice : Z * Z) (b : ndarray V) :
  slice_last data lm_slice = Ok b ->
  exists d0 d1 d2,
    shape data = [d0; d1; d2] /\ shape b = [d0; d1; snd (clip d2 lm_slice)].
Proof.
  unfold slice_last. destruct (shape data) as [| d0 [| d1 [| d2 [|]]]]; try discriminate.
  destruct (clip d2 lm_slice) as [first count] eqn:Hclip. intros H. inv_Ok H.
  exists d0, d1, d2. rewrite Hclip. auto.
Qed.

(** X13.  The values of the blocks of the pair expansion have one row
    per sample: the calculator must return the same number [lm] of
    angular components for every structure, and the block of degree [l]
    has the shape (samples, components of [l] among the first [lm],
    [N_max]), which is the shape its labels announce when
    [lm >= (L_max + 1)^2]. *)
Theorem pair_expansion_block_shape (self_hypers : Hypers) (frames : list Atoms)
    (log log' : list transform_arg) (d : Descriptor) :
  RascalPairExpansion_compute self_hypers frames log = (Ok d, log') ->
  (max_angular self_hypers < 2 ^ 31)%Z ->
  exists (max_atoms lm : nat),
    let hypers := with_species self_hypers (range (Z.of_nat max_atoms)) in
    let nr := Z.to_nat (max_radial self_hypers) in
    py_max (map len frames) = Ok max_atoms /\
    (forall f manager,
       In f frames ->
       rascal hypers
         (OneFrame (with_numbers f (firstn (len f) (range (Z.of_nat max_atoms)))))
       = Ok manager ->
       length (flat (get_features manager)) = len f * (max_atoms * nr) * lm) /\
    forall l block,
      In (l, block) (combine (range (max_angular self_hypers + 1)) (blocks d)) ->
      bk_components block = [spherical_harmonics_m l] /\
      shape (bk_values block)
      = [lb_len (bk_samples block); snd (clip lm (l * l, (l + 1) * (l + 1))%Z); nr] /\
      (Z.to_nat ((max_angular self_hypers + 1) * (max_angular self_hypers + 1)) <= lm ->
       shape (bk_values block)
       = lb_len (bk_samples block)
         :: map lb_len (bk_components block) ++ [lb_len (bk_features block)]).
Proof.
  intros H HL.
  destruct (pair_compute_Ok _ _ _ _ _ H)
    as (max_atoms & entries & data & bs & _ & Hmax & _ & _ & _ & Hloop & Hdata & Hbs & ->).
  clear H. cbn [blocks].
  set (hypers := with_species self_hypers (range (Z.of_nat max_atoms))) in *.
  set (nr := Z.to_nat (max_radial self_hypers)).
  destruct (pair_loop_Ok _ _ _ _ _ _ _ Hloop) as (_ & Hlen & Hnth).
  rewrite length_map in Hlen.
  destruct (np_concatenate_Ok _ _ Hdata) as (a0 & rest & Harrays & Htl & Hshape & _).
  (* every entry is the selection of one structure *)
  assert (Hper : forall i f, nth_error frames i = Some f ->
            exists manager entry lm,
              rascal hypers
                (OneFrame (with_numbers f (firstn (len f) (range (Z.of_nat max_atoms)))))
              = Ok manager /\
              nth_error entries i = Some entry /\
              length (flat (get_features manager)) = len f * (max_atoms * nr) * lm /\
              shape (fst entry) = [length (snd entry); nr; lm]).
  { intros i f Hf.
    destruct (Hnth i (with_numbers f (firstn (len f) (range (Z.of_nat max_atoms)))))
      as (manager & entry & Hcall & Hpe & Hne).
    { rewrite nth_error_map, Hf. reflexivity. }
    assert (Hlenf : len (with_numbers f (firstn (len f) (range (Z.of_nat max_atoms))))
                    = len f).
    { unfold len at 1. cbn [numbers with_numbers].
      rewrite length_firstn, length_range, Nat2Z.id.
      pose proof (py_max_bound _ _ Hmax (len f) (in_map len _ _ (nth_error_In _ _ Hf))).
      lia. }
    destruct (pair_entry_kept _ _ _ _ _ _ Hpe) as (lm & _ & _ & _ & Hraw & _ & Hs & _).
    rewrite Hlenf in Hraw. cbn [hypers with_species max_radial] in Hraw, Hs.
    exists manager, entry, lm. auto. }
  assert (Hentries : forall entry, In entry entries ->
            exists lm, shape (fst entry) = [length (snd entry); nr; lm]).
  { intros entry He. apply In_nth_error in He. destruct He as (i & Hi).
    destruct (nth_error frames i) as [f |] eqn:Hf.
    2: { apply nth_error_None in Hf.
         assert (i < length entries) by (apply nth_error_Some; congruence). lia. }
    destruct (Hper i f Hf) as (_ & entry' & lm & _ & Hne & _ & Hs).
    rewrite Hi in Hne. injection Hne as <-. exists lm. exact Hs. }
  (* the first one fixes the number of angular components *)
  assert (Ha0 : exists e0, In e0 entries /\ fst e0 = a0).
  { destruct entries as [| e0 es]; [discriminate |]. injection Harrays as <- _.
    exists e0. split; [left |]; reflexivity. }
  destruct Ha0 as (e0 & He0 & <-).
  destruct (Hentries e0 He0) as (lm & Hs0).
  assert (Hlm : forall entry, In entry entries ->
            shape (fst entry) = [length (snd entry); nr; lm]).
  { intros entry He. destruct (Hentries entry He) as (lm' & Hs).
    rewrite Forall_forall in Htl. specialize (Htl (fst entry) (in_map fst _ _ He)).
    rewrite Hs, Hs0 in Htl. cbn [tl] in Htl. injection Htl as ->. exact Hs. }
  assert (Hrows : fold_right (fun x n => hd 0 (shape x) + n) 0 (map fst entries)
                  = length (concat (map snd entries))).
  { clear - Hlm. induction entries as [| e es IH]; [reflexivity |].
    cbn [map fold_right concat]. rewrite length_app, IH.
    - rewrite (Hlm e (or_introl eq_refl)). reflexivity.
    - intros entry He. apply Hlm. right. assumption. }
  rewrite Hrows, Hs0 in Hshape. cbn [tl] in Hshape.
  exists max_atoms, lm. cbn zeta. fold hypers. fold nr.
  split; [exact Hmax |]. split.
  - intros f manager Hf Hcall. apply In_nth_error in Hf. destruct Hf as (i & Hf).
    destruct (Hper i f Hf) as (manager' & entry & lm' & Hcall' & Hne & Hraw & Hs).
    rewrite Hcall in Hcall'. injection Hcall' as <-.
    rewrite (Hlm entry (nth_error_In _ _ Hne)) in Hs. injection Hs as <-.
    exact Hraw.
  - intros l block Hlb.
    assert (Hl : (0 <= l <= max_angular self_hypers)%Z).
    { apply in_combine_l in Hlb. unfold range in Hlb. apply in_map_iff in Hlb.
      destruct Hlb as (n & <- & Hn). apply in_seq in Hn. lia. }
    assert (Hpb : pair_block hypers data
                    {| lb_names := pair_sample_names;
                       lb_values := map (map int32) (concat (map snd entries)) |} l
                  = Ok block).
    { apply mapM_Forall2 in Hbs.
      cbn [hypers with_species max_angular] in Hbs.
      apply (Forall2_combine_In _ _ _ _ _ _ _ Hbs).
      rewrite combine_map_fst. apply in_map_iff. exists (l, block).
      cbn [fst snd]. rewrite int32_small by lia. auto. }
    apply pair_block_Ok in Hpb.
    destruct Hpb as (lm_slice & b0 & Hslice & Hb0 & Hb1 & Hsm & Hcomp & Hfeat & _).
    rewrite (lm_slices_getitem hypers l Hl) in Hslice. injection Hslice as <-.
    rewrite Hsm, Hcomp, Hfeat.
    destruct (slice_last_Ok _ _ _ Hb0) as (d0 & d1 & d2 & Hd & Hb0s).
    rewrite Hshape in Hd. injection Hd as <- <- <-.
    destruct (swapaxes_1_2_Ok _ _ Hb1) as (c0 & c1 & c2 & Hc & Hb1s & _).
    rewrite Hb0s in Hc. injection Hc as <- <- <-.
    assert (Hsamples : lb_len {| lb_names := pair_sample_names;
                                 lb_values := map (map int32) (concat (map snd entries)) |}
                       = length (concat (map snd entries))).
    { unfold lb_len. cbn [lb_values]. apply length_map. }
    rewrite Hsamples.
    split; [reflexivity |]. split; [exact Hb1s |].
    intros Hbig. rewrite Hb1s. cbn [map app].
    pose proof (clip_lm hypers l lm Hl Hbig) as Hcount.
    unfold clip in Hcount |- *. cbn [fst snd] in Hcount |- *. rewrite Hcount.
    rewrite lb_len_spherical_harmonics_m, lb_len_features_labels. reflexivity.
Qed.


(** ** Failures of the pair expansion *)

Lemma pair_loop_Raise (hypers : Hypers) (max_atoms : nat) (ijframes : list Atoms) :
  forall (i : nat) (log log' : list transform_arg) (e : exn),
  pair_loop hypers max_atoms i ijframes log = (Raise e, log') ->
  exists k ijf,
    nth_error ijframes k = Some ijf /\
    log' = log ++ map OneFrame (firstn (S k) ijframes) /\
    (rascal hypers (OneFrame ijf) = Raise e \/
     exists manager,
       rascal hypers (OneFrame ijf) = Ok manager /\
       pair_entry hypers max_atoms (i + k) ijf (get_features manager) = Raise e).
Proof.
  induction ijframes as [| ijf rest IH]; intros i log log' e H.
  - discriminate.
  - cbn [pair_loop] in H. unfold cbind, transform, lift in H.
    destruct (rascal hypers (OneFrame ijf)) as [manager | e0] eqn:Hcall.
    + destruct (pair_entry hypers max_atoms i ijf (get_features manager))
        as [entry | e1] eqn:Hentry.
      * destruct (pair_loop hypers max_atoms (S i) rest (log ++ [OneFrame ijf]))
          as [[entries | e2] log2] eqn:Hrest; [discriminate |].
        injection H as <- <-.
        destruct (IH _ _ _ _ Hrest) as (k & f & Hk & Hlog & Hfail).
        exists (S k), f. split; [exact Hk |]. split.
        { rewrite Hlog, <- app_assoc. reflexivity. }
        replace (i + S k) with (S i + k) by lia. exact Hfail.
      * injection H as <- <-. exists 0, ijf. rewrite Nat.add_0_r.
        split; [reflexivity |]. split; [reflexivity |].
        right. exists manager. auto.
    + injection H as <- <-. exists 0, ijf.
      split; [reflexivity |]. split; [reflexivity |]. left. exact Hcall.
Qed.

Lemma cbind_lift (A B : Type) (r : result A) (k : A -> calc B)
    (log : list transform_arg) :
  cbind (lift r) k log
  = match r with
    | Ok a => k a log
    | Raise e => (Raise e, log)
    end.
Proof. unfold cbind, lift. destruct r; reflexivity. Qed.

(** X14.  When the pair expansion fails without the gradient flag, the
    calculator has been called on the structures in their order, up to
    and including the first one that fails, and on no structure after
    it.  Either there is no frame; or the calculator cannot be built
    from the hyper-parameters; or the labels of the keys or of the
    features cannot be made, [max_angular] being negative or
    [max_radial] not positive: in these three cases no call was made.
    Or the exception is the one raised by the calculator or by the
    selection of the pairs for the last structure called; or all the
    structures went through and the failure is in the assembly of the
    blocks. *)
Theorem pair_expansion_stops_at_first_failure (self_hypers : Hypers)
    (frames : list Atoms) (log log' : list transform_arg) (e : exn) :
  compute_gradients self_hypers = false ->
  RascalPairExpansion_compute self_hypers frames log = (Raise e, log') ->
  (frames = [] /\ log' = log /\ e = ValueError "max() arg is an empty sequence") \/
  exists max_atoms,
    let hypers := with_species self_hypers (range (Z.of_nat max_atoms)) in
    let ijframe := fun f =>
      with_numbers f (firstn (len f) (range (Z.of_nat max_atoms))) in
    py_max (map len frames) = Ok max_atoms /\
    ((log' = log /\ SphericalExpansion hypers = Raise e) \/
     (log' = log /\
      SphericalExpansion hypers = Ok tt /\
      ((max_angular self_hypers < 0)%Z \/ (max_radial self_hypers <= 0)%Z) /\
      e = ValueError "values parameter must be a 2D array") \/
     (SphericalExpansion hypers = Ok tt /\
      (0 <= max_angular self_hypers)%Z /\
      (0 < max_radial self_hypers)%Z /\
      ((exists k f,
          nth_error frames k = Some f /\
          log' = log ++ map (fun f => OneFrame (ijframe f)) (firstn (S k) frames) /\
          (rascal hypers (OneFrame (ijframe f)) = Raise e \/
           exists manager,
             rascal hypers (OneFrame (ijframe f)) = Ok manager /\
             pair_entry hypers max_atoms k (ijframe f) (get_features manager)
             = Raise e)) \/
       log' = log ++ map (fun f => OneFrame (ijframe f)) frames))).
Proof.
  intros Hflag. unfold RascalPairExpansion_compute. rewrite Hflag. cbv beta iota.
  rewrite cbind_lift.
  destruct (py_max (map len frames)) as [max_atoms | e0] eqn:Hmax.
  2: { intros H. left. injection H as <- <-.
       destruct frames as [| f rest]; [| discriminate].
       cbn in Hmax. injection Hmax as <-. auto. }
  intros H. right. exists max_atoms. cbn zeta. split; [reflexivity |].
  rewrite cbind_lift in H.
  destruct (SphericalExpansion (with_species self_hypers (range (Z.of_nat max_atoms))))
    as [[] | e1] eqn:Hbuilt.
  2: { left. injection H as <- <-. auto. }
  right. rewrite cbind_lift in H.
  destruct (Z.leb_spec 0 (max_angular self_hypers)) as [HL | HL].
  2: { rewrite Labels_of_list_empty in H.
       - injection H as <- <-. left. auto.
       - cbn [lb_values with_species max_angular]. unfold range.
         replace (Z.to_nat (max_angular self_hypers + 1)) with 0 by lia. reflexivity. }
  rewrite Labels_of_list_total in H.
  2: { cbn [lb_values with_species max_angular]. unfold range.
       replace (Z.to_nat (max_angular self_hypers + 1))
         with (S (Z.to_nat (max_angular self_hypers))) by lia.
       discriminate. }
  rewrite cbind_lift in H.
  destruct (Z.ltb_spec 0 (max_radial self_hypers)) as [HN | HN].
  2: { rewrite Labels_of_list_empty in H.
       - injection H as <- <-. left. auto.
       - unfold features_labels, range. cbn [lb_values with_species max_radial].
         replace (Z.to_nat (max_radial self_hypers)) with 0 by lia. reflexivity. }
  rewrite Labels_of_list_total in H.
  2: { unfold features_labels, range. cbn [lb_values with_species max_radial].
       replace (Z.to_nat (max_radial self_hypers))
         with (S (Z.to_nat (max_radial self_hypers - 1))) by lia.
       discriminate. }
  right. split; [reflexivity |]. split; [assumption |]. split; [assumption |].
  unfold cbind in H.
  match type of H with
  | context [pair_loop ?h ?m ?i ?fs ?lg] =>
      destruct (pair_loop h m i fs lg) as [[entries | e2] log1] eqn:Hloop
  end.
  - right. apply pair_loop_Ok in Hloop. destruct Hloop as (Hlog & _).
    unfold lift in H. injection H as _ <-. rewrite Hlog, map_map. reflexivity.
  - left. injection H as <- <-.
    destruct (pair_loop_Raise _ _ _ _ _ _ _ Hloop) as (k & ijf & Hk & Hlog & Hfail).
    rewrite nth_error_map in Hk.
    destruct (nth_error frames k) as [f |] eqn:Hf; [| discriminate].
    cbn [option_map] in Hk. injection Hk as <-.
    exists k, f. split; [exact Hf |]. split; [| exact Hfail].
    rewrite Hlog, firstn_map, map_map. reflexivity.
Qed.

(** ** The spherical expansion on tensors *)

(** A structure whose positions are a tensor that may require a
    gradient. *)
Record TorchFrame : Type := mk_TorchFrame {
  tf_positions : list (V * V * V);
  tf_requires_grad : bool;
  tf_species : list Z;
  tf_cell : list (V * V * V)
}.

(** [TorchFrame.__init__] *)
Definition TorchFrame_init (frame : Atoms) (requires_grad : bool) : TorchFrame :=
  {| tf_positions := positions frame;
     tf_requires_grad := requires_grad;
     tf_species := numbers frame;
     tf_cell := cell frame |}.

(** [TorchFrame.__len__] *)
Definition TorchFrame_len (frame : TorchFrame) : nat := length (tf_species frame).

(** A row of the gradient metadata, as stored in the saved tensor. *)
Definition gradient_info_row (row : gradient_info) : list Z :=
  [gi_structure row; gi_center row; gi_neighbor row; gi_column_3 row;
   gi_neighbor_species row].

(** [SphericalExpansionAutograd.forward]: the two tensors saved for
    [backward], then the two outputs.  The arguments are tensors by
    their types. *)
Definition forward (calculator : Hypers) (positions cell : list (V * V * V))
    (numbers : list Z)
    : calc ((ndarray V * list (list Z)) * (list center_info * ndarray V)) :=
  let frame := {| numbers := numbers; positions := positions; cell := cell |} in
  manager <-- transform calculator (OneFrame frame) ;;
  let descriptor := get_features manager in
  let samples := get_representation_info manager in
  let grad_descriptor := get_features_gradient manager in
  let grad_info := get_gradients_info manager in
  lift (Ok ((grad_descriptor, map gradient_info_row grad_info), (samples, descriptor))).

(** [SphericalExpansionAutograd.apply]: the outputs of [forward]; what
    was saved stays with the graph of the outputs. *)
Definition apply (calculator : Hypers) (positions cell : list (V * V * V))
    (numbers : list Z) : calc (list center_info * ndarray V) :=
  r <-- forward calculator positions cell numbers ;;
  lift (Ok (snd r)).

(** [info[:, 0] = i] *)
Definition set_structure (i : nat) (row : center_info) : center_info :=
  {| ci_structure := Z.of_nat i;
     ci_center := ci_center row;
     ci_species := ci_species row |}.

(** Lines 352-363: one call of the calculator per frame. *)
Fixpoint torch_loop (calculator : Hypers) (i : nat) (frames : list TorchFrame)
    : calc (list (ndarray V) * list (list center_info)) :=
  match frames with
  | [] => lift (Ok ([], []))
  | frame :: rest =>
      r <-- apply calculator (tf_positions frame) (tf_cell frame) (tf_species frame) ;;
      let spx := snd r in
      let info := map (set_structure i) (fst r) in
      rs <-- torch_loop calculator (S i) rest ;;
      lift (Ok (spx :: fst rs, info :: snd rs))
  end.

(** [torch.vstack] on matrices. *)
Definition torch_vstack (tensors : list (ndarray V)) : result (ndarray V) :=
  match np_concatenate tensors with
  | Ok a => Ok a
  | Raise _ => Raise RuntimeError
  end.

(** [t.reshape(d_1, ..., d_k, -1)] on a tensor. *)
Definition torch_reshape_last (dims : list Z) (t : ndarray V) : result (ndarray V) :=
  match reshape_last dims t with
  | Ok a => Ok a
  | Raise _ => Raise RuntimeError
  end.

(** Lines 399-421: the block of one key.  Its samples are rows of the
    metadata array, which has two axes also when no row is selected;
    [features] are the labels made on lines 382-385. *)
Definition torch_block (hypers : Hypers) (species : list Z) (data : ndarray V)
    (info : list center_info) (key : Z * Z * Z) : result Block :=
  let '(l, center_species, neighbor_species) := key in
  neighbor_species_i <- list_index species neighbor_species ;;
  let center_species_mask :=
    where_rows (fun row => (ci_species row =? center_species)%Z) info in
  lm_slice <- py_getitem (lm_slices hypers) l ;;
  block_data <- select_block data (map fst center_species_mask)
                  neighbor_species_i lm_slice ;;
  block_data <- swapaxes_1_2 block_data ;;
  component <- Labels_of_list (spherical_harmonics_m l) ;;
  Ok {| bk_values := block_data;
        bk_samples :=
          {| lb_names := ["structure"; "center"]%string;
             lb_values :=
               map (fun ir => [int32 (ci_structure (snd ir)); int32 (ci_center (snd ir))])
                   center_species_mask |};
        bk_components := [component];
        bk_features := features_labels hypers;
        bk_gradients := [] |}.

(** [RascalSphericalExpansionTorch.compute] *)
Definition RascalSphericalExpansionTorch_compute (self_hypers : Hypers)
    (frames : list TorchFrame) : calc Descriptor :=
  all_numbers <-- lift (match frames with
                        | [] => Raise (ValueError "need at least one array to concatenate")
                        | _ :: _ => Ok (flat_map tf_species frames)
                        end) ;;
  let species := unique_species all_numbers in
  let hypers := with_species self_hypers species in
  _ <-- lift (SphericalExpansion hypers) ;;
  r <-- torch_loop hypers 0 frames ;;
  lift (data <- torch_vstack (fst r) ;;
        let info := concat (snd r) in
        let keys := sparse_keys hypers species in
        sparse <- Labels_of_list (sparse_labels keys) ;;
        _ <- Labels_of_list (features_labels hypers) ;;
        d0 <- py_getitem (shape data) 0 ;;
        data <- torch_reshape_last
                  [Z.of_nat d0; Z.of_nat (length species); max_radial hypers] data ;;
        blocks <- mapM (torch_block hypers species data info) keys ;;
        Ok {| sparse := sparse; blocks := blocks |}).

(** The frame [forward] hands to the calculator. *)
Definition frame_of (f : TorchFrame) : Atoms :=
  {| numbers := tf_species f; positions := tf_positions f; cell := tf_cell f |}.

Lemma torch_loop_Ok (calculator : Hypers) (frames : list TorchFrame) :
  forall (i : nat) (log log' : list transform_arg)
         (r : list (ndarray V) * list (list center_info)),
  torch_loop calculator i frames log = (Ok r, log') ->
  log' = log ++ map (fun f => OneFrame (frame_of f)) frames /\
  length (fst r) = length frames /\
  length (snd r) = length frames /\
  forall k f,
    nth_error frames k = Some f ->
    exists manager,
      rascal calculator (OneFrame (frame_of f)) = Ok manager /\
      nth_error (fst r) k = Some (get_features manager) /\
      nth_error (snd r) k
      = Some (map (set_structure (i + k)) (get_representation_info manager)).
Proof.
  induction frames as [| frame rest IH]; intros i log log' r H.
  - cbn [torch_loop] in H. apply lift_Ok in H. destruct H as [H ->]. inv_Ok H.
    cbn [map fst snd length]. rewrite app_nil_r.
    repeat split. intros [| k] f Hk; discriminate.
  - cbn [torch_loop] in H.
    apply cbind_Ok in H. destruct H as (out & log1 & Hcall & H).
    unfold apply, forward in Hcall.
    apply cbind_Ok in Hcall. destruct Hcall as (saved & log0 & Hcall & Hout).
    apply cbind_Ok in Hcall. destruct Hcall as (manager & log00 & Hcall & Hsaved).
    apply transform_Ok in Hcall. destruct Hcall as [Hcall ->].
    apply lift_Ok in Hsaved. destruct Hsaved as [Hsaved ->]. inv_Ok Hsaved.
    apply lift_Ok in Hout. destruct Hout as [Hout ->]. inv_Ok Hout.
    apply cbind_Ok in H. destruct H as (rs & log2 & Hrest & H).
    apply lift_Ok in H. destruct H as [H ->]. inv_Ok H.
    destruct (IH _ _ _ _ Hrest) as (-> & Hl1 & Hl2 & Hnth).
    cbn [map fst snd length]. rewrite <- app_assoc. cbn [app].
    split; [reflexivity |]. split; [f_equal; assumption |].
    split; [f_equal; assumption |].
    intros [| k] f Hk; cbn [nth_error] in Hk.
    + inv_Ok Hk. exists manager. rewrite Nat.add_0_r. auto.
    + destruct (Hnth k f Hk) as (m & Hm & H1 & H2).
      exists m. replace (i + S k) with (S i + k) by lia. auto.
Qed.

Lemma torch_block_Ok (hypers : Hypers) (species : list Z) (data : ndarray V)
    (info : list center_info) (l center_species neighbor_species : Z) (block : Block) :
  torch_block hypers species data info (l, center_species, neighbor_species)
  = Ok block ->
  bk_samples block
  = {| lb_names := ["structure"; "center"]%string;
       lb_values :=
         map (fun ir => [int32 (ci_structure (snd ir)); int32 (ci_center (snd ir))])
             (where_rows (fun row => (ci_species row =? center_species)%Z) info) |} /\
  bk_components block = [spherical_harmonics_m l] /\
  bk_features block = features_labels hypers /\
  bk_gradients block = [].
Proof.
  unfold torch_block. intros H.
  bind_inv H as nsi Hnsi. bind_inv H as lm_slice Hslice.
  bind_inv H as bd0 Hbd0. bind_inv H as bd Hbd.
  bind_inv H as c Hc. apply Labels_of_list_Ok in Hc. destruct Hc as [-> _].
  inv_Ok H. cbn. auto.
Qed.

Lemma torch_compute_Ok (self_hypers : Hypers) (frames : list TorchFrame)
    (log log' : list transform_arg) (d : Descriptor) :
  RascalSphericalExpansionTorch_compute self_hypers frames log = (Ok d, log') ->
  let species := unique_species (flat_map tf_species frames) in
  let hypers := with_species self_hypers species in
  frames <> [] /\
  exists (r : list (ndarray V) * list (list center_info)) (data : ndarray V),
    torch_loop hypers 0 frames log = (Ok r, log') /\
    sparse d = sparse_labels (sparse_keys hypers species) /\
    Forall2 (fun key block =>
               torch_block hypers species data (concat (snd r)) key = Ok block)
            (sparse_keys hypers species) (blocks d).
Proof.
  unfold RascalSphericalExpansionTorch_compute. intros H.
  apply cbind_Ok in H. destruct H as (all_numbers & log1 & H1 & H).
  apply lift_Ok in H1. destruct H1 as [H1 ->].
  destruct frames as [| f frames]; [discriminate |]. inv_Ok H1.
  apply cbind_Ok in H. destruct H as (built & log0 & Hbuilt & H).
  apply lift_Ok in Hbuilt. destruct Hbuilt as [_ ->].
  apply cbind_Ok in H. destruct H as (r & log2 & Hloop & H).
  apply lift_Ok in H. destruct H as [H ->].
  bind_inv H as data0 Hdata0.
  bind_inv H as sp Hsp. apply Labels_of_list_Ok in Hsp. destruct Hsp as [-> _].
  bind_inv H as ft Hft.
  bind_inv H as d0 Hd0. bind_inv H as data Hdata.
  bind_inv H as bs Hbs. inv_Ok H. cbn [sparse blocks].
  split; [discriminate |]. exists r, data.
  split; [exact Hloop |]. split; [reflexivity |].
  apply mapM_Forall2. assumption.
Qed.

(** X15.  The builder on tensors calls the calculator once for each
    frame, in order, on that frame alone; its result has one block for
    each key [(l, center_species, neighbor_species)] of the cross
    product over the degrees and the sorted species of all frames, in
    that order, and no block carries a gradient. *)
Theorem torch_expansion_one_call_per_frame (self_hypers : Hypers)
    (frames : list TorchFrame) (log log' : list transform_arg) (d : Descriptor) :
  let species := unique_species (flat_map tf_species frames) in
  let hypers := with_species self_hypers species in
  RascalSphericalExpansionTorch_compute self_hypers frames log = (Ok d, log') ->
  frames <> [] /\
  log' = log ++ map (fun f => OneFrame {| numbers := tf_species f;
                                           positions := tf_positions f;
                                           cell := tf_cell f |}) frames /\
  (forall f, In f frames ->
     exists manager,
       rascal hypers (OneFrame {| numbers := tf_species f;
                                  positions := tf_positions f;
                                  cell := tf_cell f |}) = Ok manager) /\
  sparse d = sparse_labels (sparse_keys hypers species) /\
  length (blocks d)
  = Z.to_nat (max_angular self_hypers + 1) * (length species * length species) /\
  Forall (fun block => bk_gradients block = []) (blocks d).
Proof.
  intros species hypers H.
  destruct (torch_compute_Ok _ _ _ _ _ H) as (Hne & r & data & Hloop & Hsparse & Hblocks).
  fold species in Hloop, Hsparse, Hblocks. fold hypers in Hloop, Hsparse, Hblocks.
  destruct (torch_loop_Ok _ _ _ _ _ _ Hloop) as (Hlog & _ & _ & Hnth).
  split; [assumption |]. split; [exact Hlog |]. split.
  { intros f Hf. apply In_nth_error in Hf. destruct Hf as (k & Hk).
    destruct (Hnth k f Hk) as (manager & Hcall & _). exists manager. exact Hcall. }
  split; [assumption |]. split.
  - rewrite <- (Forall2_length Hblocks), length_sparse_keys. reflexivity.
  - apply Forall_forall. intros block Hblock.
    destruct (Forall2_In_r _ _ _ _ _ _ Hblocks Hblock) as ([[l cs] ns] & _ & Hkey).
    apply torch_block_Ok in Hkey. tauto.
Qed.

Lemma where_rows_found (A : Type) (p : A -> bool) (rows : list A) (r : A) :
  In r rows -> p r = true -> exists i, In (i, r) (where_rows p rows).
Proof.
  intros Hin Hp.
  assert (H : In r (map snd (where_rows p rows))).
  { rewrite where_rows_filter. apply filter_In. auto. }
  apply in_map_iff in H. destruct H as ([i r'] & Heq & H). cbn in Heq. subst r'.
  exists i. exact H.
Qed.

(** X16.  The samples of the builder on tensors: the block of a key with
    center species [cs] has exactly the rows (structure, center) of the
    centers of species [cs] that the calculator reports for the frames,
    where the structure is the position of the frame in the list given
    to [compute], whatever structure the calculator reports, and the
    center is the index the calculator reports on that frame alone, as
    a 32 bit integer. *)
Theorem torch_expansion_samples (self_hypers : Hypers)
    (frames : list TorchFrame) (log log' : list transform_arg) (d : Descriptor) :
  let species := unique_species (flat_map tf_species frames) in
  let hypers := with_species self_hypers species in
  RascalSphericalExpansionTorch_compute self_hypers frames log = (Ok d, log') ->
  forall l cs ns block,
    In ((l, cs, ns), block) (combine (sparse_keys hypers species) (blocks d)) ->
    lb_names (bk_samples block) = ["structure"; "center"]%string /\
    forall row,
      In row (lb_values (bk_samples block)) <->
      exists i f manager r,
        nth_error frames i = Some f /\
        rascal hypers (OneFrame {| numbers := tf_species f;
                                   positions := tf_positions f;
                                   cell := tf_cell f |}) = Ok manager /\
        In r (get_representation_info manager) /\
        ci_species r = cs /\
        row = [int32 (Z.of_nat i); int32 (ci_center r)].
Proof.
  intros species hypers H l cs ns block Hkb.
  destruct (torch_compute_Ok _ _ _ _ _ H) as (Hne & r & data & Hloop & Hsparse & Hblocks).
  fold species in Hloop, Hsparse, Hblocks. fold hypers in Hloop, Hsparse, Hblocks.
  destruct (torch_loop_Ok _ _ _ _ _ _ Hloop) as (_ & _ & Hlen & Hnth).
  apply (Forall2_combine_In _ _ _ _ _ _ _ Hblocks) in Hkb.
  apply torch_block_Ok in Hkb. destruct Hkb as (-> & _).
  cbn [lb_names lb_values]. split; [reflexivity |].
  intros row. rewrite in_map_iff. split.
  - intros ([idx r'] & <- & Hir). cbn [snd].
    apply where_rows_In in Hir. destruct Hir as (_ & Hr' & Hp).
    apply Z.eqb_eq in Hp.
    apply in_concat in Hr'. destruct Hr' as (rows & Hrows & Hr').
    apply In_nth_error in Hrows. destruct Hrows as (i & Hi).
    destruct (nth_error frames i) as [f |] eqn:Hf.
    2: { apply nth_error_None in Hf.
         assert (i < length (snd r)) by (apply nth_error_Some; congruence). lia. }
    destruct (Hnth i f Hf) as (manager & Hcall & _ & Hinfo).
    rewrite Hi in Hinfo. injection Hinfo as ->.
    apply in_map_iff in Hr'. destruct Hr' as (r0 & <- & Hr0).
    exists i, f, manager, r0. cbn [set_structure ci_structure ci_center ci_species] in *.
    auto.
  - intros (i & f & manager & r0 & Hf & Hcall & Hr0 & Hcs & ->).
    destruct (Hnth i f Hf) as (manager' & Hcall' & _ & Hinfo).
    unfold frame_of in Hcall'. rewrite Hcall in Hcall'. injection Hcall' as <-.
    assert (Hin : In (set_structure i r0) (concat (snd r))).
    { apply in_concat. eexists. split; [eapply nth_error_In; exact Hinfo |].
      apply in_map. assumption. }
    destruct (where_rows_found _ (fun row => (ci_species row =? cs)%Z) _ _ Hin)
      as (idx & Hidx).
    { cbn [set_structure ci_species]. apply Z.eqb_eq. assumption. }
    exists (idx, set_structure i r0). split; [reflexivity | exact Hidx].
Qed.

Lemma torch_loop_managers (calculator : Hypers) (frames : list TorchFrame) :
  forall (i : nat) (log log' : list transform_arg)
         (r : list (ndarray V) * list (list center_info)),
  torch_loop calculator i frames log = (Ok r, log') ->
  exists managers,
    Forall2 (fun f manager => rascal calculator (OneFrame (frame_of f)) = Ok manager)
            frames managers /\
    fst r = map get_features managers /\
    map (map ci_species) (snd r)
    = map (fun manager => map ci_species (get_representation_info manager)) managers.
Proof.
  induction frames as [| frame rest IH]; intros i log log' r H.
  - cbn [torch_loop] in H. apply lift_Ok in H. destruct H as [H _]. inv_Ok H.
    exists []. split; [constructor |]. split; reflexivity.
  - cbn [torch_loop] in H.
    apply cbind_Ok in H. destruct H as (out & log1 & Hcall & H).
    unfold apply, forward in Hcall.
    apply cbind_Ok in Hcall. destruct Hcall as (saved & log0 & Hcall & Hout).
    apply cbind_Ok in Hcall. destruct Hcall as (manager & log00 & Hcall & Hsaved).
    apply transform_Ok in Hcall. destruct Hcall as [Hcall _].
    apply lift_Ok in Hsaved. destruct Hsaved as [Hsaved _]. inv_Ok Hsaved.
    apply lift_Ok in Hout. destruct Hout as [Hout _]. inv_Ok Hout.
    apply cbind_Ok in H. destruct H as (rs & log2 & Hrest & H).
    apply lift_Ok in H. destruct H as [H _]. inv_Ok H.
    destruct (IH _ _ _ _ Hrest) as (managers & Hall & Hspx & Hinfo).
    exists (manager :: managers). cbn [fst snd map]. rewrite Hspx, Hinfo.
    split; [constructor; assumption |]. split; [reflexivity |].
    f_equal. rewrite map_map. reflexivity.
Qed.

(** The rows [np.where] finds depend on the tested column alone. *)
Lemma where_rows_indices (A B : Type) (p : A -> bool) (q : B -> bool)
    (rows : list A) (rows' : list B) :
  map p rows = map q rows' ->
  map fst (where_rows p rows) = map fst (where_rows q rows').
Proof.
  unfold where_rows. generalize 0. revert rows'.
  induction rows as [| a rows IH]; intros [| b rows'] s H; simpl in *;
    try discriminate; [reflexivity |].
  injection H as Hp Hrest. rewrite Hp.
  destruct (q b); simpl; [f_equal |]; apply IH; assumption.
Qed.

Lemma torch_data_Ok (self_hypers : Hypers) (frames : list TorchFrame)
    (log log' : list transform_arg) (d : Descriptor) :
  RascalSphericalExpansionTorch_compute self_hypers frames log = (Ok d, log') ->
  let species := unique_species (flat_map tf_species frames) in
  let hypers := with_species self_hypers species in
  exists (r : list (ndarray V) * list (list center_info)) (data : ndarray V)
         (d0 lm : nat) (a0 : ndarray V) (rest : list (ndarray V)),
    torch_loop hypers 0 frames log = (Ok r, log') /\
    fst r = a0 :: rest /\
    Forall (fun x => tl (shape x) = tl (shape a0)) (fst r) /\
    d0 = fold_right (fun x n => hd 0 (shape x) + n) 0 (fst r) /\
    d0 <> 0 /\ length species <> 0 /\ (0 < max_radial self_hypers)%Z /\
    shape data = [d0; length species; Z.to_nat (max_radial self_hypers); lm] /\
    flat data = concat (map flat (fst r)) /\
    length (flat data) = d0 * (length species * Z.to_nat (max_radial self_hypers)) * lm /\
    Forall2 (fun key block =>
               torch_block hypers species data (concat (snd r)) key = Ok block)
            (sparse_keys hypers species) (blocks d).
Proof.
  unfold RascalSphericalExpansionTorch_compute. intros H.
  apply cbind_Ok in H. destruct H as (all_numbers & log1 & H1 & H).
  apply lift_Ok in H1. destruct H1 as [H1 ->].
  destruct frames as [| f frames]; [discriminate |]. inv_Ok H1.
  apply cbind_Ok in H. destruct H as (built & log0 & Hbuilt & H).
  apply lift_Ok in Hbuilt. destruct Hbuilt as [_ ->].
  apply cbind_Ok in H. destruct H as (r & log2 & Hloop & H).
  apply lift_Ok in H. destruct H as [H ->].
  bind_inv H as data0 Hdata0. bind_inv H as sp Hsp. bind_inv H as ft Hft.
  bind_inv H as d0 Hd0. bind_inv H as data Hdata.
  bind_inv H as bs Hbs. inv_Ok H. cbn [blocks].
  unfold torch_vstack in Hdata0.
  destruct (np_concatenate (fst r)) as [stacked | e] eqn:Hstack; [| discriminate].
  injection Hdata0 as <-.
  destruct (np_concatenate_Ok _ _ Hstack) as (a0 & rest & Hr & Htl & Hrows & Hflat).
  apply py_getitem_0 in Hd0. rewrite Hrows in Hd0. injection Hd0 as Hd0.
  unfold torch_reshape_last in Hdata.
  match type of Hdata with
  | context [reshape_last ?dims ?t] =>
      destruct (reshape_last dims t) as [reshaped | e] eqn:Hreshape; [| discriminate]
  end.
  injection Hdata as <-.
  destruct (reshape_last_Ok _ _ _ Hreshape) as (lm & Hs & Hf & Hsize & Hlen).
  cbn [map app size fold_right with_species max_radial] in Hs, Hsize, Hlen.
  rewrite !Nat2Z.id in Hs, Hsize, Hlen. rewrite Nat.mul_1_r in Hsize, Hlen.
  exists r, reshaped, d0, lm, a0, rest. cbn [flat_map] in *.
  split; [exact Hloop |]. split; [exact Hr |]. split; [exact Htl |].
  split; [symmetry; exact Hd0 |].
  split; [nia |]. split; [nia |]. split; [nia |].
  split; [exact Hs |]. split; [congruence |]. split; [rewrite Hf; lia |].
  apply mapM_Forall2. assumption.
Qed.

Lemma torch_block_values (hypers : Hypers) (species : list Z) (data : ndarray V)
    (info : list center_info) (l center_species neighbor_species : Z) (block : Block) :
  torch_block hypers species data info (l, center_species, neighbor_species)
  = Ok block ->
  exists neighbor_species_i lm_slice b0,
    list_index species neighbor_species = Ok neighbor_species_i /\
    py_getitem (lm_slices hypers) l = Ok lm_slice /\
    select_block data
      (map fst (where_rows (fun row => (ci_species row =? center_species)%Z) info))
      neighbor_species_i lm_slice = Ok b0 /\
    swapaxes_1_2 b0 = Ok (bk_values block).
Proof.
  unfold torch_block. intros H.
  bind_inv H as nsi Hnsi. bind_inv H as lm_slice Hslice.
  bind_inv H as bd0 Hbd0. bind_inv H as bd Hbd. bind_inv H as c Hc.
  inv_Ok H. cbn [bk_values].
  exists nsi, lm_slice, bd0. auto.
Qed.

(** X18.  The values of the builder on tensors are cut out of the
    features of all frames stacked in order, which must have the same
    width for every frame.  With [stacked] read as an array of shape
    [(centers, |S|, N_max, lm)], the entry [(i, m, n)] of the block of
    [(l, cs, ns)] is the entry of the [i]-th row of species [cs], among
    the centers the calculator reports for the frames in their order,
    for the neighbor species [ns], the radial index [n] and the angular
    component [l^2 + m]; the block has one row per sample, and the
    shape its labels announce when [lm >= (L_max + 1)^2]. *)
Theorem torch_expansion_block_values (self_hypers : Hypers)
    (frames : list TorchFrame) (log log' : list transform_arg) (d : Descriptor) :
  let species := unique_species (flat_map tf_species frames) in
  let hypers := with_species self_hypers species in
  let nr := Z.to_nat (max_radial self_hypers) in
  RascalSphericalExpansionTorch_compute self_hypers frames log = (Ok d, log') ->
  (max_angular self_hypers < 2 ^ 31)%Z ->
  exists (managers : list Manager) (lm : nat),
    Forall2 (fun f manager =>
               rascal hypers (OneFrame {| numbers := tf_species f;
                                          positions := tf_positions f;
                                          cell := tf_cell f |}) = Ok manager)
            frames managers /\
    (forall m1 m2, In m1 managers -> In m2 managers ->
       tl (shape (get_features m1)) = tl (shape (get_features m2))) /\
    let stacked := concat (map (fun manager => flat (get_features manager)) managers) in
    let info := concat (map get_representation_info managers) in
    let centers :=
      fold_right (fun manager n => hd 0 (shape (get_features manager)) + n) 0 managers in
    centers * (length species * nr) <> 0 /\
    length stacked = centers * (length species * nr) * lm /\
    forall l cs ns block,
      In ((l, cs, ns), block) (combine (sparse_keys hypers species) (blocks d)) ->
      exists (neighbor_species_i : nat),
        let mask := map fst (where_rows (fun row => (ci_species row =? cs)%Z) info) in
        let first := fst (clip lm (l * l, (l + 1) * (l + 1))%Z) in
        let count := snd (clip lm (l * l, (l + 1) * (l + 1))%Z) in
        list_index species ns = Ok neighbor_species_i /\
        length mask = lb_len (bk_samples block) /\
        shape (bk_values block) = [lb_len (bk_samples block); count; nr] /\
        (forall i m n, i < length mask -> m < count -> n < nr ->
           nth (i * (count * nr) + (m * nr + n)) (flat (bk_values block)) vzero
           = at4 (length species) nr lm stacked (nth i mask 0) neighbor_species_i n
               (first + m)) /\
        (Z.to_nat ((max_angular self_hypers + 1) * (max_angular self_hypers + 1)) <= lm ->
         shape (bk_values block)
         = lb_len (bk_samples block)
           :: map lb_len (bk_components block) ++ [lb_len (bk_features block)]).
Proof.
  intros species hypers nr H HL.
  destruct (torch_data_Ok _ _ _ _ _ H)
    as (r & data & d0 & lm & a0 & rest & Hloop & Hr & Htl & Hd0 & Hrows0 & Hsp & HN
        & Hshape & Hflat & Hlen & Hblocks).
  fold species in Hloop, Hshape, Hblocks, Hsp, Hlen. fold hypers in Hloop, Hblocks.
  fold nr in Hshape, Hlen.
  destruct (torch_loop_managers _ _ _ _ _ _ Hloop) as (managers & Hcalls & Hspx & Hinfo).
  exists managers, lm. split; [exact Hcalls |]. split.
  { intros m1 m2 H1 H2. rewrite Forall_forall in Htl. rewrite Hspx in Htl.
    rewrite (Htl _ (in_map get_features _ _ H1)), (Htl _ (in_map get_features _ _ H2)).
    reflexivity. }
  cbn zeta.
  assert (Hcenters : fold_right (fun manager n => hd 0 (shape (get_features manager)) + n)
                       0 managers = d0).
  { rewrite Hd0, Hspx. clear. induction managers as [| manager managers IH];
      [reflexivity |]. cbn [map fold_right]. rewrite IH. reflexivity. }
  rewrite Hcenters.
  split; [unfold nr; nia |].
  split; [rewrite <- Hlen, Hflat, Hspx, map_map; reflexivity |].
  intros l cs ns block Hkb.
  pose proof (in_combine_l _ _ _ _ Hkb) as Hkey.
  apply (sparse_keys_degree hypers species) in Hkey; [| exact HL].
  apply (Forall2_combine_In _ _ _ _ _ _ _ Hblocks) in Hkb.
  destruct (torch_block_Ok _ _ _ _ _ _ _ _ Hkb) as (Hsamples & Hcomp & Hfeat & _).
  destruct (torch_block_values _ _ _ _ _ _ _ _ Hkb)
    as (nsi & lm_slice & b0 & Hnsi & Hslice & Hsel & Hswap).
  rewrite (lm_slices_getitem hypers l Hkey) in Hslice. injection Hslice as <-.
  destruct (block_data_Ok _ _ _ _ _ _ Hsel Hswap)
    as (c & ns' & nr' & lm' & Hs' & _ & _ & Hbs & _ & Hbv).
  rewrite Hshape in Hs'. injection Hs' as <- <- <- <-.
  rewrite Hflat, Hspx, map_map in Hbv.
  assert (Hmask : map fst (where_rows (fun row => (ci_species row =? cs)%Z)
                             (concat (snd r)))
                  = map fst (where_rows (fun row => (ci_species row =? cs)%Z)
                               (concat (map get_representation_info managers)))).
  { apply where_rows_indices.
    rewrite <- !(map_map ci_species (fun z => (z =? cs)%Z)).
    rewrite !concat_map, Hinfo, !map_map. reflexivity. }
  rewrite Hmask in Hbs, Hbv.
  assert (Hrows : length (map fst (where_rows (fun row => (ci_species row =? cs)%Z)
                                     (concat (map get_representation_info managers))))
                  = lb_len (bk_samples block)).
  { rewrite <- Hmask, Hsamples. unfold lb_len. cbn [lb_values].
    rewrite !length_map. reflexivity. }
  exists nsi. rewrite <- Hrows.
  split; [assumption |]. split; [reflexivity |]. split; [assumption |].
  split; [assumption |].
  intros Hlm. rewrite Hbs, Hcomp, Hfeat. cbn [map app].
  rewrite (clip_lm hypers l lm Hkey Hlm).
  rewrite lb_len_spherical_harmonics_m, lb_len_features_labels. reflexivity.
Qed.

End Builders.

(** ** Runs on water and hydrogen

    Two structures, a water molecule (O, H, H) and a hydrogen molecule
    (H, H), with [L_max = 1] and [N_max = 1].  The calculator of the run
    returns one row of eight features for each of the five centers, and
    three rows of gradient features for each of four rows of gradient
    metadata. *)

Definition atoms (atomic_numbers : list Z) : @Atoms float :=
  mk_Atoms atomic_numbers [] [].

Definition water_frames : list (@Atoms float) :=
  [atoms [8; 1; 1]%Z; atoms [1; 1]%Z].

Definition water_hypers : Hypers unit := mk_Hypers unit 1 1 true [] "" tt.

Definition water_manager : @Manager float :=
  mk_Manager
    (mk_ndarray [5; 8] (map float_of_Z (range2 1 41)))
    (mk_ndarray [12; 8] (map float_of_Z (range2 1 97)))
    [mk_center_info 0 0 8; mk_center_info 0 1 1; mk_center_info 0 2 1;
     mk_center_info 1 3 1; mk_center_info 1 4 1]%Z
    [mk_gradient_info 0 0 1 8 1; mk_gradient_info 0 1 0 1 8;
     mk_gradient_info 1 3 4 1 1; mk_gradient_info 1 4 3 1 1]%Z.

Definition water_rascal (hypers : Hypers unit) (arg : @transform_arg float)
    : result (@Manager float) :=
  match arg with
  | Frames _ => Ok water_manager
  | OneFrame _ => Raise LibraryError
  end.

(** A calculator that is built from any hyper-parameters. *)
Definition every_hypers (hypers : Hypers unit) : result unit := Ok tt.

Definition water_species : list Z :=
  Eval vm_compute in unique_species (flat_map numbers water_frames).

Example water_species_sorted : water_species = [1; 8]%Z.
Proof. reflexivity. Qed.

Definition water_descriptor : @Descriptor float :=
  Eval vm_compute in
    match fst (RascalSphericalExpansion_compute unit water_rascal every_hypers water_hypers
                 water_frames []) with
    | Ok d => d
    | Raise _ => mk_Descriptor (mk_Labels [] []) []
    end.

Lemma water_run :
  RascalSphericalExpansion_compute unit water_rascal every_hypers water_hypers water_frames []
  = (Ok water_descriptor, [Frames water_frames]).
Proof. vm_compute. reflexivity. Defined.

Example water_keys :
  lb_values (sparse water_descriptor)
  = [[0; 1; 1]; [0; 1; 8]; [0; 8; 1]; [0; 8; 8];
     [1; 1; 1]; [1; 1; 8]; [1; 8; 1]; [1; 8; 8]]%Z.
Proof. reflexivity. Qed.

Example water_samples :
  map (fun block => lb_values (bk_samples block)) (blocks water_descriptor)
  = [[[0; 1]; [0; 2]; [1; 0]; [1; 1]]; [[0; 1]; [0; 2]; [1; 0]; [1; 1]];
     [[0; 0]]; [[0; 0]];
     [[0; 1]; [0; 2]; [1; 0]; [1; 1]]; [[0; 1]; [0; 2]; [1; 0]; [1; 1]];
     [[0; 0]]; [[0; 0]]]%Z.
Proof. reflexivity. Qed.

Example water_gradient_shapes :
  map (fun block => map (fun g => shape (gr_data (snd g))) (bk_gradients block))
      (blocks water_descriptor)
  = [[[2; 3; 1; 1]]; [[1; 3; 1; 1]]; [[1; 3; 1; 1]]; [[0; 3; 1; 1]];
     [[2; 3; 3; 1]]; [[1; 3; 3; 1]]; [[1; 3; 3; 1]]; [[0; 3; 3; 1]]].
Proof. reflexivity. Qed.

Lemma water_sound_input : sound_input unit water_hypers water_frames.
Proof.
  constructor.
  - by_computation.
  - by_computation.
  - discriminate.
  - cbn. repeat constructor; by_computation.
  - by_computation.
Defined.

Lemma water_sound_output :
  sound_output unit (with_species unit water_hypers water_species) water_species
    water_frames water_manager.
Proof.
  constructor.
  - exists 4. split; reflexivity.
  - discriminate.
  - cbn. repeat constructor; by_computation.
  - exists 12, 4. split; [discriminate |]. split; [reflexivity |].
    split; [reflexivity |]. intros _. cbn. lia.
  - intros _. cbn. repeat constructor; by_computation.
Defined.

(** The same frames with a calculator that takes the hydrogen atoms
    alone as centers, as a mask on the centers has it: oxygen is a
    species of the frames and no center is an oxygen. *)
Definition hydrogen_manager : @Manager float :=
  mk_Manager
    (mk_ndarray [4; 8] (map float_of_Z (range2 1 33)))
    (mk_ndarray [12; 8] (map float_of_Z (range2 1 97)))
    [mk_center_info 0 1 1; mk_center_info 0 2 1;
     mk_center_info 1 3 1; mk_center_info 1 4 1]%Z
    [mk_gradient_info 0 1 0 1 8; mk_gradient_info 0 1 2 1 1;
     mk_gradient_info 1 3 4 1 1; mk_gradient_info 1 4 3 1 1]%Z.

Definition hydrogen_rascal (hypers : Hypers unit) (arg : @transform_arg float)
    : result (@Manager float) :=
  match arg with
  | Frames _ => Ok hydrogen_manager
  | OneFrame _ => Raise LibraryError
  end.

Lemma hydrogen_sound_output :
  sound_output unit (with_species unit water_hypers water_species) water_species
    water_frames hydrogen_manager.
Proof.
  constructor.
  - exists 4. split; reflexivity.
  - discriminate.
  - cbn. repeat constructor; by_computation.
  - exists 12, 4. split; [discriminate |]. split; [reflexivity |].
    split; [reflexivity |]. intros _. cbn. lia.
  - intros _. cbn. repeat constructor; by_computation.
Defined.

Lemma hydrogen_all_components :
  all_components unit (with_species unit water_hypers water_species) water_species
    hydrogen_manager.
Proof. reflexivity. Defined.

(** The run on these centers gives no block for the keys of the oxygen
    centers: it raises. *)
Lemma spherical_expansion_one_block_per_key_witness :
  RascalSphericalExpansion_compute unit hydrogen_rascal every_hypers water_hypers
    water_frames []
  = (Raise (ValueError "values parameter must be a 2D array"), [Frames water_frames]).
Proof.
  apply (proj2 (proj2 (proj2
           (spherical_expansion_one_block_per_key unit hydrogen_rascal every_hypers
              water_hypers water_frames hydrogen_manager [] water_sound_input
              eq_refl eq_refl hydrogen_sound_output hydrogen_all_components)))).
  exists 8%Z. split; [right; left; reflexivity |].
  intros row [<- | [<- | [<- | [<- | []]]]]; discriminate.
Defined.

(** With every atom as a center the same call returns its eight
    blocks. *)
Example water_blocks :
  length (blocks water_descriptor) = 8 /\
  Forall (fun block => lb_values (bk_samples block) <> []) (blocks water_descriptor).
Proof. split; [reflexivity | repeat constructor; discriminate]. Qed.

Definition water_h_h : @Block float :=
  Eval vm_compute in
    match blocks water_descriptor with
    | block :: _ => block
    | [] => mk_Block (mk_ndarray [] []) (mk_Labels [] []) [] (mk_Labels [] []) []
    end.

Definition water_o_o : @Block float :=
  Eval vm_compute in
    match blocks water_descriptor with
    | _ :: _ :: _ :: block :: _ => block
    | _ => mk_Block (mk_ndarray [] []) (mk_Labels [] []) [] (mk_Labels [] []) []
    end.

Lemma water_centers :
  Forall (center_of_frame water_frames) (get_representation_info water_manager).
Proof.
  repeat constructor; try by_computation;
    (eexists; split; [reflexivity | by_computation]).
Defined.

(** The second atom of the hydrogen molecule, atom 4 of the calculator,
    is stored as center 1 of structure 1. *)
Lemma spherical_expansion_local_centers_witness :
  exists r frame,
    In r (get_representation_info water_manager) /\
    nth_error water_frames (Z.to_nat (ci_structure r)) = Some frame /\
    [1; 1]%Z
    = [ci_structure r;
       ci_center r - Z.of_nat (first_atom water_frames (Z.to_nat (ci_structure r)))]%Z.
Proof.
  destruct (spherical_expansion_local_centers unit water_rascal every_hypers water_hypers
              water_frames water_manager [] [Frames water_frames] water_descriptor
              water_run eq_refl water_centers) with (block := water_h_h) (row := [1; 1]%Z)
    as (_ & r & frame & Hr & Hframe & Hrow & _).
  - by_computation.
  - by_computation.
  - left. reflexivity.
  - right. right. right. left. reflexivity.
  - exists r, frame. auto.
Defined.

(** No oxygen is a neighbor of the oxygen center: the gradient of the
    block [(0, 8, 8)] is attached and has no samples. *)
Lemma spherical_expansion_gradient_attached_witness :
  exists g,
    bk_gradients water_o_o = [("positions"%string, g)] /\
    lb_len (gr_samples g) = 0 /\
    shape (gr_data g) = [0; 3; 1; 1].
Proof.
  destruct (spherical_expansion_gradient_attached unit water_rascal every_hypers
              water_hypers water_frames water_manager [] [Frames water_frames]
              water_descriptor eq_refl water_run eq_refl)
    as (_ & g0 & glm & _ & _ & _ & Hblocks).
  destruct (Hblocks 0%Z 8%Z 8%Z water_o_o)
    as (nsi & lm_slice & entries & g & _ & _ & _ & _ & _ & Hg & _ & _ & Hlen & Hempty).
  - right. right. right. left. reflexivity.
  - assert (He : entries = []).
    { vm_compute in Hg. injection Hg as <-.
      destruct entries as [| e entries]; [reflexivity |].
      cbn in Hlen. discriminate Hlen. }
    destruct (Hempty He) as (_ & Hs & _).
    exists g. split; [exact Hg |].
    split; [rewrite Hlen, He; reflexivity | exact Hs].
Defined.

(** ** Runs of the pair expansion

    A hydrogen molecule and a single hydrogen atom, [L_max = 0] and
    [N_max = 1].  The calculator of the run gives each atom a
    coefficient of one on itself and of [2^-40] on every other
    pseudo-species, whose square is below the threshold. *)

Definition pair_frames : list (@Atoms float) := [atoms [1; 1]%Z; atoms [1]%Z].

Definition pair_hypers (gradients : bool) : Hypers unit :=
  mk_Hypers unit 0 1 gradients [] "" tt.

Definition pair_rascal (hypers : Hypers unit) (arg : @transform_arg float)
    : result (@Manager float) :=
  match arg with
  | OneFrame frame =>
      let m := length (global_species unit hypers) in
      Ok (mk_Manager
            (mk_ndarray [len frame; m]
               (flat_map (fun a =>
                            map (fun b => if a =? b then 1%float else 0x1p-40%float)
                                (seq 0 m))
                         (seq 0 (len frame))))
            (mk_ndarray [0; 0] []) [] [])
  | Frames _ => Raise LibraryError
  end.

Definition pair_descriptor : @Descriptor float :=
  Eval vm_compute in
    match fst (RascalPairExpansion_compute unit pair_rascal every_hypers (pair_hypers false)
                 pair_frames []) with
    | Ok d => d
    | Raise _ => mk_Descriptor (mk_Labels [] []) []
    end.

Definition pair_calls : list (@transform_arg float) :=
  [OneFrame (atoms [0; 1]%Z); OneFrame (atoms [0]%Z)].

Lemma pair_run :
  RascalPairExpansion_compute unit pair_rascal every_hypers (pair_hypers false) pair_frames []
  = (Ok pair_descriptor, pair_calls).
Proof. vm_compute. reflexivity. Defined.

Example pair_samples :
  map bk_samples (blocks pair_descriptor)
  = [mk_Labels pair_sample_names [[0; 0; 0]; [0; 1; 1]; [1; 0; 0]]%Z].
Proof. reflexivity. Qed.

(** With the gradient flag the same call raises and leaves the
    calculator alone. *)
Lemma pair_expansion_refuses_gradients_witness :
  RascalPairExpansion_compute unit pair_rascal every_hypers (pair_hypers true) pair_frames []
  = (Raise (PlainException "Pair expansion with gradient is not implemented"), []).
Proof.
  exact (pair_expansion_refuses_gradients unit pair_rascal every_hypers (pair_hypers true)
           pair_frames [] eq_refl).
Defined.

(** The run above: two calls, and one block with the shared samples. *)
Lemma pair_expansion_samples_witness :
  exists samples,
    pair_calls = map (fun f => OneFrame (with_numbers f (firstn (len f) (range 2))))
                     pair_frames /\
    lb_names samples = pair_sample_names /\
    Forall (fun block => bk_samples block = samples) (blocks pair_descriptor).
Proof.
  destruct (pair_expansion_samples unit pair_rascal every_hypers (pair_hypers false) pair_frames
              [] pair_calls pair_descriptor pair_run)
    as (max_atoms & samples & Hmax & Hlog & Hnames & _ & _ & _ & Hall).
  exists samples. split; [reflexivity |]. split; [exact Hnames | exact Hall].
Defined.

(** ** Runs of the backward pass *)

Definition no_gradient_ctx (calculator positions cell atomic_numbers : bool)
    : @FunctionCtx float :=
  mk_FunctionCtx calculator positions cell atomic_numbers
    (mk_ndarray [6; 0] []) [[0; 0; 1; 1; 1]; [0; 1; 0; 1; 1]]%Z.

Definition upstream : ndarray float :=
  mk_ndarray [2; 2] [1; 2; 3; 4]%float.

(** Positions need a gradient and the calculator computed none. *)
Lemma backward_missing_gradients_witness :
  backward (no_gradient_ctx false true false false) None upstream
  = Raise (ValueError "missing gradients, please set `compute_gradients` to True").
Proof.
  exact (backward_missing_gradients (no_gradient_ctx false true false false)
           None upstream eq_refl eq_refl).
Defined.

(** Only the atomic numbers need a gradient: nothing is raised. *)
Example backward_numbers_silent :
  backward (no_gradient_ctx false false false true) None upstream
  = Ok (mk_InputGradients None None None None).
Proof. reflexivity. Qed.

(** Positions need a gradient and the calculator computed them: atom 1
    is a neighbor of center 0 and atom 0 a neighbor of center 1. *)
Example backward_positions :
  backward
    (mk_FunctionCtx false true false false
       (mk_ndarray [6; 2] [1; 0; 0; 1; 1; 1; 2; 0; 0; 2; 1; -1]%float)
       [[0; 0; 1; 1; 1]; [0; 1; 0; 1; 1]]%Z)
    None upstream
  = Ok (mk_InputGradients None
          (Some (mk_ndarray [2; 3] [6; 8; -1; 1; 2; 3]%float)) None None).
Proof. vm_compute. reflexivity. Qed.

(** The cell needs a gradient: the call fails. *)
Example backward_cell_raises :
  backward (no_gradient_ctx false false true false) None upstream
  = Raise (ValueError "can not compute gradients w.r.t. cell").
Proof. reflexivity. Qed.

(** ** Further runs on water and hydrogen *)

(** The hydrogen-hydrogen block of degree 0: the four hydrogen centers
    are rows 1 to 4 of the features, and hydrogen is species 0. *)
Example water_h_h_values :
  bk_values water_h_h = mk_ndarray [4; 1; 1] [9; 17; 25; 33]%float.
Proof. reflexivity. Qed.

Lemma water_h_h_first : In ((0, 1, 1)%Z, water_h_h)
  (combine (sparse_keys unit (with_species unit water_hypers water_species) water_species)
           (blocks water_descriptor)).
Proof. left. reflexivity. Defined.

Lemma water_o_o_fourth : In ((0, 8, 8)%Z, water_o_o)
  (combine (sparse_keys unit (with_species unit water_hypers water_species) water_species)
           (blocks water_descriptor)).
Proof. right. right. right. left. reflexivity. Defined.

Lemma spherical_expansion_block_values_witness :
  exists (d0 lm neighbor_species_i : nat),
    hd_error (shape (get_features water_manager)) = Some d0 /\
    length (flat (get_features water_manager)) = d0 * (length water_species * 1) * lm /\
    list_index water_species 1 = Ok neighbor_species_i /\
    shape (bk_values water_h_h)
    = [4; snd (clip lm (0 * 0, (0 + 1) * (0 + 1))%Z); 1].
Proof.
  destruct (spherical_expansion_block_values unit water_rascal every_hypers water_hypers
              water_frames water_manager [] [Frames water_frames] water_descriptor
              water_run eq_refl)
    as (d0 & lm & Hd0 & Hlen & Hblocks).
  - by_computation.
  - destruct (Hblocks 0%Z 1%Z 1%Z water_h_h water_h_h_first)
      as (nsi & _ & Hnsi & _ & _ & Hshape & _).
    exists d0, lm, nsi. repeat split; assumption.
Defined.

(** The hydrogen blocks have the four hydrogen centers as samples. *)
Lemma spherical_expansion_samples_by_species_witness :
  lb_len (bk_samples water_h_h)
  = length (filter (fun row => (ci_species row =? 1)%Z)
              (get_representation_info water_manager)).
Proof.
  exact (proj1 (spherical_expansion_samples_by_species unit water_rascal every_hypers water_hypers
                  water_frames water_manager [] [Frames water_frames] water_descriptor
                  water_run eq_refl 0%Z 1%Z 1%Z water_h_h water_h_h_first)).
Defined.

Lemma spherical_expansion_needs_rows_witness :
  water_frames <> [] /\
  (exists d0, hd_error (shape (get_features water_manager)) = Some d0 /\ d0 <> 0) /\
  (exists g0, hd_error (shape (get_features_gradient water_manager)) = Some g0 /\ g0 <> 0).
Proof.
  destruct (spherical_expansion_needs_rows unit water_rascal every_hypers water_hypers
              water_frames water_manager [] [Frames water_frames] water_descriptor
              water_run eq_refl)
    as (Hf & _ & _ & Hd & Hg & _).
  split; [exact Hf |]. split; [exact Hd | exact Hg].
Defined.

(** The same run without the gradient flag. *)
Definition water_plain_hypers : Hypers unit := mk_Hypers unit 1 1 false [] "" tt.

Example water_plain_no_gradient :
  match fst (RascalSphericalExpansion_compute unit water_rascal every_hypers water_plain_hypers
               water_frames []) with
  | Ok d => map (fun block => length (bk_gradients block)) (blocks d)
  | Raise _ => []
  end = [0; 0; 0; 0; 0; 0; 0; 0].
Proof. vm_compute. reflexivity. Qed.

(** A calculator whose gradient features have no row. *)
Definition rowless_rascal (hypers : Hypers unit) (arg : @transform_arg float)
    : result (@Manager float) :=
  match arg with
  | Frames _ =>
      Ok (mk_Manager (get_features water_manager) (mk_ndarray [0; 8] [])
            (get_representation_info water_manager) [])
  | OneFrame _ => Raise LibraryError
  end.

Example rowless_gradients_raise :
  RascalSphericalExpansion_compute unit rowless_rascal every_hypers water_plain_hypers water_frames []
  = (Raise (ValueError "cannot reshape array"), [Frames water_frames]).
Proof. vm_compute. reflexivity. Qed.

(** The hydrogen-hydrogen block of the run with gradients. *)
Example water_h_h_gradient_samples :
  map (fun g => lb_values (gr_samples (snd g))) (bk_gradients water_h_h)
  = [[[2; 1; 1]; [3; 1; 0]]]%Z.
Proof. reflexivity. Qed.

Lemma spherical_expansion_gradient_samples_witness :
  exists g,
    bk_gradients water_h_h = [("positions"%string, g)] /\
    exists (sample_i : nat) (row : gradient_info) (neighbor center : Z),
      [2; 1; 1]%Z
      = [int32 (Z.of_nat sample_i); int32 (gi_structure row); int32 neighbor] /\
      In row (get_gradients_info water_manager) /\
      sample_i < lb_len (bk_samples water_h_h).
Proof.
  destruct (spherical_expansion_gradient_samples unit water_rascal every_hypers water_hypers
              water_frames water_manager [] [Frames water_frames] water_descriptor
              eq_refl water_run eq_refl 0%Z 1%Z 1%Z water_h_h water_h_h_first)
    as (g & Hg & Hrows).
  exists g. split; [exact Hg |].
  destruct (Hrows [2; 1; 1]%Z) as (sample_i & row & neighbor & center
                                    & Heq & Hrow & _ & _ & Hlt & _).
  - vm_compute in Hg. injection Hg as <-. left. reflexivity.
  - exists sample_i, row, neighbor, center. auto.
Defined.

Lemma spherical_expansion_gradient_shape_witness :
  exists g,
    bk_gradients water_h_h = [("positions"%string, g)] /\
    shape (gr_data g) = [lb_len (gr_samples g); 3; 1; 1].
Proof.
  destruct (spherical_expansion_gradient_shape unit water_rascal every_hypers water_hypers
              water_frames water_manager [] [Frames water_frames] water_descriptor
              eq_refl water_run eq_refl)
    with (l := 0%Z) (cs := 1%Z) (ns := 1%Z) (block := water_h_h)
    as (g & Hg & Hshape & _).
  - by_computation.
  - exact water_sound_output.
  - exact water_h_h_first.
  - exists g. split; [exact Hg | exact Hshape].
Defined.

(** ** Further runs of the pair expansion *)

Lemma pair_expansion_pseudo_species_witness :
  exists max_atoms,
    (exists f, In f pair_frames /\ len f = max_atoms) /\
    pair_calls
    = map (fun f => OneFrame {| numbers := range (Z.of_nat (len f));
                                positions := positions f;
                                cell := cell f |}) pair_frames.
Proof.
  destruct (pair_expansion_pseudo_species unit pair_rascal every_hypers (pair_hypers false)
              pair_frames [] pair_calls pair_descriptor pair_run)
    as (max_atoms & _ & Hmax & Hlog & _).
  exists max_atoms. split; [exact Hmax | exact Hlog].
Defined.

Lemma pair_expansion_needs_pairs_witness :
  pair_frames <> [] /\
  exists a b,
    a < 1 /\
    forall block, In block (blocks pair_descriptor) ->
      In [int32 1; int32 (Z.of_nat a); int32 (Z.of_nat b)]
         (lb_values (bk_samples block)).
Proof.
  destruct (proj2 (pair_expansion_needs_pairs unit pair_rascal every_hypers (pair_hypers false))
                  pair_frames [] pair_calls pair_descriptor pair_run)
    as (Hne & _ & Hall).
  split; [exact Hne |].
  destruct (Hall 1 (atoms [1]%Z) eq_refl) as (_ & a & b & Ha & Hin).
  exists a, b. split; [exact Ha | exact Hin].
Defined.

(** A calculator whose features are all below the threshold. *)
Definition faint_rascal (hypers : Hypers unit) (arg : @transform_arg float)
    : result (@Manager float) :=
  match arg with
  | OneFrame frame =>
      let m := length (global_species unit hypers) in
      Ok (mk_Manager
            (mk_ndarray [len frame; m] (repeat 0x1p-40%float (len frame * m)))
            (mk_ndarray [0; 0] []) [] [])
  | Frames _ => Raise LibraryError
  end.

Example faint_pairs_raise :
  RascalPairExpansion_compute unit faint_rascal every_hypers (pair_hypers false) pair_frames []
  = (Raise (ValueError "cannot reshape array"), [OneFrame (atoms [0; 1]%Z)]).
Proof. vm_compute. reflexivity. Qed.

Example pair_values :
  map bk_values (blocks pair_descriptor)
  = [mk_ndarray [3; 1; 1] [1; 1; 1]%float].
Proof. reflexivity. Qed.

Lemma pair_expansion_block_shape_witness :
  exists (max_atoms lm : nat),
    py_max (map len pair_frames) = Ok max_atoms /\
    forall l block,
      In (l, block) (combine (range (0 + 1)) (blocks pair_descriptor)) ->
      shape (bk_values block)
      = [lb_len (bk_samples block); snd (clip lm (l * l, (l + 1) * (l + 1))%Z); 1].
Proof.
  destruct (pair_expansion_block_shape unit pair_rascal every_hypers (pair_hypers false)
              pair_frames [] pair_calls pair_descriptor pair_run)
    as (max_atoms & lm & Hmax & _ & Hblocks).
  - by_computation.
  - exists max_atoms, lm. split; [exact Hmax |].
    intros l block Hin. exact (proj1 (proj2 (Hblocks l block Hin))).
Defined.

(** A calculator that fails on structures of a single atom: the call
    on the first structure of [pair_frames] goes through, the call on
    the second one fails. *)
Definition picky_rascal (hypers : Hypers unit) (arg : @transform_arg float)
    : result (@Manager float) :=
  match arg with
  | OneFrame frame =>
      if len frame =? 1 then Raise LibraryError else pair_rascal hypers arg
  | Frames _ => Raise LibraryError
  end.

Lemma picky_run :
  RascalPairExpansion_compute unit picky_rascal every_hypers (pair_hypers false)
    (pair_frames ++ pair_frames) []
  = (Raise LibraryError, pair_calls).
Proof. vm_compute. reflexivity. Defined.

(** Two calls were made on the four structures. *)
Lemma pair_expansion_stops_at_first_failure_witness :
  exists (k : nat) (f : @Atoms float),
    nth_error (pair_frames ++ pair_frames) k = Some f /\
    length pair_calls = S k.
Proof.
  destruct (pair_expansion_stops_at_first_failure unit picky_rascal every_hypers
              (pair_hypers false) (pair_frames ++ pair_frames) [] pair_calls
              LibraryError eq_refl picky_run)
    as [(H & _)
       | (max_atoms & Hmax
          & [(_ & Hbuilt)
            | [(_ & _ & _ & He)
              | (_ & _ & _ & [(k & f & Hf & Hlog & _) | Hlog])]])].
  - discriminate H.
  - discriminate Hbuilt.
  - discriminate He.
  - exists k, f. split; [exact Hf |].
    apply (f_equal (@length _)) in Hlog.
    rewrite length_app, length_map, length_firstn in Hlog. cbn in Hlog |- *. lia.
  - apply (f_equal (@length _)) in Hlog. discriminate Hlog.
Defined.

(** Without a radial function the labels of the features cannot be
    made: the call fails before the calculator is called. *)
Example no_radial_raises :
  RascalPairExpansion_compute unit pair_rascal every_hypers
    (mk_Hypers unit 0 0 false [] "" tt) pair_frames []
  = (Raise (ValueError "values parameter must be a 2D array"), []).
Proof. vm_compute. reflexivity. Qed.

(** A calculator that refuses its hyper-parameters is not called. *)
Example refused_hypers_raise :
  RascalPairExpansion_compute unit pair_rascal (fun _ => Raise LibraryError)
    (pair_hypers false) pair_frames []
  = (Raise LibraryError, []).
Proof. vm_compute. reflexivity. Qed.

(** ** Runs of the builder on tensors *)

(** The calculator of these runs reports, for a single frame, structure
    0 and the atoms in their order, with eight features each. *)
Definition single_frame_rascal (hypers : Hypers unit) (arg : @transform_arg float)
    : result (@Manager float) :=
  match arg with
  | OneFrame frame =>
      let w := length (global_species unit hypers) * 4 in
      Ok (mk_Manager
            (mk_ndarray [len frame; w]
               (map float_of_Z (range (Z.of_nat (len frame * w)))))
            (mk_ndarray [0; 0] [])
            (map (fun kz => mk_center_info 0 (Z.of_nat (fst kz)) (snd kz))
                 (combine (seq 0 (len frame)) (numbers frame)))
            [])
  | Frames _ => Raise LibraryError
  end.

Definition torch_frames : list (@TorchFrame float) :=
  map (fun frame => TorchFrame_init frame true) water_frames.

Definition torch_descriptor : @Descriptor float :=
  Eval vm_compute in
    match fst (RascalSphericalExpansionTorch_compute unit single_frame_rascal every_hypers
                 water_plain_hypers torch_frames []) with
    | Ok d => d
    | Raise _ => mk_Descriptor (mk_Labels [] []) []
    end.

Lemma torch_run :
  RascalSphericalExpansionTorch_compute unit single_frame_rascal every_hypers water_plain_hypers
    torch_frames []
  = (Ok torch_descriptor, map OneFrame water_frames).
Proof. vm_compute. reflexivity. Defined.

Example torch_samples :
  map (fun block => lb_values (bk_samples block)) (blocks torch_descriptor)
  = [[[0; 1]; [0; 2]; [1; 0]; [1; 1]]; [[0; 1]; [0; 2]; [1; 0]; [1; 1]];
     [[0; 0]]; [[0; 0]];
     [[0; 1]; [0; 2]; [1; 0]; [1; 1]]; [[0; 1]; [0; 2]; [1; 0]; [1; 1]];
     [[0; 0]]; [[0; 0]]]%Z.
Proof. reflexivity. Qed.

Lemma torch_expansion_one_call_per_frame_witness :
  map OneFrame water_frames
  = map (fun f => OneFrame {| numbers := tf_species f;
                              positions := tf_positions f;
                              cell := tf_cell f |}) torch_frames /\
  length (blocks torch_descriptor) = 8 /\
  Forall (fun block => bk_gradients block = []) (blocks torch_descriptor).
Proof.
  destruct (torch_expansion_one_call_per_frame unit single_frame_rascal every_hypers
              water_plain_hypers torch_frames [] (map OneFrame water_frames)
              torch_descriptor torch_run)
    as (_ & Hlog & _ & _ & Hlen & Hnone).
  split; [exact Hlog |]. split; [exact Hlen | exact Hnone].
Defined.

Definition torch_h_h : @Block float :=
  Eval vm_compute in
    match blocks torch_descriptor with
    | block :: _ => block
    | [] => mk_Block (mk_ndarray [] []) (mk_Labels [] []) [] (mk_Labels [] []) []
    end.

(** The second atom of the hydrogen molecule is center 1 of the second
    frame. *)
Lemma torch_expansion_samples_witness :
  exists (i : nat) (f : @TorchFrame float) (manager : @Manager float) (r : center_info),
    nth_error torch_frames i = Some f /\
    In r (get_representation_info manager) /\
    [1; 1]%Z = [int32 (Z.of_nat i); int32 (ci_center r)].
Proof.
  destruct (torch_expansion_samples unit single_frame_rascal every_hypers water_plain_hypers
              torch_frames [] (map OneFrame water_frames) torch_descriptor torch_run
              0%Z 1%Z 1%Z torch_h_h) as (_ & Hrows).
  - left. reflexivity.
  - destruct (proj1 (Hrows [1; 1]%Z)) as (i & f & manager & r & Hf & _ & Hr & _ & Heq).
    + right. right. right. left. reflexivity.
    + exists i, f, manager, r. auto.
Defined.

(** Rows 1 and 2 of the first frame, rows 0 and 1 of the second one. *)
Example torch_h_h_values :
  bk_values torch_h_h = mk_ndarray [4; 1; 1] [8; 16; 0; 8]%float.
Proof. reflexivity. Qed.

Lemma torch_expansion_block_values_witness :
  exists (lm neighbor_species_i : nat),
    list_index water_species 1 = Ok neighbor_species_i /\
    shape (bk_values torch_h_h)
    = [lb_len (bk_samples torch_h_h); snd (clip lm (0 * 0, (0 + 1) * (0 + 1))%Z); 1].
Proof.
  destruct (torch_expansion_block_values unit single_frame_rascal every_hypers water_plain_hypers
              torch_frames [] (map OneFrame water_frames) torch_descriptor torch_run)
    as (managers & lm & _ & _ & _ & _ & Hblocks).
  - by_computation.
  - destruct (Hblocks 0%Z 1%Z 1%Z torch_h_h) as (nsi & Hnsi & _ & Hshape & _).
    + left. reflexivity.
    + exists lm, nsi. split; [exact Hnsi | exact Hshape].
Defined.

(** ** A run of the accumulation *)

Definition positions_ctx : @FunctionCtx float :=
  mk_FunctionCtx false true false false
    (mk_ndarray [6; 2] [1; 0; 0; 1; 1; 1; 2; 0; 0; 2; 1; -1]%float)
    [[0; 0; 1; 1; 1]; [0; 1; 0; 1; 1]]%Z.

Definition positions_gradients : @InputGradients float :=
  mk_InputGradients None (Some (mk_ndarray [2; 3] [6; 8; -1; 1; 2; 3]%float)) None None.

Lemma positions_run : backward positions_ctx None upstream = Ok positions_gradients.
Proof. vm_compute. reflexivity. Defined.

(** Atom 0 is the neighbor of the second metadata row alone: its
    gradient along [x] is row 1 of the upstream gradient times row 3 of
    the saved array. *)
Lemma backward_positions_gradient_witness :
  exists (rows : nat) (t : list float),
    grad_positions positions_gradients = Some {| shape := [rows; 3]; flat := t |} /\
    length t = rows * 3 /\
    nth (0 * 3 + 0) t 0%float
    = position_gradient upstream (saved_grad_spherical_expansion positions_ctx) rows 0
        (saved_grad_info positions_ctx) 0 0 0%float.
Proof.
  destruct (backward_positions_gradient positions_ctx None upstream positions_gradients
              eq_refl positions_run)
    as (rows & t & Hrows & Hg & Hlen & _ & Hnth & _).
  exists rows, t. split; [exact Hg |]. split; [exact Hlen |].
  apply (Hnth 0 0).
  - cbn in Hrows. injection Hrows as <-. lia.
  - lia.
Defined.

End Librascal.
